(** * Prepo.py: the car-listing preprocessing pipeline

    A shallow embedding of [Prepo.py] (load, clean, feature-engineer,
    one-hot encode, export) together with the properties of its
    specification.

    Tables are pandas data frames: an index of row labels and an ordered
    list of named columns.  Python variables hold references to frames, so
    the frames live in a heap and the stages are computations in a
    state-and-exception monad over the world (heap, file system, document
    store, clock, console).

    A number is the rational it stands for, extended with the two
    infinities; the missing value (NaN / None) is [VNull].  Cells carry
    no dtype: the arithmetic NumPy does on them ([int64] wraps around,
    [float64] rounds) is an operation of the platform, bound to exact
    arithmetic where every dtype is exact and to rounding to nearest for
    quotients.  Strings are sequences of bytes (UTF-8). *)

From Stdlib Require Import QArith Qcanon Qcabs.
From stdpp Require Import base numbers list strings gmap sorting pretty.

Local Open Scope Z_scope.
Local Open Scope string_scope.
Local Open Scope list_scope.

(** ** Cell values *)

Inductive value : Type :=
  | VNum (q : Qc)
  | VPosInf
  | VNegInf
  | VStr (s : string)
  | VNull.

Global Instance value_eq_dec : EqDecision value.
Proof. solve_decision. Defined.

Definition series : Type := list value.

(** ** Exceptions and results *)

Inductive exn : Type :=
  | KeyError (key : string)
  | TypeError
  | ValueError
  | FileNotFoundError (msg : string)
  | FileExistsError
  | IsADirectoryError
  | InvalidIndexError
  | ServerSelectionTimeoutError
  | ParserError
  | ReferenceError
  | CollaboratorError (msg : string).

Inductive result (A : Type) : Type :=
  | Ok (a : A)
  | Raise (e : exn).
Global Arguments Ok {A} a.
Global Arguments Raise {A} e.

Global Instance result_ret : MRet result := λ A a, Ok a.
Global Instance result_bind : MBind result := λ A B k m,
  match m with
  | Ok a => k a
  | Raise e => Raise e
  end.

(** Element-wise application of a fallible operation; the first failing
    element decides the exception. *)
Fixpoint mapR {A B} (f : A → result B) (l : list A) : result (list B) :=
  match l with
  | [] => Ok []
  | x :: l' =>
      match f x with
      | Ok y => match mapR f l' with
                | Ok ys => Ok (y :: ys)
                | Raise e => Raise e
                end
      | Raise e => Raise e
      end
  end.

Fixpoint zipR {A B C} (f : A → B → result C) (l : list A) (k : list B)
    : result (list C) :=
  match l, k with
  | x :: l', y :: k' =>
      match f x y with
      | Ok z => match zipR f l' k' with
                | Ok zs => Ok (z :: zs)
                | Raise e => Raise e
                end
      | Raise e => Raise e
      end
  | _, _ => Ok []
  end.

(** ** Arithmetic and comparison on cells (NumPy semantics) *)

Definition Qc_ltb (x y : Qc) : bool := bool_decide (x < y)%Qc.

(** [v < k]; a comparison with NaN is false. *)
Definition lt_scalar (k : Z) (v : value) : result bool :=
  match v with
  | VNum q => Ok (Qc_ltb q (Qc_of_Z k))
  | VPosInf => Ok false
  | VNegInf => Ok true
  | VNull => Ok false
  | VStr _ => Raise TypeError
  end.

(** [v > k] *)
Definition gt_scalar (k : Z) (v : value) : result bool :=
  match v with
  | VNum q => Ok (Qc_ltb (Qc_of_Z k) q)
  | VPosInf => Ok true
  | VNegInf => Ok false
  | VNull => Ok false
  | VStr _ => Raise TypeError
  end.

Definition is_str (v : value) : bool :=
  match v with VStr _ => true | _ => false end.

Definition is_number (v : value) : bool :=
  match v with VNum _ | VPosInf | VNegInf => true | _ => false end.

(** [Series.fillna(fill)] and the test [isna]. *)
Definition isna (v : value) : bool :=
  match v with VNull => true | _ => false end.

Definition fillna (fill : value) (v : value) : value :=
  if isna v then fill else v.

(** ** Data frames *)

Record DataFrame : Type := mkDataFrame {
  index : list Z;
  columns : list (string * series)
}.

Definition column_names (d : DataFrame) : list string := (columns d).*1.

Definition len (d : DataFrame) : nat := length (index d).

(** [df[c]]: the first column labelled [c]. *)
Fixpoint assoc (c : string) (cols : list (string * series)) : option series :=
  match cols with
  | [] => None
  | (c', s) :: cols' => if decide (c = c') then Some s else assoc c cols'
  end.

Definition column (d : DataFrame) (c : string) : option series :=
  assoc c (columns d).

(** [df[c] = s]: overwrite the column in place where it stands, or append
    it as the last column. *)
Fixpoint assoc_set (c : string) (s : series) (cols : list (string * series))
    : list (string * series) :=
  match cols with
  | [] => [(c, s)]
  | (c', s') :: cols' =>
      if decide (c = c') then (c, s) :: cols'
      else (c', s') :: assoc_set c s cols'
  end.

Definition set_column (d : DataFrame) (c : string) (s : series) : DataFrame :=
  mkDataFrame (index d) (assoc_set c s (columns d)).

(** Boolean-mask selection, by position. *)
Fixpoint mfilter {A} (mask : list bool) (l : list A) : list A :=
  match mask, l with
  | b :: mask', x :: l' => if b then x :: mfilter mask' l' else mfilter mask' l'
  | _, _ => []
  end.

Definition filter_rows (mask : list bool) (d : DataFrame) : DataFrame :=
  mkDataFrame (mfilter mask (index d))
              (prod_map id (mfilter mask) <$> columns d).

(** [s[mask] = v] by position. *)
Fixpoint mask_assign (mask : list bool) (v : value) (s : series) : series :=
  match mask, s with
  | b :: mask', x :: s' => (if b then v else x) :: mask_assign mask' v s'
  | _, _ => s
  end.

(** ** The world and the monad of the stages *)

Definition loc : Type := nat.

Inductive fsnode : Type :=
  | Dir
  | File (content : string).

(** A stored document: field names with their values, in insertion order. *)
Definition document : Type := list (string * value).

Record world : Type := mkWorld {
  heap : list DataFrame;                (* frame objects, by reference *)
  fs : gmap string fsnode;              (* the file system, by path *)
  mongo : gmap string (list document);  (* web_data.cars_raw, by server *)
  clock_year : Z;                       (* datetime.now().year *)
  stdout : list string;                 (* printed lines *)
  warnings : list string                (* messages of the warnings *)
}.

Definition set_heap (h : list DataFrame) (w : world) : world :=
  mkWorld h (fs w) (mongo w) (clock_year w) (stdout w) (warnings w).
Definition set_fs (f : gmap string fsnode) (w : world) : world :=
  mkWorld (heap w) f (mongo w) (clock_year w) (stdout w) (warnings w).
Definition add_stdout (line : string) (w : world) : world :=
  mkWorld (heap w) (fs w) (mongo w) (clock_year w) (stdout w ++ [line])
          (warnings w).
Definition add_warning (msg : string) (w : world) : world :=
  mkWorld (heap w) (fs w) (mongo w) (clock_year w) (stdout w)
          (warnings w ++ [msg]).

(** A computation returns a value or raises, and in both cases leaves a
    world behind: an exception does not undo earlier effects. *)
Definition M (A : Type) : Type := world → result A * world.

Global Instance M_ret : MRet M := λ A a w, (Ok a, w).
Global Instance M_bind : MBind M := λ A B k m w,
  match m w with
  | (Ok a, w') => k a w'
  | (Raise e, w') => (Raise e, w')
  end.

Definition raise {A} (e : exn) : M A := λ w, (Raise e, w).

Definition liftR {A} (r : result A) : M A := λ w, (r, w).

Fixpoint for_each {A} (l : list A) (body : A → M unit) : M unit :=
  match l with
  | [] => mret tt
  | x :: l' => body x;; for_each l' body
  end.

Definition print (line : string) : M unit := λ w, (Ok tt, add_stdout line w).

Definition warn (msg : string) : M unit := λ w, (Ok tt, add_warning msg w).

Definition datetime_now_year : M Z := λ w, (Ok (clock_year w), w).

(** *** Frame objects *)

Definition deref (r : loc) : M DataFrame := λ w,
  match heap w !! r with
  | Some d => (Ok d, w)
  | None => (Raise ReferenceError, w)
  end.

Definition alloc (d : DataFrame) : M loc := λ w,
  (Ok (length (heap w)), set_heap (heap w ++ [d]) w).

Definition store (r : loc) (d : DataFrame) : M unit := λ w,
  (Ok tt, set_heap (<[r := d]> (heap w)) w).

(** [df.copy()] *)
Definition df_copy (r : loc) : M loc :=
  d ← deref r; alloc d.

(** [df[c]] *)
Definition getitem (r : loc) (c : string) : M series :=
  d ← deref r;
  match column d c with
  | Some s => mret s
  | None => raise (KeyError c)
  end.

(** [df[c] = s], in place *)
Definition setitem (r : loc) (c : string) (s : series) : M unit :=
  d ← deref r; store r (set_column d c s).

(** [df[c] = v] for a scalar [v], in place: one copy of [v] per row *)
Definition setitem_scalar (r : loc) (c : string) (v : value) : M unit :=
  d ← deref r; store r (set_column d c (replicate (len d) v)).

(** [df.loc[mask, c] = v], in place; a column that does not exist yet is
    created with missing values outside the mask *)
Definition loc_setitem (r : loc) (mask : list bool) (c : string) (v : value)
    : M unit :=
  d ← deref r;
  match column d c with
  | Some s => store r (set_column d c (mask_assign mask v s))
  | None =>
      store r (set_column d c ((λ b : bool, if b then v else VNull) <$> mask))
  end.

(** [c in df.columns] *)
Definition has_column (r : loc) (c : string) : M bool :=
  d ← deref r; mret (bool_decide (c ∈ column_names d)).

(** [df[mask]]: a new frame with the selected rows and their labels *)
Definition getitem_mask (r : loc) (mask : list bool) : M loc :=
  d ← deref r; alloc (filter_rows mask d).

(** [len(df)] *)
Definition df_len (r : loc) : M nat :=
  d ← deref r; mret (len d).

(** ** What the program takes from its libraries and collaborators *)

(** Powers of two, and the numbers a [float64] cell can hold. *)
Definition pow2 (e : Z) : Qc := Q2Qc (2 ^ e)%Q.

Definition float64 (q : Qc) : Prop :=
  ∃ m e : Z, (Z.abs m < 2 ^ 53)%Z ∧ (-1074 ≤ e ≤ 971)%Z ∧
             q = (Qc_of_Z m * pow2 e)%Qc.

Class Platform : Type := {
  (** The arithmetic of NumPy on the numbers of a column: [int64] wraps
      around, [float64] rounds to nearest, Python integers are exact.
      Which one applies is a matter of the column's dtype, which the
      cells do not carry; what all of them share is required here: on
      integers of at most 53 bits sums and differences are exact, one
      more than a number that is not negative is not zero, and a
      quotient by a positive integer is rounded to nearest. *)
  num_sub : Qc → Qc → Qc;
  num_add : Qc → Qc → Qc;
  num_div : Qc → Qc → Qc;
  num_sub_int : ∀ a b : Z,
    (Z.abs a ≤ 2 ^ 52)%Z → (Z.abs b ≤ 2 ^ 52)%Z →
    num_sub (Qc_of_Z a) (Qc_of_Z b) = Qc_of_Z (a - b);
  num_add_int : ∀ a b : Z,
    (Z.abs a ≤ 2 ^ 52)%Z → (Z.abs b ≤ 2 ^ 52)%Z →
    num_add (Qc_of_Z a) (Qc_of_Z b) = Qc_of_Z (a + b);
  num_add_1_nonzero : ∀ q : Qc, (0 ≤ q)%Qc → num_add q (Qc_of_Z 1) ≠ 0%Qc;
  num_div_near : ∀ (x : Qc) (b : Z),
    float64 x → (1 ≤ b ≤ 2 ^ 53)%Z →
    (Qcabs (num_div x (Qc_of_Z b) - x / Qc_of_Z b) ≤
     Qcabs (x / Qc_of_Z b) * pow2 (-53) + pow2 (-1075))%Qc;
  num_div_exact : ∀ (x : Qc) (b : Z),
    float64 x → (1 ≤ b ≤ 2 ^ 53)%Z → float64 (x / Qc_of_Z b) →
    num_div x (Qc_of_Z b) = (x / Qc_of_Z b)%Qc;
  (** [numpy.log1p] on a finite argument above [-1] *)
  ln1p : Qc → Qc;
  (** [str] of a finite number *)
  str_of_num : Qc → string;
  (** The FutureWarning of scikit-learn 1.2 and 1.3 for the parameter
      [sparse] of [OneHotEncoder], raised when the encoder is fitted;
      releases before 1.2 give none. *)
  sparse_warning : option string;
  (** [filters_car_price]: the configuration, the filter, the rendering
      of its report *)
  config : Type;
  default_config : config;
  run_filters : DataFrame → config → result (DataFrame * string);
  (** [pandas.read_csv] and [DataFrame.to_csv] on file contents *)
  read_csv : string → result DataFrame;
  to_csv : DataFrame → string
}.

Section Pipeline.
Context `{!Platform}.

(** [k - v] for an integer scalar [k].  On a column of objects pandas
    computes the cells that are not missing one by one, so a missing
    cell stays missing and a string is a TypeError. *)
Definition rsub_scalar (k : Z) (v : value) : result value :=
  match v with
  | VNum q => Ok (VNum (num_sub (Qc_of_Z k) q))
  | VPosInf => Ok VNegInf
  | VNegInf => Ok VPosInf
  | VNull => Ok VNull
  | VStr _ => Raise TypeError
  end.

(** [v + k] *)
Definition add_scalar (k : Z) (v : value) : result value :=
  match v with
  | VNum q => Ok (VNum (num_add q (Qc_of_Z k)))
  | VPosInf => Ok VPosInf
  | VNegInf => Ok VNegInf
  | VNull => Ok VNull
  | VStr _ => Raise TypeError
  end.

(** True division [x / y], cell by cell.  A cell whose partner is
    missing is skipped and gives a missing value, whatever it holds
    (pandas falls back to the cells present on both sides when a column
    of objects is involved); a string with a partner is a TypeError; a
    zero divisor gives an infinity or NaN, never an exception. *)
Definition truediv (x y : value) : result value :=
  match x, y with
  | VNull, _ | _, VNull => Ok VNull
  | VStr _, _ | _, VStr _ => Raise TypeError
  | VNum a, VNum b =>
      if decide (b = 0%Qc) then
        if Qc_ltb 0 a then Ok VPosInf
        else if Qc_ltb a 0 then Ok VNegInf
        else Ok VNull
      else Ok (VNum (num_div a b))
  | VNum _, (VPosInf | VNegInf) => Ok (VNum 0%Qc)
  | VPosInf, VNum b => if Qc_ltb b 0 then Ok VNegInf else Ok VPosInf
  | VNegInf, VNum b => if Qc_ltb b 0 then Ok VPosInf else Ok VNegInf
  | (VPosInf | VNegInf), (VPosInf | VNegInf) => Ok VNull
  end.

(** [str(v)].  The missing value is rendered as NaN is; a [None] cell,
    which [str] renders differently, is not told apart from it. *)
Definition py_str (v : value) : string :=
  match v with
  | VNum q => str_of_num q
  | VPosInf => "inf"
  | VNegInf => "-inf"
  | VStr s => s
  | VNull => "nan"
  end.

(** [Series.astype(str)], per cell *)
Definition astype_str (v : value) : value := VStr (py_str v).

(** [numpy.log1p] per cell: [-1] gives minus infinity, anything below
    gives NaN.  A string is a TypeError, as on every column of objects;
    a column of objects that holds numbers only is not told apart from a
    numeric one. *)
Definition log1p_value (v : value) : result value :=
  match v with
  | VNum q =>
      if Qc_ltb (-1) q then Ok (VNum (ln1p q))
      else if decide (q = (-1)%Qc) then Ok VNegInf
      else Ok VNull
  | VPosInf => Ok VPosInf
  | VNegInf => Ok VNull
  | VNull => Ok VNull
  | VStr _ => Raise TypeError
  end.

Definition log1p_pole (v : value) : bool :=
  bool_decide (v = VNum (-1)%Qc).

Definition log1p_invalid (v : value) : bool :=
  match v with
  | VNum q => Qc_ltb q (-1)
  | VNegInf => true
  | _ => false
  end.

(** [numpy.log1p] on a series: the values, and a RuntimeWarning for
    arguments outside the domain. *)
Definition np_log1p (s : series) : M series :=
  r ← liftR (mapR log1p_value s);
  (if existsb log1p_pole s
   then warn "RuntimeWarning: divide by zero encountered in log1p"
   else mret tt);;
  (if existsb log1p_invalid s
   then warn "RuntimeWarning: invalid value encountered in log1p"
   else mret tt);;
  mret r.

(** ** Stage 3: feature engineering *)

Definition fe_cat_cols : list string :=
  ["fuel"; "transmission"; "brand"; "model"; "city"].

Definition feature_engineering (df : loc) : M loc :=
  df ← df_copy df;
  current_year ← datetime_now_year;
  (* Age *)
  year ← getitem df "year";
  age ← liftR (mapR (rsub_scalar current_year) year);
  setitem df "age" age;;
  age ← getitem df "age";
  neg ← liftR (mapR (lt_scalar 0) age);
  loc_setitem df neg "age" (VNum 0%Qc);;
  (* km_per_year *)
  odo ← getitem df "odometer_km";
  age ← getitem df "age";
  age1 ← liftR (mapR (add_scalar 1) age);
  km ← liftR (zipR truediv odo age1);
  setitem df "km_per_year" km;;
  (* log(price) *)
  price ← getitem df "price";
  plog ← np_log1p price;
  setitem df "price_log" plog;;
  (* Fill missing categorical with "Unknown" *)
  for_each fe_cat_cols (λ cat_col,
    present ← has_column df cat_col;
    if negb present then setitem_scalar df cat_col (VStr "Unknown")
    else
      s ← getitem df cat_col;
      setitem df cat_col (astype_str <$> (fillna (VStr "Unknown") <$> s)));;
  (* Drop outlier extreme values *)
  price ← getitem df "price";
  keep ← liftR (mapR (gt_scalar 0) price);
  df ← getitem_mask df keep;
  odo ← getitem df "odometer_km";
  keep ← liftR (mapR (lt_scalar 1000000) odo);
  df ← getitem_mask df keep;
  mret df.

(** ** Stage 4: one-hot encoding *)

(** The order [sorted] uses inside one column: numbers by value, strings
    by their code units. *)
Definition value_leb (x y : value) : bool :=
  match x, y with
  | VNum a, VNum b => bool_decide (a ≤ b)%Qc
  | VNegInf, (VNum _ | VPosInf | VNegInf) => true
  | VNum _, VPosInf => true
  | VPosInf, VPosInf => true
  | VStr s, VStr t => String.leb s t
  | _, _ => false
  end.

Definition value_le (x y : value) : Prop := value_leb x y.

Global Instance value_le_dec : RelDecision value_le.
Proof. intros x y. unfold value_le. apply _. Defined.

(** The categories of one column: the set of its values, the missing
    value set aside, the others sorted, the missing value last.  Strings
    and numbers in one column cannot be sorted. *)
Definition fit_column (vs : series) : result (list value) :=
  let uniques := remove_dups vs in
  let missing := filter (λ v, isna v = true) uniques in
  let present := filter (λ v, isna v = false) uniques in
  if existsb is_str present && existsb is_number present
  then Raise TypeError
  else Ok (merge_sort value_le present ++ missing).

Definition is_inf (v : value) : bool :=
  match v with VPosInf | VNegInf => true | _ => false end.

(** [OneHotEncoder.fit]: the input is validated first (at least one
    sample, no infinity; NaN is allowed), then each column is fitted. *)
Definition OneHotEncoder_fit (X : DataFrame) : result (list (list value)) :=
  if decide (len X = 0%nat) then Raise ValueError
  else if existsb (λ cs : string * series, existsb is_inf cs.2) (columns X)
  then Raise ValueError
  else mapR (λ cs : string * series, fit_column cs.2) (columns X).

Definition indicator (cat v : value) : value :=
  if decide (v = cat) then VNum 1%Qc else VNum 0%Qc.

(** A dense array, kept as its number of rows and its columns. *)
Definition ndarray : Type := nat * list series.

(** [OneHotEncoder.transform] with [handle_unknown="ignore"]: per input
    column one indicator column per category; a value that is no category
    gives zeros. *)
Definition OneHotEncoder_transform (cats : list (list value)) (X : DataFrame)
    : ndarray :=
  (len X,
   mjoin (zip_with (λ (cl : list value) (cs : string * series),
                      (λ cat, indicator cat <$> cs.2) <$> cl)
                   cats (columns X))).

(** [OneHotEncoder(handle_unknown="ignore", sparse=False)]: the
    constructor only stores its parameters; the encoder warns about
    [sparse] when it is fitted, before it looks at the data. *)
Definition OneHotEncoder_deprecation : M unit :=
  match sparse_warning with
  | Some msg => warn msg
  | None => mret tt
  end.

Definition OneHotEncoder_fit_transform (X : DataFrame)
    : result (list (list value) * ndarray) :=
  match OneHotEncoder_fit X with
  | Ok cats => Ok (cats, OneHotEncoder_transform cats X)
  | Raise e => Raise e
  end.

(** [enc.get_feature_names_out(input_features)] *)
Definition get_feature_names_out (cats : list (list value))
    (input_features : list string) : list string :=
  mjoin (zip_with (λ (cl : list value) (c : string),
                     (λ cat, c +:+ "_" +:+ py_str cat) <$> cl)
                  cats input_features).

Definition RangeIndex (n : nat) : list Z := seqZ 0 (Z.of_nat n).

(** [pd.DataFrame(array, columns=names)] *)
Definition pd_DataFrame (a : ndarray) (names : list string) : M loc :=
  if decide (length a.2 = length names)
  then alloc (mkDataFrame (RangeIndex a.1) (zip names a.2))
  else raise ValueError.

(** [df[cols]] for a list of labels: a new frame.  A missing label is
    a KeyError; it carries the first missing label here, where the
    message of pandas lists all of them. *)
Definition select_columns (d : DataFrame) (cols : list string)
    : result DataFrame :=
  match mapR (λ c, match column d c with
                   | Some s => Ok (c, s)
                   | None => Raise (KeyError c)
                   end) cols with
  | Ok cs => Ok (mkDataFrame (index d) cs)
  | Raise e => Raise e
  end.

Definition getitem_list (r : loc) (cols : list string) : M loc :=
  d ← deref r; X ← liftR (select_columns d cols); alloc X.

(** [df.drop(columns=cols)]: a new frame; every label must exist *)
Definition drop_columns (d : DataFrame) (cols : list string) : DataFrame :=
  mkDataFrame (index d)
              (filter (λ cs : string * series, cs.1 ∉ cols) (columns d)).

Definition df_drop (r : loc) (cols : list string) : M loc :=
  d ← deref r;
  match list_find (λ c, c ∉ column_names d) cols with
  | Some (_, c) => raise (KeyError c)
  | None => alloc (drop_columns d cols)
  end.

(** [df.reset_index(drop=True)]: a new frame, rows renumbered from 0 *)
Definition reset_index (r : loc) : M loc :=
  d ← deref r; alloc (mkDataFrame (RangeIndex (len d)) (columns d)).

(** The cell of a column at a row label, missing if the label is absent. *)
Fixpoint at_label (idx : list Z) (s : series) (l : Z) : value :=
  match idx, s with
  | l' :: idx', v :: s' => if decide (l = l') then v else at_label idx' s' l
  | _, _ => VNull
  end.

Definition reindex (old new : list Z) (cs : string * series)
    : string * series :=
  (cs.1, at_label old cs.2 <$> new).

(** [pd.concat([a, b], axis=1)]: columns side by side, rows matched by
    label.  Equal indexes are taken as they are; otherwise the rows are
    the union of the labels and cells without a partner are missing. *)
Definition concat_axis1 (a b : DataFrame) : result DataFrame :=
  if decide (index a = index b)
  then Ok (mkDataFrame (index a) (columns a ++ columns b))
  else if bool_decide (NoDup (index a)) && bool_decide (NoDup (index b))
  then
    let idx := (index a ++ filter (λ l, l ∉ index a) (index b)) in
    Ok (mkDataFrame idx ((reindex (index a) idx <$> columns a) ++
                         (reindex (index b) idx <$> columns b)))
  else Raise InvalidIndexError.

Definition pd_concat (ra rb : loc) : M loc :=
  a ← deref ra; b ← deref rb; d ← liftR (concat_axis1 a b); alloc d.

(** [repr] of a list of labels *)
Definition py_repr_list (l : list string) : string :=
  "[" +:+ String.concat ", " ((λ s, "'" +:+ s +:+ "'") <$> l) +:+ "]".

Definition default_cat_cols : list string := ["fuel"; "transmission"; "brand"].

Definition encode_categorical (df : loc) (cat_cols : option (list string))
    : M loc :=
  let cat_cols := default default_cat_cols cat_cols in
  print ("🔠 One-hot encoding categorical features: " +:+ py_repr_list cat_cols);;
  X ← getitem_list df cat_cols;
  Xd ← deref X;
  OneHotEncoder_deprecation;;
  '(enc, encoded) ← liftR (OneHotEncoder_fit_transform Xd);
  encoded_df ← pd_DataFrame encoded (get_feature_names_out enc cat_cols);
  df_num ← df_drop df cat_cols;
  left ← reset_index df_num;
  right ← reset_index encoded_df;
  df_final ← pd_concat left right;
  mret df_final.

(** ** Stage 1: loading *)

(** [doc.get(k, NaN)] *)
Fixpoint doc_get (k : string) (doc : document) : value :=
  match doc with
  | [] => VNull
  | (k', v) :: doc' => if decide (k = k') then v else doc_get k doc'
  end.

(** [list(collection.find({}, {"_id": 0}))] *)
Definition mongo_find (uri : string) : M (list document) := λ w,
  match mongo w !! uri with
  | Some docs =>
      (Ok (filter (λ kv : string * value, kv.1 ≠ "_id") <$> docs), w)
  | None => (Raise ServerSelectionTimeoutError, w)
  end.

(** [pd.DataFrame(docs)] for a list of records: the columns are the keys
    in order of first appearance, an absent key is a missing value *)
Definition pd_DataFrame_of_docs (docs : list document) : M loc :=
  let all_keys := mjoin ((λ doc : document, doc.*1) <$> docs) in
  let keys := reverse (remove_dups (reverse all_keys)) in
  alloc (mkDataFrame (RangeIndex (length docs))
                     ((λ k, (k, doc_get k <$> docs)) <$> keys)).

Definition os_path_exists (path : string) : M bool := λ w,
  (Ok (bool_decide (is_Some (fs w !! path))), w).

Definition pd_read_csv (path : string) : M loc := λ w,
  match fs w !! path with
  | Some (File content) =>
      match read_csv content with
      | Ok d => alloc d w
      | Raise e => (Raise e, w)
      end
  | Some Dir => (Raise IsADirectoryError, w)
  | None => (Raise (FileNotFoundError path), w)
  end.

Definition load_data (from_mongo : bool) (mongo_uri : string) : M loc :=
  if from_mongo then
    docs ← mongo_find mongo_uri;
    df ← pd_DataFrame_of_docs docs;
    n ← df_len df;
    print ("✅ Loaded " +:+ pretty n +:+ " records from MongoDB (web_data.cars_raw)");;
    mret df
  else
    found ← os_path_exists "data/extracted_cars.csv";
    (if negb found
     then raise (FileNotFoundError "data/extracted_cars.csv not found.")
     else mret tt);;
    df ← pd_read_csv "data/extracted_cars.csv";
    n ← df_len df;
    print ("✅ Loaded " +:+ pretty n +:+ " rows from extracted_cars.csv");;
    mret df.

Definition default_mongo_uri : string := "mongodb://localhost:27017/".

(** ** Stage 2: cleaning, by the collaborator *)

Definition clean_data (df : loc) : M loc :=
  d ← deref df;
  '(clean, report) ← liftR (run_filters d default_config);
  clean_df ← alloc clean;
  print ("🧹 Cleaning report: " +:+ report);;
  mret clean_df.

(** ** Stage 5: export *)

(** [os.makedirs(path, exist_ok=True)] *)
Definition os_makedirs (path : string) : M unit := λ w,
  match fs w !! path with
  | Some Dir => (Ok tt, w)
  | Some (File _) => (Raise FileExistsError, w)
  | None => (Ok tt, set_fs (<[path := Dir]> (fs w)) w)
  end.

(** [df.to_csv(path, index=False, encoding="utf-8-sig")] *)
Definition write_file (path content : string) : M unit := λ w,
  match fs w !! path with
  | Some Dir => (Raise IsADirectoryError, w)
  | _ => (Ok tt, set_fs (<[path := File content]> (fs w)) w)
  end.

Definition df_to_csv (r : loc) (path : string) : M unit :=
  d ← deref r; write_file path (to_csv d).

Definition csv_path : string := "data/train_ready.csv".

Definition export_train_data (df : loc) : M unit :=
  os_makedirs "data";;
  df_to_csv df csv_path;;
  n ← df_len df;
  print ("💾 Exported train-ready data → " +:+ csv_path +:+
         " (" +:+ pretty n +:+ " rows)").

(** ** The orchestrator *)

Definition main : M unit :=
  print "🚗 PREPROCESSING AutoTrader dataset";;
  print "============================================================";;
  df ← load_data true default_mongo_uri;
  clean_df ← clean_data df;
  fe_df ← feature_engineering clean_df;
  final_df ← encode_categorical fe_df None;
  export_train_data final_df;;
  print "✅ Done preprocessing!".

End Pipeline.

(** ** Vocabulary of the statements *)

(** All columns have one cell per row. *)
Definition rectangular (d : DataFrame) : Prop :=
  Forall (λ cs : string * series, length cs.2 = len d) (columns d).

Definition unique_labels (d : DataFrame) : Prop := NoDup (column_names d).

(** The truth value of a comparison that may have raised. *)
Definition holds (r : result bool) : bool :=
  match r with Ok b => b | Raise _ => false end.

(** [price > 0] and [odometer_km < 1_000_000] on a cell. *)
Definition price_ok (p : value) : bool := holds (gt_scalar 0 p).
Definition odometer_ok (o : value) : bool := holds (lt_scalar 1000000 o).

(** The rows that pass both filters, from the two tested columns. *)
Definition keep_mask (price odo : series) : list bool :=
  zip_with (λ p o, price_ok p && odometer_ok o) price odo.

(** The messages of a logarithm taken outside its domain. *)
Definition domain_warning (msg : string) : Prop :=
  msg = "RuntimeWarning: divide by zero encountered in log1p" ∨
  msg = "RuntimeWarning: invalid value encountered in log1p".

(** The repair of negative ages: what [df.loc[df["age"] < 0, "age"] = 0]
    leaves in a cell. *)
Definition clamp_age (a : value) : value :=
  if holds (lt_scalar 0 a) then VNum 0%Qc else a.

(** [v >= 0] on a cell; false for the missing value. *)
Definition nonneg (v : value) : bool :=
  match v with
  | VNum q => bool_decide (0 ≤ q)%Qc
  | VPosInf => true
  | _ => false
  end.

(** The column [c] exists and holds numbers or missing values only. *)
Definition numeric_column (d : DataFrame) (c : string) : Prop :=
  ∃ s, column d c = Some s ∧ Forall (λ v, is_str v = false) s.

(** The column [c] exists and holds strings only. *)
Definition string_column (d : DataFrame) (c : string) : Prop :=
  ∃ s, column d c = Some s ∧ Forall (λ v, is_str v = true) s.

(** The number of distinct values of a column. *)
Definition n_distinct (vs : series) : nat := length (remove_dups vs).

(** The frames of the heap [h] are still there as they were, below the
    frames allocated since, and the file system is still [f]. *)
Definition untouched (h : list DataFrame) (f : gmap string fsnode)
    (w : world) : Prop :=
  h `prefix_of` heap w ∧ fs w = f.

(** Outcome of a computation started in [w]: [Q] on a returned value,
    [E] on a raised exception, both with the world left behind. *)
Definition wp {A} (m : M A) (Q : A → world → Prop) (E : exn → world → Prop)
    (w : world) : Prop :=
  match m w with
  | (Ok a, w') => Q a w'
  | (Raise e, w') => E e w'
  end.

(** [m] leaves [h] and [f] untouched whether it returns or raises, and
    returns only values that satisfy [φ]. *)
Definition keeps {A} (h : list DataFrame) (f : gmap string fsnode)
    (m : M A) (φ : A → Prop) : Prop :=
  ∀ w, untouched h f w →
    wp m (λ a w', untouched h f w' ∧ φ a) (λ _ w', untouched h f w') w.

(** A reference to a frame allocated after [h]. *)
Definition fresh_for (h : list DataFrame) (r : loc) : Prop :=
  (length h ≤ r)%nat.

Section Effects.
Context `{!Platform}.

(** One turn of the loop over the categorical columns, on the frame. *)
Definition fill_categorical (d : DataFrame) (c : string) : DataFrame :=
  match column d c with
  | Some s => set_column d c (astype_str <$> (fillna (VStr "Unknown") <$> s))
  | None => set_column d c (replicate (len d) (VStr "Unknown"))
  end.

(** The frame before the two row filters, from the input frame and the
    three derived columns. *)
Definition engineered (d : DataFrame) (age km plog : series) : DataFrame :=
  foldl fill_categorical
        (set_column (set_column (set_column d "age" age) "km_per_year" km)
                    "price_log" plog)
        fe_cat_cols.

(** The indicator columns of one encoded column [c] with values [vs],
    one per category, labelled [c_category]. *)
Definition onehot_block (c : string) (cats : list value) (vs : series)
    : list (string * series) :=
  (λ cat, (c +:+ "_" +:+ py_str cat, indicator cat <$> vs)) <$> cats.

(** The warnings of a fit of the encoder. *)
Definition deprecation_msgs : list string :=
  match sparse_warning with
  | Some msg => [msg]
  | None => []
  end.

(** The world after the warnings of [numpy.log1p] on [s]. *)
Definition log1p_warn (s : series) (w : world) : world :=
  let w1 := if existsb log1p_pole s
            then add_warning
                   "RuntimeWarning: divide by zero encountered in log1p" w
            else w in
  if existsb log1p_invalid s
  then add_warning "RuntimeWarning: invalid value encountered in log1p" w1
  else w1.

End Effects.

(** ** A platform and inputs to run the program on *)

Definition num (z : Z) : value := VNum (Qc_of_Z z).

(** A stand-in platform: the arithmetic is that of the rationals,
    [log1p x] is approximated by [2x / (2 + x)], numbers are printed as
    fractions, the encoder warns as scikit-learn 1.2 does, the cleaner
    keeps every row, a CSV file holds its header only. *)
Definition sample_platform : Platform.
Proof.
  refine {|
    num_sub := Qcminus;
    num_add := Qcplus;
    num_div := Qcdiv;
    num_sub_int := _;
    num_add_int := _;
    num_add_1_nonzero := _;
    num_div_near := _;
    num_div_exact := _;
    ln1p := λ q, (Qc_of_Z 2 * q / (Qc_of_Z 2 + q))%Qc;
    str_of_num := λ q,
      if decide (Qden q = 1%positive) then pretty (Qnum q)
      else pretty (Qnum q) +:+ "/" +:+ pretty (Zpos (Qden q));
    sparse_warning :=
      Some "FutureWarning: `sparse` was renamed to `sparse_output`";
    config := unit;
    default_config := tt;
    run_filters := λ d _, Ok (d, "{}");
    read_csv := λ content,
      if decide (content = "") then Raise ParserError
      else Ok (mkDataFrame [] [(content, [])]);
    to_csv := λ d, String.concat "," (column_names d)
  |}.
  - intros a b _ _. symmetry. apply Z2Qc_inj_sub.
  - intros a b _ _. symmetry. apply Z2Qc_inj_add.
  - intros q Hq Hz. rewrite Z2Qc_inj_1 in Hz.
    assert (Hlt : (0 < q + 1)%Qc) by (by apply Qcplus_nonneg_pos).
    rewrite Hz in Hlt. by apply Qclt_not_eq in Hlt.
  - intros x b _ _.
    replace (x / Qc_of_Z b - x / Qc_of_Z b)%Qc with 0%Qc by ring.
    rewrite (Qcabs_pos 0) by done.
    apply (Qcplus_le_compat 0 _ 0); [|done].
    apply (Qcmult_le_compat_r 0 _ (pow2 (-53))); [apply Qcabs_nonneg | done].
  - done.
Defined.

(** Six listings: a regular one, one with price 0, one with
    1,000,000 km, one with price -5, one without a year, one of a future
    model year. *)
Definition sample_frame : DataFrame := mkDataFrame
  [0; 1; 2; 3; 4; 5]
  [("price", [num 10000; num 0; num 7000; num (-5); num 500; num 30000]);
   ("year", [num 2020; num 2019; num 2015; num 2010; VNull; num 2030]);
   ("odometer_km",
    [num 50000; num 100; num 1000000; num 200; num 10; num 12]);
   ("fuel",
    [VStr "petrol"; VStr "diesel"; VNull; VStr "petrol"; VNull; num 95])].

Definition sample_world : world :=
  mkWorld [sample_frame] ∅ ∅ 2024 [] [].

(** A table as feature engineering leaves it: rows 0, 4 and 5 are left,
    the categorical columns are strings. *)
Definition sample_engineered : DataFrame := mkDataFrame
  [0; 4; 5]
  [("price", [num 10000; num 500; num 30000]);
   ("fuel", [VStr "petrol"; VStr "Unknown"; VStr "diesel"]);
   ("transmission", [VStr "Unknown"; VStr "Unknown"; VStr "Unknown"]);
   ("brand", [VStr "kia"; VStr "kia"; VStr "bmw"]);
   ("model", [VStr "Unknown"; VStr "rio"; VStr "Unknown"]);
   ("city", [VStr "Unknown"; VStr "Unknown"; VStr "Unknown"])].

Definition sample_encode_world : world :=
  mkWorld [sample_engineered] ∅ ∅ 2024 [] [].

(** The same listings as stored documents. *)
Definition sample_docs : list document :=
  [[("_id", num 1); ("price", num 10000); ("year", num 2020);
    ("odometer_km", num 50000); ("fuel", VStr "petrol")];
   [("_id", num 2); ("price", num 0); ("year", num 2019);
    ("odometer_km", num 100); ("fuel", VStr "diesel")];
   [("_id", num 3); ("price", num 500); ("odometer_km", num 10);
    ("brand", VStr "kia")]].

Definition sample_store_world : world :=
  mkWorld [] ∅ {[ default_mongo_uri := sample_docs ]} 2024 [] [].

(** ** Vocabulary of the further properties *)

(** Every run of [m] ends in a world related by [R] to the one it
    started in, whether [m] returns or raises. *)
Definition respects {A} (R : relation world) (m : M A) : Prop :=
  ∀ w, R w (m w).2.

(** Nothing but the heap has changed. *)
Definition same_outside_heap : relation world := λ w w',
  fs w' = fs w ∧ mongo w' = mongo w ∧ clock_year w' = clock_year w ∧
  stdout w' = stdout w ∧ warnings w' = warnings w.

(** Nothing but the heap has changed, and warnings were at most added. *)
Definition only_warns : relation world := λ w w',
  fs w' = fs w ∧ mongo w' = mongo w ∧ clock_year w' = clock_year w ∧
  stdout w' = stdout w ∧ warnings w `prefix_of` warnings w'.

Definition has_str (s : series) : bool := existsb is_str s.

(** The column holds numbers only: no string, no missing value. *)
Definition numbers_only (s : series) : Prop :=
  Forall (λ v, is_number v = true) s.

(** The column holds a string and a number: it cannot be sorted. *)
Definition mixed (vs : series) : bool :=
  existsb is_str vs && existsb is_number vs.

(** Nothing but the heap has changed, and lines were at most printed. *)
Definition only_prints : relation world := λ w w',
  fs w' = fs w ∧ mongo w' = mongo w ∧ clock_year w' = clock_year w ∧
  stdout w `prefix_of` stdout w' ∧ warnings w' = warnings w.

(** Nothing but the heap has changed, and every warning added is one of
    [allowed]. *)
Definition warns_only (allowed : string → Prop) : relation world := λ w w',
  fs w' = fs w ∧ mongo w' = mongo w ∧ clock_year w' = clock_year w ∧
  stdout w' = stdout w ∧
  ∃ extra, warnings w' = warnings w ++ extra ∧ Forall allowed extra.

(** What a run of the pipeline may change outside the heap: it prints,
    it warns, and it writes below the two paths of the export. *)
Definition pipeline_footprint : relation world := λ w w',
  mongo w' = mongo w ∧ clock_year w' = clock_year w ∧
  stdout w `prefix_of` stdout w' ∧ warnings w `prefix_of` warnings w' ∧
  ∀ p, p ≠ "data" → p ≠ csv_path → fs w' !! p = fs w !! p.

(** The labels after [df[c] = ...]: [c] keeps its place or comes last. *)
Definition append_new (names : list string) (c : string) : list string :=
  if decide (c ∈ names) then names else names ++ [c].

(** The columns [feature_engineering] writes, in the order it writes
    them. *)
Definition fe_written_cols : list string :=
  ["age"; "km_per_year"; "price_log"] ++ fe_cat_cols.

(** ** Lists, masks and columns *)

Lemma mapR_Forall2 {A B} (f : A → result B) l k :
  mapR f l = Ok k → Forall2 (λ x y, f x = Ok y) l k.
Proof.
  revert k. induction l as [|x l IH]; intros k Hk; simpl in Hk.
  - inversion Hk. constructor.
  - destruct (f x) as [y|] eqn:Hx; [|discriminate].
    destruct (mapR f l) as [ys|] eqn:Hl; [|discriminate].
    inversion Hk; subst. constructor; auto.
Qed.

Lemma mfilter_fmap {A B} (f : A → B) m (l : list A) :
  mfilter m (f <$> l) = f <$> mfilter m l.
Proof.
  revert l. induction m as [|b m IH]; intros [|x l]; simpl; try done.
  rewrite IH. by destruct b.
Qed.

Lemma mfilter_length_eq {A B} m (l : list A) (k : list B) :
  length l = length k → length (mfilter m l) = length (mfilter m k).
Proof.
  revert l k. induction m as [|b m IH]; intros [|x l] [|y k] Hlen;
    simpl in *; try done.
  destruct b; simpl; auto.
Qed.

Lemma mfilter_Forall {A} (P : A → Prop) m (l : list A) :
  Forall P l → Forall P (mfilter m l).
Proof.
  intros Hl. revert m. induction Hl as [|x l Hx Hl IH]; intros [|b m];
    simpl; try constructor.
  destruct b; auto.
Qed.

Lemma mfilter_Forall2 {A B} (R : A → B → Prop) m l k :
  Forall2 R l k → Forall2 R (mfilter m l) (mfilter m k).
Proof.
  intros Hl. revert m. induction Hl as [|x y l k Hx Hl IH]; intros [|b m];
    simpl; try constructor.
  destruct b; auto.
Qed.

Lemma mfilter_Forall3 {A B C} (R : A → B → C → Prop) m l k r :
  Forall3 R l k r → Forall3 R (mfilter m l) (mfilter m k) (mfilter m r).
Proof.
  intros Hl. revert m. induction Hl as [|x y z l k r Hx Hl IH]; intros [|b m];
    simpl; try constructor.
  destruct b; [constructor|]; auto.
Qed.

Lemma mapR_mask (f : value → result bool) (s : series) m :
  mapR f s = Ok m → m = (λ v, holds (f v)) <$> s.
Proof.
  revert m.
  induction s as [|v s IH]; intros m Hm; simpl in Hm.
  - by inversion Hm.
  - destruct (f v) as [b|] eqn:Hv; [|discriminate].
    destruct (mapR f s) as [bs|] eqn:Hs; [|discriminate].
    inversion Hm; subst. simpl. rewrite Hv. simpl. f_equal. auto.
Qed.

Lemma mfilter_nil_r {A} m : mfilter m (@nil A) = [].
Proof. by destruct m. Qed.

(** Two selections in a row are one selection by the conjunction. *)
Lemma mfilter_fuse {A} (price odo : series) : ∀ l : list A,
  length price = length odo →
  mfilter (odometer_ok <$> mfilter (price_ok <$> price) odo)
          (mfilter (price_ok <$> price) l) =
  mfilter (keep_mask price odo) l.
Proof.
  revert odo. induction price as [|p price IH]; intros [|o odo] l Hlen;
    simpl in *; try done.
  destruct l as [|x l].
  { destruct (price_ok p); simpl; by rewrite ?mfilter_nil_r. }
  specialize (IH odo l ltac:(lia)).
  destruct (price_ok p); simpl; [|done].
  destruct (odometer_ok o); [f_equal|]; exact IH.
Qed.

Lemma rsub_scalar_not_str `{!Platform} k y a0 :
  rsub_scalar k y = Ok a0 → is_str a0 = false.
Proof. destruct y; simpl; intros [= <-]; done. Qed.

Lemma mask_assign_clamp (age0 : series) neg :
  mapR (lt_scalar 0) age0 = Ok neg →
  mask_assign neg (VNum 0%Qc) age0 = clamp_age <$> age0.
Proof.
  revert neg. induction age0 as [|a s IH]; intros neg Hneg; simpl in Hneg.
  - by inversion Hneg.
  - destruct (lt_scalar 0 a) as [b|] eqn:Ha; [|discriminate].
    destruct (mapR (lt_scalar 0) s) as [bs|] eqn:Hs; [|discriminate].
    inversion Hneg; subst. simpl. rewrite (IH bs) by done.
    unfold clamp_age at 2. by rewrite Ha.
Qed.

Lemma assoc_set_eq c s cols : assoc c (assoc_set c s cols) = Some s.
Proof.
  induction cols as [|[c' s'] cols IH]; simpl.
  - by rewrite decide_True.
  - destruct (decide (c = c')) as [->|Hne]; simpl.
    + by rewrite decide_True.
    + by rewrite decide_False.
Qed.

Lemma assoc_set_ne c c' s cols :
  c ≠ c' → assoc c' (assoc_set c s cols) = assoc c' cols.
Proof.
  intros Hne. induction cols as [|[c'' s''] cols IH]; simpl.
  - by rewrite decide_False.
  - destruct (decide (c = c'')) as [->|Hne']; simpl.
    + by rewrite !decide_False.
    + by rewrite IH.
Qed.

Lemma assoc_None c cols : assoc c cols = None ↔ c ∉ cols.*1.
Proof.
  induction cols as [|[c' s'] cols IH]; simpl.
  - split; [intros _; apply not_elem_of_nil | done].
  - rewrite not_elem_of_cons. destruct (decide (c = c')) as [->|Hne].
    + split; [done | intros [? _]; done].
    + rewrite IH. tauto.
Qed.

Lemma assoc_Some_elem c cols s : assoc c cols = Some s → (c, s) ∈ cols.
Proof.
  induction cols as [|[c' s'] cols IH]; simpl; [done|].
  destruct (decide (c = c')) as [->|Hne].
  - intros [= ->]. apply list_elem_of_here.
  - intros Hs. apply list_elem_of_further. auto.
Qed.

Lemma assoc_fmap c (f : series → series) cols :
  assoc c (prod_map id f <$> cols) = f <$> assoc c cols.
Proof.
  induction cols as [|[c' s'] cols IH]; simpl; [done|].
  by destruct (decide (c = c')).
Qed.

Lemma column_set_column_eq d c s : column (set_column d c s) c = Some s.
Proof. apply assoc_set_eq. Qed.

Lemma column_set_column_ne d c c' s :
  c ≠ c' → column (set_column d c s) c' = column d c'.
Proof. apply assoc_set_ne. Qed.

Lemma assoc_set_twice c s s' cols :
  assoc_set c s' (assoc_set c s cols) = assoc_set c s' cols.
Proof.
  induction cols as [|[c' s''] cols IH]; simpl.
  - by rewrite decide_True.
  - destruct (decide (c = c')) as [->|Hne]; simpl.
    + by rewrite decide_True.
    + rewrite decide_False by done. by rewrite IH.
Qed.

Lemma set_column_twice d c s s' :
  set_column (set_column d c s) c s' = set_column d c s'.
Proof. unfold set_column. simpl. by rewrite assoc_set_twice. Qed.

Lemma column_filter_rows m d c :
  column (filter_rows m d) c = mfilter m <$> column d c.
Proof. apply assoc_fmap. Qed.

Lemma column_length d c s :
  rectangular d → column d c = Some s → length s = len d.
Proof.
  intros Hrect Hc. apply assoc_Some_elem in Hc.
  unfold rectangular in Hrect. rewrite Forall_forall in Hrect.
  apply (Hrect (c, s) Hc).
Qed.

(** ** The monad *)

Lemma bind_run {A B} (m : M A) (k : A → M B) w :
  (m ≫= k) w = match m w with
               | (Ok a, w') => k a w'
               | (Raise e, w') => (Raise e, w')
               end.
Proof. reflexivity. Qed.

(** ** Frame rules: what a computation leaves untouched *)

Create HintDb keeps.

Section Frame.
Context `{!Platform}.
Context (h : list DataFrame) (f : gmap string fsnode).

Lemma keeps_ret {A} (a : A) (φ : A → Prop) : φ a → keeps h f (mret a) φ.
Proof. intros Ha w Hw. by split. Qed.

Lemma keeps_raise {A} e (φ : A → Prop) : keeps h f (raise e) φ.
Proof. intros w Hw. done. Qed.

Lemma keeps_liftR {A} (r : result A) : keeps h f (liftR r) (λ _, True).
Proof. intros w Hw. unfold wp, liftR. by destruct r. Qed.

Lemma keeps_bind {A B} (m : M A) (k : A → M B) φ ψ :
  keeps h f m φ → (∀ a, φ a → keeps h f (k a) ψ) → keeps h f (m ≫= k) ψ.
Proof.
  intros Hm Hk w Hw. unfold wp. rewrite bind_run.
  specialize (Hm w Hw). unfold wp in Hm.
  destruct (m w) as [[a|e] w1]; [|done].
  destruct Hm as [Hw1 Ha]. apply (Hk a Ha w1 Hw1).
Qed.

Lemma keeps_print line : keeps h f (print line) (λ _, True).
Proof. intros w Hw. done. Qed.

Lemma keeps_warn msg : keeps h f (warn msg) (λ _, True).
Proof. intros w Hw. done. Qed.

Lemma keeps_now : keeps h f datetime_now_year (λ _, True).
Proof. intros w Hw. done. Qed.

Lemma keeps_deref r : keeps h f (deref r) (λ _, True).
Proof. intros w Hw. unfold wp, deref. by destruct (heap w !! r). Qed.

Lemma keeps_alloc d : keeps h f (alloc d) (fresh_for h).
Proof.
  intros w [Hpre Hfs]. unfold wp, alloc, untouched, fresh_for. simpl.
  split_and!; [by apply prefix_app_r | done | by apply prefix_length].
Qed.

Lemma keeps_store r d : fresh_for h r → keeps h f (store r d) (λ _, True).
Proof.
  intros Hr w [[t Ht] Hfs]. unfold wp, store, untouched. simpl.
  split_and!; [|done..]. rewrite Ht.
  rewrite insert_app_r_alt by done. by apply prefix_app_r.
Qed.

Local Hint Resolve keeps_raise keeps_liftR keeps_print keeps_warn keeps_now
  keeps_deref keeps_alloc keeps_store : keeps.

Local Ltac kret := apply keeps_ret; done.
Local Ltac kstep :=
  eapply keeps_bind; [ solve [eauto with keeps] | intros ? ? ].
Local Ltac kauto :=
  repeat first [ kret | solve [eauto with keeps] | kstep ].

Lemma keeps_df_copy r : keeps h f (df_copy r) (fresh_for h).
Proof. unfold df_copy. kauto. Qed.

Lemma keeps_getitem r c : keeps h f (getitem r c) (λ _, True).
Proof.
  unfold getitem. eapply keeps_bind; [apply keeps_deref | intros d _].
  destruct (column d c); kauto.
Qed.

Lemma keeps_setitem r c s :
  fresh_for h r → keeps h f (setitem r c s) (λ _, True).
Proof. intros Hr. unfold setitem. kauto. Qed.

Lemma keeps_setitem_scalar r c v :
  fresh_for h r → keeps h f (setitem_scalar r c v) (λ _, True).
Proof. intros Hr. unfold setitem_scalar. kauto. Qed.

Lemma keeps_loc_setitem r mask c v :
  fresh_for h r → keeps h f (loc_setitem r mask c v) (λ _, True).
Proof.
  intros Hr. unfold loc_setitem.
  eapply keeps_bind; [apply keeps_deref | intros d _].
  destruct (column d c); kauto.
Qed.

Lemma keeps_has_column r c : keeps h f (has_column r c) (λ _, True).
Proof. unfold has_column. kauto. Qed.

Lemma keeps_getitem_mask r mask : keeps h f (getitem_mask r mask) (fresh_for h).
Proof. unfold getitem_mask. kauto. Qed.

Lemma keeps_df_len r : keeps h f (df_len r) (λ _, True).
Proof. unfold df_len. kauto. Qed.

Lemma keeps_np_log1p s : keeps h f (np_log1p s) (λ _, True).
Proof.
  unfold np_log1p. kstep.
  eapply keeps_bind; [destruct (existsb log1p_pole s); kauto | intros ? _].
  eapply keeps_bind; [destruct (existsb log1p_invalid s); kauto | intros ? _].
  kret.
Qed.

Lemma keeps_for_each {A} (l : list A) (body : A → M unit) :
  (∀ x, keeps h f (body x) (λ _, True)) →
  keeps h f (for_each l body) (λ _, True).
Proof.
  intros Hbody. induction l as [|x l IH]; simpl; [kret|].
  eapply keeps_bind; [apply Hbody | intros ? _; apply IH].
Qed.

Local Hint Resolve keeps_df_copy keeps_getitem keeps_setitem
  keeps_setitem_scalar keeps_loc_setitem keeps_has_column keeps_getitem_mask
  keeps_df_len keeps_np_log1p : keeps.

Lemma keeps_feature_engineering r :
  keeps h f (feature_engineering r) (fresh_for h).
Proof.
  unfold feature_engineering. do 16 kstep.
  eapply keeps_bind.
  { apply keeps_for_each. intros c.
    eapply keeps_bind; [apply keeps_has_column | intros present _].
    destruct present; simpl; kauto. }
  intros ? _. kauto.
Qed.

Lemma keeps_pd_DataFrame a names :
  keeps h f (pd_DataFrame a names) (fresh_for h).
Proof. unfold pd_DataFrame. case_decide; kauto. Qed.

Lemma keeps_getitem_list r cols :
  keeps h f (getitem_list r cols) (fresh_for h).
Proof. unfold getitem_list. kauto. Qed.

Lemma keeps_df_drop r cols : keeps h f (df_drop r cols) (fresh_for h).
Proof.
  unfold df_drop. kstep.
  destruct (list_find _ cols) as [[? ?]|]; kauto.
Qed.

Lemma keeps_reset_index r : keeps h f (reset_index r) (fresh_for h).
Proof. unfold reset_index. kauto. Qed.

Lemma keeps_pd_concat ra rb : keeps h f (pd_concat ra rb) (fresh_for h).
Proof. unfold pd_concat. kauto. Qed.

Local Hint Resolve keeps_pd_DataFrame keeps_getitem_list keeps_df_drop
  keeps_reset_index keeps_pd_concat : keeps.

Lemma keeps_OneHotEncoder_deprecation :
  keeps h f OneHotEncoder_deprecation (λ _, True).
Proof.
  unfold OneHotEncoder_deprecation.
  destruct sparse_warning; [apply keeps_warn | by apply keeps_ret].
Qed.

Lemma keeps_encode_categorical r cat_cols :
  keeps h f (encode_categorical r cat_cols) (fresh_for h).
Proof.
  unfold encode_categorical. do 3 kstep.
  eapply keeps_bind; [apply keeps_OneHotEncoder_deprecation | intros _ _].
  eapply keeps_bind; [apply keeps_liftR | intros [enc encoded] _]. kauto.
Qed.

Lemma keeps_mongo_find uri : keeps h f (mongo_find uri) (λ _, True).
Proof. intros w Hw. unfold wp, mongo_find. by destruct (mongo w !! uri). Qed.

Lemma keeps_pd_DataFrame_of_docs docs :
  keeps h f (pd_DataFrame_of_docs docs) (fresh_for h).
Proof. unfold pd_DataFrame_of_docs. kauto. Qed.

Lemma keeps_os_path_exists path : keeps h f (os_path_exists path) (λ _, True).
Proof. intros w Hw. done. Qed.

Lemma keeps_pd_read_csv path : keeps h f (pd_read_csv path) (fresh_for h).
Proof.
  intros w Hw. unfold wp, pd_read_csv.
  destruct (fs w !! path) as [[|content]|]; [done| |done].
  destruct (read_csv content) as [d|e]; [|done].
  apply (keeps_alloc d w Hw).
Qed.

Local Hint Resolve keeps_mongo_find keeps_pd_DataFrame_of_docs
  keeps_os_path_exists keeps_pd_read_csv : keeps.

Lemma keeps_load_data from_mongo uri :
  keeps h f (load_data from_mongo uri) (λ _, True).
Proof.
  unfold load_data. destruct from_mongo.
  - kauto.
  - eapply keeps_bind; [apply keeps_os_path_exists | intros found _].
    eapply keeps_bind; [destruct (negb found); kauto | intros ? _]. kauto.
Qed.

Lemma keeps_clean_data r : keeps h f (clean_data r) (λ _, True).
Proof.
  unfold clean_data. kstep.
  eapply keeps_bind; [apply keeps_liftR | intros [clean report] _]. kauto.
Qed.

End Frame.

(** ** Running the primitives on the frame under work

    While a stage works on the frame it allocated last, the heap is
    [h ++ [d]] and the frame is referred to by [length h]. *)

Section Focus.
Context `{!Platform}.

Lemma set_heap_id w : set_heap (heap w) w = w.
Proof. by destruct w. Qed.

Lemma deref_run r w d : heap w !! r = Some d → deref r w = (Ok d, w).
Proof. intros Hr. unfold deref. by rewrite Hr. Qed.

Lemma deref_focus h d w :
  heap w = h ++ [d] → deref (length h) w = (Ok d, w).
Proof. intros Hw. apply deref_run. rewrite Hw. apply list_lookup_middle. done. Qed.

Lemma store_focus h d d' w :
  heap w = h ++ [d] →
  store (length h) d' w = (Ok tt, set_heap (h ++ [d']) w).
Proof.
  intros Hw. unfold store. rewrite Hw.
  rewrite insert_app_r_alt by done. by rewrite Nat.sub_diag.
Qed.

Lemma df_copy_run r w d :
  heap w !! r = Some d →
  df_copy r w = (Ok (length (heap w)), set_heap (heap w ++ [d]) w).
Proof. intros Hr. unfold df_copy. by rewrite bind_run, (deref_run r w d). Qed.

Lemma getitem_focus h d w c :
  heap w = h ++ [d] →
  getitem (length h) c w =
    (match column d c with Some s => Ok s | None => Raise (KeyError c) end, w).
Proof.
  intros Hw. unfold getitem. rewrite bind_run, (deref_focus h d w) by done.
  by destruct (column d c).
Qed.

Lemma setitem_focus h d w c s :
  heap w = h ++ [d] →
  setitem (length h) c s w = (Ok tt, set_heap (h ++ [set_column d c s]) w).
Proof.
  intros Hw. unfold setitem. rewrite bind_run, (deref_focus h d w) by done.
  by apply (store_focus h d).
Qed.

Lemma setitem_scalar_focus h d w c v :
  heap w = h ++ [d] →
  setitem_scalar (length h) c v w =
    (Ok tt, set_heap (h ++ [set_column d c (replicate (len d) v)]) w).
Proof.
  intros Hw. unfold setitem_scalar.
  rewrite bind_run, (deref_focus h d w) by done. by apply (store_focus h d).
Qed.

Lemma loc_setitem_focus h d w mask c v s :
  heap w = h ++ [d] → column d c = Some s →
  loc_setitem (length h) mask c v w =
    (Ok tt, set_heap (h ++ [set_column d c (mask_assign mask v s)]) w).
Proof.
  intros Hw Hc. unfold loc_setitem.
  rewrite bind_run, (deref_focus h d w), Hc by done.
  by apply (store_focus h d).
Qed.

Lemma has_column_focus h d w c :
  heap w = h ++ [d] →
  has_column (length h) c w = (Ok (bool_decide (c ∈ column_names d)), w).
Proof.
  intros Hw. unfold has_column. by rewrite bind_run, (deref_focus h d w).
Qed.

Lemma getitem_mask_focus h d w mask :
  heap w = h ++ [d] →
  getitem_mask (length h) mask w =
    (Ok (length (h ++ [d])),
     set_heap ((h ++ [d]) ++ [filter_rows mask d]) w).
Proof.
  intros Hw. unfold getitem_mask.
  rewrite bind_run, (deref_focus h d w) by done. unfold alloc. by rewrite Hw.
Qed.

Lemma np_log1p_run s w :
  np_log1p s w = match mapR log1p_value s with
                 | Ok r => (Ok r, log1p_warn s w)
                 | Raise e => (Raise e, w)
                 end.
Proof.
  unfold np_log1p, log1p_warn. rewrite bind_run. unfold liftR.
  destruct (mapR log1p_value s) as [r|e]; [|done].
  rewrite bind_run.
  destruct (existsb log1p_pole s); simpl;
    rewrite bind_run; by destruct (existsb log1p_invalid s).
Qed.

Lemma heap_log1p_warn s w : heap (log1p_warn s w) = heap w.
Proof.
  unfold log1p_warn.
  by destruct (existsb log1p_pole s), (existsb log1p_invalid s).
Qed.

Lemma fill_categorical_focus h d w c :
  heap w = h ++ [d] →
  (has_column (length h) c ≫= λ present : bool,
     if negb present then setitem_scalar (length h) c (VStr "Unknown")
     else getitem (length h) c ≫= λ s,
          setitem (length h) c
                  (astype_str <$> (fillna (VStr "Unknown") <$> s))) w =
  (Ok tt, set_heap (h ++ [fill_categorical d c]) w).
Proof.
  intros Hw. rewrite bind_run, (has_column_focus h d w) by done.
  unfold fill_categorical, column_names.
  destruct (column d c) as [s|] eqn:Hc.
  - rewrite bool_decide_true; simpl.
    + rewrite bind_run, (getitem_focus h d w), Hc by done.
      by apply setitem_focus.
    + apply dec_stable. intros Hn. apply assoc_None in Hn.
      unfold column in Hc. congruence.
  - rewrite bool_decide_false; simpl.
    + by apply setitem_scalar_focus.
    + by apply assoc_None.
Qed.

Lemma for_each_fill_focus h cols : ∀ d w,
  heap w = h ++ [d] →
  for_each cols (λ c,
    has_column (length h) c ≫= λ present : bool,
      if negb present then setitem_scalar (length h) c (VStr "Unknown")
      else getitem (length h) c ≫= λ s,
           setitem (length h) c
                   (astype_str <$> (fillna (VStr "Unknown") <$> s))) w =
  (Ok tt, set_heap (h ++ [foldl fill_categorical d cols]) w).
Proof.
  induction cols as [|c cols IH]; intros d w Hw; simpl.
  - rewrite <- Hw. by rewrite set_heap_id.
  - rewrite bind_run, (fill_categorical_focus h d w) by done.
    by rewrite (IH (fill_categorical d c)).
Qed.

End Focus.

(** ** Feature engineering, when it returns *)

Section FeatureEngineering.
Context `{!Platform}.

Lemma column_fill_categorical_ne d c c' :
  c ≠ c' → column (fill_categorical d c) c' = column d c'.
Proof.
  intros Hne. unfold fill_categorical.
  destruct (column d c); by apply column_set_column_ne.
Qed.

Lemma column_foldl_fill_ne cols : ∀ d c',
  c' ∉ cols → column (foldl fill_categorical d cols) c' = column d c'.
Proof.
  induction cols as [|c cols IH]; intros d c' Hc'; simpl; [done|].
  apply not_elem_of_cons in Hc' as [Hne Hc'].
  rewrite IH by done. by apply column_fill_categorical_ne.
Qed.

Lemma feature_engineering_Ok r w r' w' :
  feature_engineering r w = (Ok r', w') →
  ∃ d year age0 odo age1 km price plog keep1 keep2,
    heap w !! r = Some d ∧
    column d "year" = Some year ∧
    mapR (rsub_scalar (clock_year w)) year = Ok age0 ∧
    column d "odometer_km" = Some odo ∧
    mapR (add_scalar 1) (clamp_age <$> age0) = Ok age1 ∧
    zipR truediv odo age1 = Ok km ∧
    column d "price" = Some price ∧
    mapR log1p_value price = Ok plog ∧
    mapR (gt_scalar 0) price = Ok keep1 ∧
    mapR (lt_scalar 1000000) (mfilter keep1 odo) = Ok keep2 ∧
    let e := engineered d (clamp_age <$> age0) km plog in
    r' = S (S (length (heap w))) ∧
    heap w' = heap w ++ [e; filter_rows keep1 e;
                         filter_rows keep2 (filter_rows keep1 e)] ∧
    warnings w' = warnings (log1p_warn price w).
Proof.
  intros H0. unfold feature_engineering in H0.
  destruct (heap w !! r) as [d|] eqn:Hd.
  2: { unfold df_copy in H0. rewrite !bind_run in H0. unfold deref in H0.
       rewrite Hd in H0. discriminate. }
  rewrite bind_run, (df_copy_run r w d Hd) in H0.
  set (h := heap w) in *.
  rewrite bind_run in H0. unfold datetime_now_year at 1 in H0.
  rewrite bind_run, (getitem_focus h d) in H0 by done.
  destruct (column d "year") as [year|] eqn:Hyear; [|discriminate].
  rewrite bind_run in H0. unfold liftR at 1 in H0.
  cbn [clock_year set_heap] in H0.
  destruct (mapR (rsub_scalar (clock_year w)) year) as [age0|] eqn:Hage0;
    [|discriminate].
  rewrite bind_run in H0. erewrite setitem_focus in H0 by reflexivity.
  rewrite bind_run in H0. erewrite getitem_focus in H0 by reflexivity.
  rewrite column_set_column_eq in H0.
  rewrite bind_run in H0. unfold liftR at 1 in H0.
  destruct (mapR (lt_scalar 0) age0) as [neg|] eqn:Hneg; [|discriminate].
  rewrite bind_run in H0.
  erewrite loc_setitem_focus in H0
    by (reflexivity || apply column_set_column_eq).
  rewrite (mask_assign_clamp age0 neg Hneg) in H0.
  rewrite bind_run in H0. erewrite getitem_focus in H0 by reflexivity.
  rewrite set_column_twice in H0. rewrite column_set_column_ne in H0 by done.
  destruct (column d "odometer_km") as [odo|] eqn:Hodo; [|discriminate].
  rewrite bind_run in H0. erewrite getitem_focus in H0 by reflexivity.
  rewrite column_set_column_eq in H0.
  rewrite bind_run in H0. unfold liftR at 1 in H0.
  destruct (mapR (add_scalar 1) (clamp_age <$> age0)) as [age1|] eqn:Hage1;
    [|discriminate].
  rewrite bind_run in H0. unfold liftR at 1 in H0.
  destruct (zipR truediv odo age1) as [km|] eqn:Hkm; [|discriminate].
  rewrite bind_run in H0. erewrite setitem_focus in H0 by reflexivity.
  rewrite bind_run in H0. erewrite getitem_focus in H0 by reflexivity.
  rewrite !column_set_column_ne in H0 by done.
  destruct (column d "price") as [price|] eqn:Hprice; [|discriminate].
  rewrite bind_run, np_log1p_run in H0.
  destruct (mapR log1p_value price) as [plog|] eqn:Hplog; [|discriminate].
  rewrite bind_run in H0.
  erewrite setitem_focus in H0 by (rewrite heap_log1p_warn; reflexivity).
  rewrite bind_run in H0.
  erewrite for_each_fill_focus in H0 by reflexivity.
  fold (engineered d (clamp_age <$> age0) km plog) in H0.
  set (e := engineered d (clamp_age <$> age0) km plog) in *.
  assert (He : ∀ c, c ∉ fe_cat_cols → c ≠ "age" → c ≠ "km_per_year" →
                    c ≠ "price_log" → column e c = column d c).
  { intros c Hc ? ? ?. unfold e, engineered.
    rewrite column_foldl_fill_ne by done.
    by rewrite !column_set_column_ne. }
  assert (Hcat : ∀ c, c ∈ ["price"; "odometer_km"] → c ∉ fe_cat_cols).
  { intros c Hc. set_unfold in Hc.
    destruct_or!; try done; subst c; apply (bool_decide_unpack _);
      vm_compute; exact I. }
  rewrite bind_run in H0. erewrite getitem_focus in H0 by reflexivity.
  rewrite He, Hprice in H0 by (done || apply Hcat; set_unfold; tauto).
  rewrite bind_run in H0. unfold liftR at 1 in H0.
  destruct (mapR (gt_scalar 0) price) as [keep1|] eqn:Hkeep1; [|discriminate].
  rewrite bind_run in H0. erewrite getitem_mask_focus in H0 by reflexivity.
  rewrite bind_run in H0. erewrite getitem_focus in H0 by reflexivity.
  rewrite column_filter_rows, He, Hodo in H0
    by (done || apply Hcat; set_unfold; tauto).
  simpl fmap in H0. cbv beta iota in H0.
  rewrite bind_run in H0. unfold liftR at 1 in H0.
  destruct (mapR (lt_scalar 1000000) (mfilter keep1 odo)) as [keep2|] eqn:Hkeep2;
    [|discriminate].
  rewrite bind_run in H0. erewrite getitem_mask_focus in H0 by reflexivity.
  unfold mret, M_ret in H0.
  cbn [set_heap heap fs mongo clock_year stdout warnings] in H0.
  inversion H0; subst r' w'; clear H0.
  exists d, year, age0, odo, age1, km, price, plog, keep1, keep2.
  repeat (split; [done|]). cbv zeta. fold e. split_and!.
  - rewrite !length_app. simpl. lia.
  - cbn [heap]. by rewrite <- !app_assoc.
  - cbn [warnings]. unfold log1p_warn.
    by destruct (existsb log1p_pole price), (existsb log1p_invalid price).
Qed.

Lemma filter_rows_fuse price odo e :
  length price = length odo →
  filter_rows (odometer_ok <$> mfilter (price_ok <$> price) odo)
              (filter_rows (price_ok <$> price) e) =
  filter_rows (keep_mask price odo) e.
Proof.
  intros Hlen. unfold filter_rows. simpl. f_equal.
  - by apply mfilter_fuse.
  - rewrite <- list_fmap_compose. apply list_fmap_ext.
    intros i [c s] _. simpl. unfold prod_map. simpl. f_equal.
    by apply mfilter_fuse.
Qed.

Lemma index_fill_categorical d c : index (fill_categorical d c) = index d.
Proof. unfold fill_categorical. by destruct (column d c). Qed.

Lemma index_foldl_fill cols : ∀ d,
  index (foldl fill_categorical d cols) = index d.
Proof.
  induction cols as [|c cols IH]; intros d; simpl; [done|].
  by rewrite IH, index_fill_categorical.
Qed.

Lemma index_engineered d age km plog :
  index (engineered d age km plog) = index d.
Proof. unfold engineered. by rewrite index_foldl_fill. Qed.

Lemma not_categorical c :
  c ∈ ["price"; "odometer_km"; "year"; "age"; "km_per_year"; "price_log"] →
  c ∉ fe_cat_cols.
Proof.
  intros Hc. set_unfold in Hc.
  destruct_or!; try done; subst c;
    apply (bool_decide_unpack _); vm_compute; exact I.
Qed.

Lemma column_engineered_input d age km plog c :
  c ∈ ["price"; "odometer_km"; "year"] →
  column (engineered d age km plog) c = column d c.
Proof.
  intros Hc. unfold engineered.
  rewrite column_foldl_fill_ne.
  - set_unfold in Hc.
    destruct_or!; try done; subst c; by rewrite !column_set_column_ne.
  - apply not_categorical. set_unfold in Hc. set_unfold. tauto.
Qed.

Lemma column_engineered_age d age km plog :
  column (engineered d age km plog) "age" = Some age.
Proof.
  unfold engineered.
  rewrite column_foldl_fill_ne
    by (apply (bool_decide_unpack _); vm_compute; exact I).
  rewrite !column_set_column_ne by done. apply column_set_column_eq.
Qed.

Lemma column_engineered_km d age km plog :
  column (engineered d age km plog) "km_per_year" = Some km.
Proof.
  unfold engineered.
  rewrite column_foldl_fill_ne
    by (apply (bool_decide_unpack _); vm_compute; exact I).
  rewrite !column_set_column_ne by done. apply column_set_column_eq.
Qed.

Lemma column_engineered_plog d age km plog :
  column (engineered d age km plog) "price_log" = Some plog.
Proof.
  unfold engineered.
  rewrite column_foldl_fill_ne
    by (apply (bool_decide_unpack _); vm_compute; exact I).
  apply column_set_column_eq.
Qed.

(** The returned frame: the engineered frame, restricted to the rows
    within both bounds. *)
Lemma feature_engineering_out r w r' w' d :
  heap w !! r = Some d → rectangular d →
  feature_engineering r w = (Ok r', w') →
  ∃ year odo price age0 age1 km plog,
    column d "year" = Some year ∧
    column d "odometer_km" = Some odo ∧
    column d "price" = Some price ∧
    length year = len d ∧ length odo = len d ∧ length price = len d ∧
    mapR (rsub_scalar (clock_year w)) year = Ok age0 ∧
    mapR (add_scalar 1) (clamp_age <$> age0) = Ok age1 ∧
    zipR truediv odo age1 = Ok km ∧
    mapR log1p_value price = Ok plog ∧
    heap w' !! r' =
      Some (filter_rows (keep_mask price odo)
                        (engineered d (clamp_age <$> age0) km plog)) ∧
    warnings w' = warnings (log1p_warn price w).
Proof.
  intros Hd Hrect Hrun.
  apply feature_engineering_Ok in Hrun
    as (d0 & year & age0 & odo & age1 & km & price & plog & keep1 & keep2 &
        Hd0 & Hyear & Hage0 & Hodo & Hage1 & Hkm & Hprice & Hplog &
        Hkeep1 & Hkeep2 & Hr' & Hheap & Hwarn).
  assert (d0 = d) as -> by congruence.
  exists year, odo, price, age0, age1, km, plog.
  pose proof (column_length _ _ _ Hrect Hyear).
  pose proof (column_length _ _ _ Hrect Hodo).
  pose proof (column_length _ _ _ Hrect Hprice).
  split_and!; try done.
  rewrite Hheap, Hr'.
  rewrite lookup_app_r by lia.
  replace (S (S (length (heap w))) - length (heap w))%nat with 2%nat by lia.
  simpl. f_equal.
  apply mapR_mask in Hkeep1, Hkeep2. subst keep1 keep2.
  apply filter_rows_fuse. congruence.
Qed.

(** The run on a table whose year, odometer and price columns exist and
    hold no strings: every step succeeds. *)
Lemma feature_engineering_run r w d year odo price age0 age1 km plog
    keep1 keep2 :
  heap w !! r = Some d →
  column d "year" = Some year →
  mapR (rsub_scalar (clock_year w)) year = Ok age0 →
  column d "odometer_km" = Some odo →
  mapR (add_scalar 1) (clamp_age <$> age0) = Ok age1 →
  zipR truediv odo age1 = Ok km →
  column d "price" = Some price →
  mapR log1p_value price = Ok plog →
  mapR (gt_scalar 0) price = Ok keep1 →
  mapR (lt_scalar 1000000) (mfilter keep1 odo) = Ok keep2 →
  ∀ neg, mapR (lt_scalar 0) age0 = Ok neg →
  let e := engineered d (clamp_age <$> age0) km plog in
  ∃ w', feature_engineering r w = (Ok (S (S (length (heap w)))), w') ∧
        heap w' = heap w ++ [e; filter_rows keep1 e;
                             filter_rows keep2 (filter_rows keep1 e)].
Proof.
  intros Hd Hyear Hage0 Hodo Hage1 Hkm Hprice Hplog Hkeep1 Hkeep2 neg Hneg e.
  subst e. unfold feature_engineering.
  rewrite bind_run, (df_copy_run r w d Hd).
  set (h := heap w) in *.
  rewrite bind_run. unfold datetime_now_year at 1.
  rewrite bind_run. erewrite (getitem_focus h d) by reflexivity.
  rewrite Hyear, bind_run. unfold liftR at 1.
  cbn [clock_year set_heap]. rewrite Hage0.
  rewrite bind_run. erewrite setitem_focus by reflexivity.
  rewrite bind_run. erewrite getitem_focus by reflexivity.
  rewrite column_set_column_eq, bind_run. unfold liftR at 1. rewrite Hneg.
  rewrite bind_run.
  erewrite loc_setitem_focus by (reflexivity || apply column_set_column_eq).
  rewrite (mask_assign_clamp age0 neg Hneg), set_column_twice.
  rewrite bind_run. erewrite getitem_focus by reflexivity.
  rewrite column_set_column_ne, Hodo by done.
  rewrite bind_run. erewrite getitem_focus by reflexivity.
  rewrite column_set_column_eq, bind_run. unfold liftR at 1. rewrite Hage1.
  rewrite bind_run. unfold liftR at 1. rewrite Hkm.
  rewrite bind_run. erewrite setitem_focus by reflexivity.
  rewrite bind_run. erewrite getitem_focus by reflexivity.
  rewrite !column_set_column_ne, Hprice by done.
  rewrite bind_run, np_log1p_run, Hplog.
  rewrite bind_run.
  erewrite setitem_focus by (rewrite heap_log1p_warn; reflexivity).
  rewrite bind_run. erewrite for_each_fill_focus by reflexivity.
  fold (engineered d (clamp_age <$> age0) km plog).
  rewrite bind_run. erewrite getitem_focus by reflexivity.
  rewrite (column_engineered_input d _ _ _ "price"), Hprice
    by (set_unfold; tauto).
  rewrite bind_run. unfold liftR at 1. rewrite Hkeep1.
  rewrite bind_run. erewrite getitem_mask_focus by reflexivity.
  rewrite bind_run. erewrite getitem_focus by reflexivity.
  rewrite column_filter_rows, (column_engineered_input d _ _ _ "odometer_km"),
    Hodo by (set_unfold; tauto).
  simpl fmap. cbv beta iota.
  rewrite bind_run. unfold liftR at 1. rewrite Hkeep2.
  rewrite bind_run. erewrite getitem_mask_focus by reflexivity.
  unfold mret, M_ret. eexists. split.
  - f_equal. f_equal. rewrite !length_app. simpl. lia.
  - cbn [heap set_heap]. by rewrite <- !app_assoc.
Qed.

Lemma mapR_total {A B} (f : A → result B) (P : A → Prop) l :
  (∀ x, P x → ∃ y, f x = Ok y) → Forall P l → ∃ k, mapR f l = Ok k.
Proof.
  intros Hf Hl. induction Hl as [|x l Hx _ [k Hk]]; simpl; [eauto|].
  destruct (Hf x Hx) as [y ->]. rewrite Hk. eauto.
Qed.

Lemma mapR_preserves {A B} (f : A → result B) (Q : B → Prop) l k :
  (∀ x y, f x = Ok y → Q y) → mapR f l = Ok k → Forall Q k.
Proof.
  intros Hf Hk. apply mapR_Forall2 in Hk.
  induction Hk; constructor; eauto.
Qed.

Lemma truediv_total x y :
  is_str x = false → is_str y = false → ∃ z, truediv x y = Ok z.
Proof.
  destruct x as [a| | |?|], y as [b| | |?|]; simpl; intros ? ?; try done;
    eauto; repeat case_match; eauto.
Qed.

Lemma zipR_truediv_total l : ∀ k,
  Forall (λ v, is_str v = false) l → Forall (λ v, is_str v = false) k →
  ∃ r, zipR truediv l k = Ok r.
Proof.
  induction l as [|x l IH]; intros [|y k] Hl Hk; simpl; eauto.
  apply Forall_cons in Hl as [Hx Hl]. apply Forall_cons in Hk as [Hy Hk].
  destruct (IH k Hl Hk) as [r Hr]. rewrite Hr.
  destruct (truediv_total x y Hx Hy) as [z ->]. eauto.
Qed.

(** [feature_engineering] returns on every table whose year, odometer and
    price columns exist and hold no strings. *)
Lemma feature_engineering_returns r w d :
  heap w !! r = Some d →
  numeric_column d "year" → numeric_column d "odometer_km" →
  numeric_column d "price" →
  ∃ r' w', feature_engineering r w = (Ok r', w').
Proof.
  intros Hd (year & Hyear & Hy) (odo & Hodo & Ho) (price & Hprice & Hp).
  set (nostr := λ v : value, is_str v = false) in *.
  assert (Htot : ∀ {B} (f : value → result B) l,
            (∀ v, nostr v → ∃ y, f v = Ok y) → Forall nostr l →
            ∃ k, mapR f l = Ok k).
  { intros B f l. apply mapR_total. }
  destruct (Htot _ (rsub_scalar (clock_year w)) year) as [age0 Hage0];
    [|exact Hy|].
  { intros [| | |?|] ?; simpl in *; try done; eauto. }
  assert (Ha0 : Forall nostr age0).
  { eapply mapR_preserves; [|exact Hage0].
    intros ? ?. apply rsub_scalar_not_str. }
  destruct (Htot _ (lt_scalar 0) age0) as [neg Hneg]; [|exact Ha0|].
  { intros [| | |?|] ?; simpl in *; try done; eauto. }
  assert (Hc : Forall nostr (clamp_age <$> age0)).
  { apply Forall_fmap. eapply Forall_impl; [exact Ha0|].
    intros [| | |?|] ?; simpl in *; try done. unfold clamp_age, nostr.
    by case_match. }
  destruct (Htot _ (add_scalar 1) (clamp_age <$> age0)) as [age1 Hage1];
    [|exact Hc|].
  { intros [| | |?|] ?; simpl in *; try done; eauto. }
  assert (Ha1 : Forall nostr age1).
  { eapply mapR_preserves; [|exact Hage1].
    intros [| | |?|] ? Hx; simpl in Hx; try done; by injection Hx as <-. }
  destruct (zipR_truediv_total odo age1 Ho Ha1) as [km Hkm].
  destruct (Htot _ log1p_value price) as [plog Hplog]; [|exact Hp|].
  { intros [| | |?|] ?; simpl in *; try done; eauto.
    repeat case_match; eauto. }
  destruct (Htot _ (gt_scalar 0) price) as [keep1 Hkeep1]; [|exact Hp|].
  { intros [| | |?|] ?; simpl in *; try done; eauto. }
  destruct (Htot _ (lt_scalar 1000000) (mfilter keep1 odo))
    as [keep2 Hkeep2]; [|apply mfilter_Forall, Ho|].
  { intros [| | |?|] ?; simpl in *; try done; eauto. }
  destruct (feature_engineering_run r w d year odo price age0 age1 km plog
              keep1 keep2 Hd Hyear Hage0 Hodo Hage1 Hkm Hprice Hplog
              Hkeep1 Hkeep2 neg Hneg) as (w' & Hrun & _).
  eauto.
Qed.

End FeatureEngineering.

(** ** The properties of the specification: feature engineering *)

Section FeatureEngineeringClaims.
Context `{!Platform}.

Lemma price_ok_num q : price_ok (VNum q) = true ↔ (0 < q)%Qc.
Proof.
  unfold price_ok, gt_scalar, holds, Qc_ltb.
  rewrite bool_decide_eq_true. by replace (Qc_of_Z 0) with 0%Qc
    by (by apply Qc_is_canon).
Qed.

Lemma odometer_ok_num q :
  odometer_ok (VNum q) = true ↔ (q < Qc_of_Z 1000000)%Qc.
Proof.
  unfold odometer_ok, lt_scalar, holds, Qc_ltb. by rewrite bool_decide_eq_true.
Qed.

(** C1. Every row of the table returned by [feature_engineering] has
    [price > 0] and [odometer_km < 1,000,000], both strictly: the rows of
    the result are the rows of the input on which both tests hold, so a
    row with price 0, with 1,000,000 km, or outside either bound is
    removed. *)
Theorem feature_engineering_bounds r w r' w' d :
  heap w !! r = Some d → rectangular d →
  feature_engineering r w = (Ok r', w') →
  ∃ d' price odo,
    heap w' !! r' = Some d' ∧
    column d "price" = Some price ∧
    column d "odometer_km" = Some odo ∧
    index d' = mfilter (keep_mask price odo) (index d) ∧
    column d' "price" = Some (mfilter (keep_mask price odo) price) ∧
    column d' "odometer_km" = Some (mfilter (keep_mask price odo) odo) ∧
    Forall (λ p, price_ok p = true) (mfilter (keep_mask price odo) price) ∧
    Forall (λ o, odometer_ok o = true) (mfilter (keep_mask price odo) odo) ∧
    (∀ q, price_ok (VNum q) = true ↔ (0 < q)%Qc) ∧
    (∀ q, odometer_ok (VNum q) = true ↔ (q < Qc_of_Z 1000000)%Qc) ∧
    price_ok VNull = false ∧ odometer_ok VNull = false.
Proof.
  intros Hd Hrect Hrun.
  destruct (feature_engineering_out _ _ _ _ _ Hd Hrect Hrun)
    as (year & odo & price & age0 & age1 & km & plog & Hyear & Hodo & Hprice &
        Hly & Hlo & Hlp & Hage0 & Hage1 & Hkm & Hplog & Hout & Hwarn).
  eexists _, price, odo. split; [exact Hout|].
  split_and!; try done.
  - simpl. by rewrite index_engineered.
  - rewrite column_filter_rows, column_engineered_input, Hprice
      by (set_unfold; tauto). done.
  - rewrite column_filter_rows, column_engineered_input, Hodo
      by (set_unfold; tauto). done.
  - assert (Hlen : length price = length odo) by congruence.
    clear -Hlen. revert odo Hlen.
    induction price as [|p price IH]; intros [|o odo] Hlen; simpl in *;
      try done; try constructor.
    destruct (price_ok p) eqn:Hp; simpl; [|auto].
    destruct (odometer_ok o); auto.
  - assert (Hlen : length price = length odo) by congruence.
    clear -Hlen. revert odo Hlen.
    induction price as [|p price IH]; intros [|o odo] Hlen; simpl in *;
      try done; try constructor.
    destruct (price_ok p); simpl; [|auto].
    destruct (odometer_ok o) eqn:Ho; auto.
  - apply price_ok_num.
  - apply odometer_ok_num.
Qed.

Lemma Qc_of_Z_0 : Qc_of_Z 0 = 0%Qc.
Proof. by apply Qc_is_canon. Qed.

Lemma Qc_of_Z_1 : Qc_of_Z 1 = 1%Qc.
Proof. by apply Qc_is_canon. Qed.

Lemma clamp_age_nonneg a0 :
  is_str a0 = false → a0 ≠ VNull → nonneg (clamp_age a0) = true.
Proof.
  intros Hs Hn. unfold clamp_age, lt_scalar, holds.
  destruct a0 as [q| | |s|]; simpl in *; try done.
  unfold Qc_ltb. rewrite Qc_of_Z_0. case_bool_decide as Hq; simpl.
  - done.
  - apply bool_decide_eq_true. by apply Qcle_ngt.
Qed.

(** A clamped age is missing, infinite or a number that is not negative. *)
Lemma clamp_age_cases a0 :
  is_str a0 = false →
  clamp_age a0 = VNull ∨ clamp_age a0 = VPosInf ∨
  ∃ q, clamp_age a0 = VNum q ∧ (0 ≤ q)%Qc.
Proof.
  intros Hs. destruct (decide (a0 = VNull)) as [->|Hn]; [by left|].
  pose proof (clamp_age_nonneg a0 Hs Hn) as Hnn.
  destruct (clamp_age a0) as [q| | |s|]; simpl in Hnn; try done; eauto.
  right; right. exists q. split; [done|]. by apply bool_decide_eq_true in Hnn.
Qed.

Lemma Qc_of_Z_nonneg n : (0 ≤ Qc_of_Z n)%Qc → (0 ≤ n)%Z.
Proof. rewrite <- Qc_of_Z_0. apply Z2Qc_inj_le. Qed.

Lemma Qcdiv_1_r (x : Qc) : (x / Qc_of_Z 1)%Qc = x.
Proof. rewrite Qc_of_Z_1. apply (right_id 1%Qc Qcdiv). Qed.

(** A [float64] holds every integer of at most 53 bits. *)
Lemma float64_int z : (Z.abs z < 2 ^ 53)%Z → float64 (Qc_of_Z z).
Proof.
  intros Hz. exists z, 0%Z. split; [done|]. split; [lia|].
  replace (pow2 0) with 1%Qc by (by apply Qc_is_canon).
  by rewrite Qcmult_1_r.
Qed.

(** One row of the division: the odometer [o], the clamped age [a] and
    the quotient [k]. *)
Lemma km_cell o a0 a1 k :
  is_str a0 = false →
  add_scalar 1 (clamp_age a0) = Ok a1 → truediv o a1 = Ok k →
  (o = VNull ∨ clamp_age a0 = VNull → k = VNull) ∧
  (∀ x y, o = VNum x → clamp_age a0 = VNum y →
     (0 ≤ y)%Qc ∧ num_add y (Qc_of_Z 1) ≠ 0%Qc ∧
     k = VNum (num_div x (num_add y (Qc_of_Z 1)))) ∧
  (∀ x (n : Z), o = VNum x → clamp_age a0 = VNum (Qc_of_Z n) →
     float64 x → (n < 2 ^ 52)%Z →
     ∃ z, k = VNum z ∧
       (Qcabs (z - x / Qc_of_Z (n + 1)) ≤
        Qcabs (x / Qc_of_Z (n + 1)) * pow2 (-53) + pow2 (-1075))%Qc ∧
       (float64 (x / Qc_of_Z (n + 1)) → z = (x / Qc_of_Z (n + 1))%Qc) ∧
       (n = 0%Z → z = x)).
Proof.
  intros Hs Ha1 Hk.
  assert (Hnum : ∀ x y, o = VNum x → clamp_age a0 = VNum y →
     (0 ≤ y)%Qc ∧ num_add y (Qc_of_Z 1) ≠ 0%Qc ∧
     k = VNum (num_div x (num_add y (Qc_of_Z 1)))).
  { intros x y -> Ha. rewrite Ha in Ha1. simpl in Ha1. injection Ha1 as <-.
    assert (Hy : (0 ≤ y)%Qc).
    { destruct (clamp_age_cases a0 Hs) as [Hc|[Hc|(q & Hc & Hq)]];
        rewrite Ha in Hc; try done. by injection Hc as ->. }
    pose proof (num_add_1_nonzero y Hy) as Hnz.
    split_and!; try done. simpl in Hk.
    rewrite decide_False in Hk by done. by injection Hk as <-. }
  split_and!.
  - intros [->| Ha].
    + destruct a1; simpl in Hk; by injection Hk as <-.
    + rewrite Ha in Ha1. simpl in Ha1. injection Ha1 as <-.
      destruct o; simpl in Hk; by injection Hk as <-.
  - exact Hnum.
  - intros x n Ho Ha Hx Hn.
    destruct (Hnum x (Qc_of_Z n) Ho Ha) as (Hn0 & _ & ->).
    apply Qc_of_Z_nonneg in Hn0.
    rewrite num_add_int by lia.
    assert (Hb : (1 ≤ n + 1 ≤ 2 ^ 53)%Z) by lia.
    eexists. split; [done|]. split_and!.
    + by apply num_div_near.
    + by apply num_div_exact.
    + intros ->. simpl. rewrite num_div_exact; [apply Qcdiv_1_r|done..|].
      by rewrite Qcdiv_1_r.
Qed.

Lemma km_rows cy year : ∀ odo age0 age1 km,
  length odo = length year →
  mapR (rsub_scalar cy) year = Ok age0 →
  mapR (add_scalar 1) (clamp_age <$> age0) = Ok age1 →
  zipR truediv odo age1 = Ok km →
  Forall3 (λ o a k,
      (o = VNull ∨ a = VNull → k = VNull) ∧
      (∀ x y, o = VNum x → a = VNum y →
         (0 ≤ y)%Qc ∧ num_add y (Qc_of_Z 1) ≠ 0%Qc ∧
         k = VNum (num_div x (num_add y (Qc_of_Z 1)))) ∧
      (∀ x (n : Z), o = VNum x → a = VNum (Qc_of_Z n) →
         float64 x → (n < 2 ^ 52)%Z →
         ∃ z, k = VNum z ∧
           (Qcabs (z - x / Qc_of_Z (n + 1)) ≤
            Qcabs (x / Qc_of_Z (n + 1)) * pow2 (-53) + pow2 (-1075))%Qc ∧
           (float64 (x / Qc_of_Z (n + 1)) →
            z = (x / Qc_of_Z (n + 1))%Qc) ∧
           (n = 0%Z → z = x)))
    odo (clamp_age <$> age0) km.
Proof.
  induction year as [|y year IH]; intros [|o odo] age0 age1 km Hlen Hage0 Ha1 Hkm;
    simpl in *; try done.
  - injection Hage0 as <-. injection Ha1 as <-. injection Hkm as <-.
    constructor.
  - destruct (rsub_scalar cy y) as [a|] eqn:Hy; [|done].
    destruct (mapR (rsub_scalar cy) year) as [age0'|] eqn:Hyear; [|done].
    injection Hage0 as <-. simpl in Ha1.
    destruct (add_scalar 1 (clamp_age a)) as [a1|] eqn:Ha; [|done].
    destruct (mapR (add_scalar 1) _) as [age1'|] eqn:Hage1'; [|done].
    injection Ha1 as <-. simpl in Hkm.
    destruct (truediv o a1) as [k|] eqn:Hk; [|done].
    destruct (zipR truediv odo age1') as [km'|] eqn:Hkm'; [|done].
    injection Hkm as <-.
    constructor; [|eapply IH; eauto].
    eapply km_cell; eauto using rsub_scalar_not_str.
Qed.

(** C2. In every row of the table returned by [feature_engineering],
    [km_per_year] is the quotient of [odometer_km] by [age + 1], for the
    clamped age of that row, as NumPy divides: the divisor is never
    zero; where the odometer is a number a [float64] holds and the age
    an integer, the quotient is the one of the rationals rounded to
    nearest, hence exact whenever a [float64] holds it; a row with age 0
    has [km_per_year] equal to [odometer_km].  A row without odometer or
    age has none. *)
Theorem km_per_year_exact r w r' w' d :
  heap w !! r = Some d → rectangular d →
  feature_engineering r w = (Ok r', w') →
  ∃ d' odo age km,
    heap w' !! r' = Some d' ∧
    column d' "odometer_km" = Some odo ∧
    column d' "age" = Some age ∧
    column d' "km_per_year" = Some km ∧
    Forall3 (λ o a k,
        (o = VNull ∨ a = VNull → k = VNull) ∧
        (∀ x y, o = VNum x → a = VNum y →
           (0 ≤ y)%Qc ∧ num_add y (Qc_of_Z 1) ≠ 0%Qc ∧
           k = VNum (num_div x (num_add y (Qc_of_Z 1)))) ∧
        (∀ x (n : Z), o = VNum x → a = VNum (Qc_of_Z n) →
           float64 x → (n < 2 ^ 52)%Z →
           ∃ z, k = VNum z ∧
             (Qcabs (z - x / Qc_of_Z (n + 1)) ≤
              Qcabs (x / Qc_of_Z (n + 1)) * pow2 (-53) + pow2 (-1075))%Qc ∧
             (float64 (x / Qc_of_Z (n + 1)) →
              z = (x / Qc_of_Z (n + 1))%Qc) ∧
             (n = 0%Z → z = x)))
      odo age km.
Proof.
  intros Hd Hrect Hrun.
  destruct (feature_engineering_out _ _ _ _ _ Hd Hrect Hrun)
    as (year & odo & price & age0 & age1 & km & plog & Hyear & Hodo & Hprice &
        Hly & Hlo & Hlp & Hage0 & Hage1 & Hkm & Hplog & Hout & Hwarn).
  eexists _, _, _, _. split; [exact Hout|].
  rewrite !column_filter_rows, column_engineered_age, column_engineered_km,
    column_engineered_input, Hodo by (set_unfold; tauto).
  split_and!; try done.
  apply mfilter_Forall3.
  apply (km_rows (clock_year w) year odo age0 age1 km); [congruence|done..].
Qed.

Lemma clamp_age_int (t : Z) :
  clamp_age (VNum (Qc_of_Z t)) = VNum (Qc_of_Z (Z.max 0 t)).
Proof.
  unfold clamp_age, lt_scalar, holds, Qc_ltb.
  case_bool_decide as Ht; apply Z2Qc_inj_lt in Ht || rewrite <- Z2Qc_inj_lt in Ht.
  - rewrite Z.max_l by lia. by rewrite Qc_of_Z_0.
  - by rewrite Z.max_r by lia.
Qed.

Lemma age_rows cy year age0 :
  (1 ≤ cy ≤ 9999)%Z →
  mapR (rsub_scalar cy) year = Ok age0 →
  Forall2 (λ y a,
      (y = VNull → a = VNull) ∧
      (y ≠ VNull → nonneg a = true) ∧
      (∀ z : Z, y = VNum (Qc_of_Z z) → (Z.abs z ≤ 2 ^ 52)%Z →
                a = VNum (Qc_of_Z (Z.max 0 (cy - z)))))
    year (clamp_age <$> age0).
Proof.
  intros Hcy Hage0. apply mapR_Forall2 in Hage0.
  induction Hage0 as [|y a0 year age0 Hy _ IH]; simpl; constructor; [|done].
  split_and!.
  - intros ->. by injection Hy as <-.
  - intros Hn. apply clamp_age_nonneg; [by eapply rsub_scalar_not_str|].
    destruct y; simpl in Hy; try done; injection Hy as <-; done.
  - intros z -> Hz. simpl in Hy. injection Hy as <-.
    rewrite num_sub_int by lia. apply clamp_age_int.
Qed.

(** C3, as amended. [feature_engineering] sets [age] to
    [current_year - year], with the year of the clock at run time, and
    replaces a negative result by 0: a row whose year is an integer of
    at most 53 bits has the age [max 0 (current_year - year)].  In every
    row of the result whose year is not missing [age >= 0], also for a
    year in the future, and a row without a year has no age. *)
Theorem age_clamped r w r' w' d :
  heap w !! r = Some d → rectangular d →
  (1 ≤ clock_year w ≤ 9999)%Z →
  feature_engineering r w = (Ok r', w') →
  ∃ d' year age,
    heap w' !! r' = Some d' ∧
    column d' "year" = Some year ∧
    column d' "age" = Some age ∧
    Forall2 (λ y a,
        (y = VNull → a = VNull) ∧
        (y ≠ VNull → nonneg a = true) ∧
        (∀ z : Z, y = VNum (Qc_of_Z z) → (Z.abs z ≤ 2 ^ 52)%Z →
                  a = VNum (Qc_of_Z (Z.max 0 (clock_year w - z)))))
      year age.
Proof.
  intros Hd Hrect Hclock Hrun.
  destruct (feature_engineering_out _ _ _ _ _ Hd Hrect Hrun)
    as (year & odo & price & age0 & age1 & km & plog & Hyear & Hodo & Hprice &
        Hly & Hlo & Hlp & Hage0 & Hage1 & Hkm & Hplog & Hout & Hwarn).
  eexists _, _, _. split; [exact Hout|].
  rewrite !column_filter_rows, column_engineered_age,
    column_engineered_input, Hyear by (set_unfold; tauto).
  split_and!; try done.
  by apply mfilter_Forall2, age_rows.
Qed.

Lemma mfilter_keep_mask_price price : ∀ odo,
  Forall (λ p, price_ok p = true) (mfilter (keep_mask price odo) price).
Proof.
  induction price as [|p price IH]; intros [|o odo]; simpl;
    try by constructor.
  destruct (price_ok p) eqn:Hp; simpl; [|done].
  destruct (odometer_ok o); [constructor|]; done.
Qed.

Lemma Forall2_under_Forall {A B} (P : A → Prop) (R : A → B → Prop) l k :
  Forall P l → Forall2 (λ x y, P x → R x y) l k → Forall2 R l k.
Proof.
  intros HP HR. induction HR as [|x y l k Hxy _ IH]; [constructor|].
  apply Forall_cons in HP as [Hx HP]. constructor; auto.
Qed.

Lemma log1p_value_positive p l :
  log1p_value p = Ok l → price_ok p = true →
  ∀ q, p = VNum q → (0 < q)%Qc ∧ l = VNum (ln1p q).
Proof.
  intros Hl Hp q ->. apply price_ok_num in Hp. split; [done|].
  simpl in Hl. unfold Qc_ltb in Hl. rewrite bool_decide_true in Hl.
  - by injection Hl as <-.
  - by apply Qclt_trans with 0%Qc.
Qed.

Lemma log1p_warn_domain price w q :
  VNum q ∈ price → (q ≤ -1)%Qc →
  ∃ msgs, warnings (log1p_warn price w) = warnings w ++ msgs ∧
          msgs ≠ [] ∧ Forall domain_warning msgs.
Proof.
  intros Hin Hq. unfold log1p_warn.
  assert (Hex : existsb log1p_pole price = true ∨
                existsb log1p_invalid price = true).
  { apply Qcle_lt_or_eq in Hq as [Hlt| ->].
    - right. apply existsb_exists. exists (VNum q).
      split; [by apply list_elem_of_In|]. simpl. by apply bool_decide_eq_true.
    - left. apply existsb_exists. exists (VNum (-1)%Qc).
      split; [by apply list_elem_of_In|]. by apply bool_decide_eq_true. }
  destruct (existsb log1p_pole price), (existsb log1p_invalid price); simpl.
  - exists ["RuntimeWarning: divide by zero encountered in log1p";
            "RuntimeWarning: invalid value encountered in log1p"].
    split_and!; [by rewrite <- app_assoc | done |].
    apply Forall_cons. split; [by left|].
    apply Forall_cons. split; [by right | constructor].
  - exists ["RuntimeWarning: divide by zero encountered in log1p"].
    split_and!; [done..|]. apply Forall_cons. split; [by left | constructor].
  - exists ["RuntimeWarning: invalid value encountered in log1p"].
    split_and!; [done..|]. apply Forall_cons. split; [by right | constructor].
  - by destruct Hex.
Qed.

(** C4. In every row of the table returned by [feature_engineering],
    [price_log] is [log1p] of the price of that row.  The logarithm is
    taken on all rows before any row is filtered: a price of [-1] or
    less in the input meets the logarithm outside its domain, which
    gives minus infinity or NaN and a RuntimeWarning, and the row is
    dropped only afterwards. *)
Theorem price_log_before_filter r w r' w' d :
  heap w !! r = Some d → rectangular d →
  feature_engineering r w = (Ok r', w') →
  ∃ d' price_in price plog,
    heap w' !! r' = Some d' ∧
    column d "price" = Some price_in ∧
    column d' "price" = Some price ∧
    column d' "price_log" = Some plog ∧
    Forall2 (λ p l, log1p_value p = Ok l ∧
                    ∀ q, p = VNum q → (0 < q)%Qc ∧ l = VNum (ln1p q))
            price plog ∧
    ∀ q, VNum q ∈ price_in → (q ≤ -1)%Qc →
      (log1p_value (VNum q) = Ok VNegInf ∨ log1p_value (VNum q) = Ok VNull) ∧
      (VNum q ∉ price) ∧
      (∃ msgs, warnings w' = warnings w ++ msgs ∧ msgs ≠ [] ∧
               Forall domain_warning msgs).
Proof.
  intros Hd Hrect Hrun.
  destruct (feature_engineering_out _ _ _ _ _ Hd Hrect Hrun)
    as (year & odo & price & age0 & age1 & km & plog & Hyear & Hodo & Hprice &
        Hly & Hlo & Hlp & Hage0 & Hage1 & Hkm & Hplog & Hout & Hwarn).
  eexists _, price, _, _. split; [exact Hout|].
  rewrite !column_filter_rows, column_engineered_plog,
    column_engineered_input, Hprice by (set_unfold; tauto).
  split_and!; try done.
  - eapply Forall2_under_Forall; [apply mfilter_keep_mask_price|].
    apply mfilter_Forall2. apply mapR_Forall2 in Hplog.
    eapply Forall2_impl; [exact Hplog|]. simpl. intros p l Hl Hp.
    split; [done|]. exact (log1p_value_positive p l Hl Hp).
  - intros q Hin Hq. split_and!.
    + simpl. unfold Qc_ltb. rewrite bool_decide_false by by apply Qcle_not_lt.
      case_decide; auto.
    + intros Hq'.
      pose proof (mfilter_keep_mask_price price odo) as Hall.
      rewrite Forall_forall in Hall. apply Hall, price_ok_num in Hq'.
      apply (Qcle_not_lt _ _ Hq). by apply Qclt_trans with 0%Qc.
    + rewrite Hwarn. by apply (log1p_warn_domain price w q).
Qed.

Lemma len_fill_categorical d c : len (fill_categorical d c) = len d.
Proof. unfold len. by rewrite index_fill_categorical. Qed.

Lemma column_foldl_fill_in cols : ∀ d c,
  NoDup cols → c ∈ cols →
  column (foldl fill_categorical d cols) c =
    Some match column d c with
         | Some s => astype_str <$> (fillna (VStr "Unknown") <$> s)
         | None => replicate (len d) (VStr "Unknown")
         end.
Proof.
  induction cols as [|c0 cols IH]; intros d c Hnd Hc; simpl.
  - by apply elem_of_nil in Hc.
  - apply NoDup_cons in Hnd as [Hc0 Hnd].
    destruct (decide (c = c0)) as [->|Hne].
    + rewrite column_foldl_fill_ne by done.
      unfold fill_categorical.
      destruct (column d c0); by rewrite column_set_column_eq.
    + apply elem_of_cons in Hc as [?|Hc]; [done|].
      rewrite IH by done.
      rewrite column_fill_categorical_ne by done.
      by rewrite len_fill_categorical.
Qed.

Lemma fe_cat_cols_NoDup : NoDup fe_cat_cols.
Proof. apply (bool_decide_unpack _). vm_compute. exact I. Qed.

Lemma column_engineered_cat d age km plog c :
  c ∈ fe_cat_cols →
  column (engineered d age km plog) c =
    Some match column d c with
         | Some s => astype_str <$> (fillna (VStr "Unknown") <$> s)
         | None => replicate (len d) (VStr "Unknown")
         end.
Proof.
  intros Hc. unfold engineered.
  rewrite column_foldl_fill_in by auto using fe_cat_cols_NoDup.
  assert (c ≠ "age" ∧ c ≠ "km_per_year" ∧ c ≠ "price_log") as (?&?&?).
  { unfold fe_cat_cols in Hc. set_unfold in Hc.
    destruct_or!; try done; subst c; done. }
  by rewrite !column_set_column_ne.
Qed.


End FeatureEngineeringClaims.

Lemma feature_engineering_bounds_witness :
  ∃ d', heap (@feature_engineering sample_platform 0%nat sample_world).2 !! 3%nat
          = Some d' ∧
        index d' = [0; 4; 5] ∧
        column d' "price" = Some [num 10000; num 500; num 30000].
Proof.
  destruct (@feature_engineering_bounds sample_platform 0%nat sample_world 3%nat
              (@feature_engineering sample_platform 0%nat sample_world).2
              sample_frame)
    as (d' & price & odo & Hd' & Hp & Ho & Hidx & Hcp & _).
  - reflexivity.
  - repeat constructor.
  - vm_compute. reflexivity.
  - exists d'. injection Hp as <-. injection Ho as <-.
    split; [exact Hd'|]. split; [exact Hidx | exact Hcp].
Defined.

Lemma km_per_year_exact_witness :
  float64 (Qc_of_Z 50000) ∧
  ∃ d' odo age km,
    heap (@feature_engineering sample_platform 0%nat sample_world).2 !! 3%nat
      = Some d' ∧
    column d' "odometer_km" = Some odo ∧
    column d' "age" = Some age ∧
    column d' "km_per_year" = Some km ∧
    Forall3 (λ o a k,
        (o = VNull ∨ a = VNull → k = VNull) ∧
        (∀ x y, o = VNum x → a = VNum y →
           (0 ≤ y)%Qc ∧ @num_add sample_platform y (Qc_of_Z 1) ≠ 0%Qc ∧
           k = VNum (@num_div sample_platform x
                       (@num_add sample_platform y (Qc_of_Z 1)))) ∧
        (∀ x (n : Z), o = VNum x → a = VNum (Qc_of_Z n) →
           float64 x → (n < 2 ^ 52)%Z →
           ∃ z, k = VNum z ∧
             (Qcabs (z - x / Qc_of_Z (n + 1)) ≤
              Qcabs (x / Qc_of_Z (n + 1)) * pow2 (-53) + pow2 (-1075))%Qc ∧
             (float64 (x / Qc_of_Z (n + 1)) →
              z = (x / Qc_of_Z (n + 1))%Qc) ∧
             (n = 0%Z → z = x)))
      odo age km.
Proof.
  split; [apply float64_int; lia|].
  apply (@km_per_year_exact sample_platform 0%nat sample_world 3%nat
           (@feature_engineering sample_platform 0%nat sample_world).2
           sample_frame).
  - reflexivity.
  - repeat constructor.
  - vm_compute. reflexivity.
Defined.

(** C3, as stated, fails: the listing without a year passes both filters
    and its age is missing, which is not [>= 0]. *)
Lemma age_nonneg_counterexample :
  ∃ r' w' d' age,
    @feature_engineering sample_platform 0%nat sample_world = (Ok r', w') ∧
    heap w' !! r' = Some d' ∧
    column d' "age" = Some age ∧
    age !! 1%nat = Some VNull ∧
    ¬ Forall (λ a, nonneg a = true) age.
Proof.
  eexists 3%nat, _, _, _. split_and!.
  - vm_compute. reflexivity.
  - reflexivity.
  - reflexivity.
  - reflexivity.
  - intros Hall. apply Forall_inv_tail, Forall_inv in Hall. discriminate.
Qed.

Lemma age_clamped_witness :
  ∃ d' year age,
    heap (@feature_engineering sample_platform 0%nat sample_world).2 !! 3%nat
      = Some d' ∧
    column d' "year" = Some year ∧
    column d' "age" = Some age ∧
    Forall2 (λ y a,
        (y = VNull → a = VNull) ∧
        (y ≠ VNull → nonneg a = true) ∧
        (∀ z : Z, y = VNum (Qc_of_Z z) → (Z.abs z ≤ 2 ^ 52)%Z →
                  a = VNum (Qc_of_Z (Z.max 0 (clock_year sample_world - z)))))
      year age.
Proof.
  apply (@age_clamped sample_platform 0%nat sample_world 3%nat
           (@feature_engineering sample_platform 0%nat sample_world).2
           sample_frame).
  - reflexivity.
  - repeat constructor.
  - simpl. lia.
  - vm_compute. reflexivity.
Defined.

Lemma price_log_before_filter_witness :
  ∃ d' price plog,
    heap (@feature_engineering sample_platform 0%nat sample_world).2 !! 3%nat
      = Some d' ∧
    column d' "price" = Some price ∧
    column d' "price_log" = Some plog ∧
    Forall2 (λ p l, @log1p_value sample_platform p = Ok l) price plog ∧
    ∃ msgs,
      warnings (@feature_engineering sample_platform 0%nat sample_world).2 =
        msgs ∧ msgs ≠ [].
Proof.
  destruct (@price_log_before_filter sample_platform 0%nat sample_world 3%nat
              (@feature_engineering sample_platform 0%nat sample_world).2
              sample_frame)
    as (d' & price_in & price & plog & Hd' & Hin & Hp & Hl & Hrows & Hdom).
  - reflexivity.
  - repeat constructor.
  - vm_compute. reflexivity.
  - exists d', price, plog. split_and!; try done.
    + eapply Forall2_impl; [exact Hrows|]. by intros p l [? _].
    + injection Hin as <-.
      destruct (Hdom (Qc_of_Z (-5))) as (_ & _ & msgs & Hw & Hne & _).
      * apply list_elem_of_In. simpl. tauto.
      * by apply (bool_decide_unpack _).
      * exists msgs. split; [exact Hw | exact Hne].
Defined.


(** ** One-hot encoding, when it returns *)

Section Encoding.
Context `{!Platform}.

Lemma OneHotEncoder_deprecation_run w :
  OneHotEncoder_deprecation w =
    (Ok tt, mkWorld (heap w) (fs w) (mongo w) (clock_year w) (stdout w)
              (warnings w ++ deprecation_msgs)).
Proof.
  unfold OneHotEncoder_deprecation, deprecation_msgs.
  destruct sparse_warning; [done|]. rewrite app_nil_r. by destruct w.
Qed.

Lemma length_RangeIndex n : length (RangeIndex n) = n.
Proof. unfold RangeIndex. rewrite length_seqZ. lia. Qed.

Lemma getitem_list_run r cols w d :
  heap w !! r = Some d →
  getitem_list r cols w =
    match select_columns d cols with
    | Ok X => (Ok (length (heap w)), set_heap (heap w ++ [X]) w)
    | Raise e => (Raise e, w)
    end.
Proof.
  intros Hd. unfold getitem_list. rewrite bind_run, (deref_run r w d Hd).
  rewrite bind_run. unfold liftR. by destruct (select_columns d cols).
Qed.

Lemma pd_DataFrame_run a names w :
  length a.2 = length names →
  pd_DataFrame a names w =
    (Ok (length (heap w)),
     set_heap (heap w ++ [mkDataFrame (RangeIndex a.1) (zip names a.2)]) w).
Proof. intros Hlen. unfold pd_DataFrame. by rewrite decide_True. Qed.

Lemma df_drop_run r cols w d :
  heap w !! r = Some d → Forall (λ c, c ∈ column_names d) cols →
  df_drop r cols w =
    (Ok (length (heap w)), set_heap (heap w ++ [drop_columns d cols]) w).
Proof.
  intros Hd Hcols. unfold df_drop. rewrite bind_run, (deref_run r w d Hd).
  destruct (list_find _ cols) as [[i c]|] eqn:Hfind; [|done].
  apply list_find_Some in Hfind as (Hi & Hc & _).
  rewrite Forall_forall in Hcols. destruct Hc. apply Hcols.
  by eapply list_elem_of_lookup_2.
Qed.

Lemma reset_index_run r w d :
  heap w !! r = Some d →
  reset_index r w =
    (Ok (length (heap w)),
     set_heap (heap w ++ [mkDataFrame (RangeIndex (len d)) (columns d)]) w).
Proof.
  intros Hd. unfold reset_index. by rewrite bind_run, (deref_run r w d Hd).
Qed.

Lemma pd_concat_run ra rb w a b :
  heap w !! ra = Some a → heap w !! rb = Some b →
  pd_concat ra rb w =
    match concat_axis1 a b with
    | Ok d => (Ok (length (heap w)), set_heap (heap w ++ [d]) w)
    | Raise e => (Raise e, w)
    end.
Proof.
  intros Ha Hb. unfold pd_concat.
  rewrite bind_run, (deref_run ra w a Ha).
  rewrite bind_run, (deref_run rb w b Hb).
  rewrite bind_run. unfold liftR. by destruct (concat_axis1 a b).
Qed.

Lemma column_elem_of d c s : column d c = Some s → c ∈ column_names d.
Proof.
  intros Hc. apply dec_stable. intros Hn. apply assoc_None in Hn.
  unfold column in Hc. congruence.
Qed.

Lemma encode_categorical_default_Ok r w r' w' :
  encode_categorical r None w = (Ok r', w') →
  ∃ d fuel trans brand cf ct cb,
    heap w !! r = Some d ∧
    column d "fuel" = Some fuel ∧
    column d "transmission" = Some trans ∧
    column d "brand" = Some brand ∧
    len d ≠ 0%nat ∧
    fit_column fuel = Ok cf ∧
    fit_column trans = Ok ct ∧
    fit_column brand = Ok cb ∧
    heap w' !! r' =
      Some (mkDataFrame (RangeIndex (len d))
              (columns (drop_columns d default_cat_cols) ++
               onehot_block "fuel" cf fuel ++
               onehot_block "transmission" ct trans ++
               onehot_block "brand" cb brand)).
Proof.
  intros H0. unfold encode_categorical in H0. cbn [default] in H0.
  rewrite bind_run in H0. unfold print at 1 in H0.
  destruct (heap w !! r) as [d|] eqn:Hd.
  2: { unfold getitem_list in H0. rewrite !bind_run in H0.
       unfold deref in H0. cbn [heap add_stdout] in H0. rewrite Hd in H0.
       discriminate. }
  rewrite bind_run, (getitem_list_run r _ _ d) in H0 by done.
  unfold select_columns, default_cat_cols in H0. simpl mapR in H0.
  destruct (column d "fuel") as [fuel|] eqn:Hfuel; [|discriminate].
  destruct (column d "transmission") as [trans|] eqn:Htrans; [|discriminate].
  destruct (column d "brand") as [brand|] eqn:Hbrand; [|discriminate].
  cbn [heap add_stdout] in H0. set (h := heap w) in *.
  set (X := mkDataFrame (index d) _) in H0.
  rewrite bind_run in H0. erewrite (deref_focus h) in H0 by reflexivity.
  rewrite bind_run, OneHotEncoder_deprecation_run in H0.
  cbn [heap set_heap add_stdout] in H0.
  rewrite bind_run in H0.
  unfold liftR at 1, OneHotEncoder_fit_transform, OneHotEncoder_fit in H0.
  destruct (decide (len X = 0%nat)) as [|Hlen]; [discriminate|].
  destruct (existsb _ (columns X)) eqn:Hinf; [discriminate|].
  unfold X at 1 in H0. simpl mapR in H0.
  destruct (fit_column fuel) as [cf|] eqn:Hcf; [|discriminate].
  destruct (fit_column trans) as [ct|] eqn:Hct; [|discriminate].
  destruct (fit_column brand) as [cb|] eqn:Hcb; [|discriminate].
  rewrite bind_run, pd_DataFrame_run in H0.
  2: { unfold OneHotEncoder_transform, get_feature_names_out. simpl.
       rewrite !length_app, !length_fmap. done. }
  cbn [heap set_heap] in H0.
  set (E := mkDataFrame (RangeIndex _) (zip _ _)) in H0.
  pose proof (lookup_lt_Some _ _ _ Hd) as Hr.
  rewrite bind_run, (df_drop_run r _ _ d) in H0.
  2: { cbn [heap set_heap].
       by rewrite !lookup_app_l by (rewrite ?length_app; simpl; lia). }
  2: { repeat (apply Forall_cons; split; [by eapply column_elem_of|]).
       constructor. }
  cbn [heap set_heap] in H0.
  set (N := drop_columns d _) in H0.
  rewrite bind_run, (reset_index_run _ _ N) in H0
    by (cbn [heap set_heap]; by apply list_lookup_middle).
  cbn [heap set_heap] in H0.
  set (L := mkDataFrame (RangeIndex (len N)) (columns N)) in H0.
  rewrite bind_run, (reset_index_run _ _ E) in H0.
  2: { cbn [heap set_heap].
       rewrite !lookup_app_l by (rewrite ?length_app; simpl; lia).
       by apply list_lookup_middle. }
  cbn [heap set_heap] in H0.
  set (R := mkDataFrame (RangeIndex (len E)) (columns E)) in H0.
  rewrite bind_run, (pd_concat_run _ _ _ L R) in H0.
  2: { cbn [heap set_heap].
       rewrite !lookup_app_l by (rewrite ?length_app; simpl; lia).
       by apply list_lookup_middle. }
  2: { cbn [heap set_heap]. by apply list_lookup_middle. }
  assert (HLR : index L = index R).
  { unfold L, R, N, E, X, OneHotEncoder_transform, len. simpl.
    by rewrite length_RangeIndex. }
  unfold concat_axis1 in H0. rewrite decide_True in H0 by done.
  cbn [heap set_heap] in H0. unfold mret, M_ret in H0.
  inversion H0; subst r' w'; clear H0.
  exists d, fuel, trans, brand, cf, ct, cb. split_and!; try done.
  cbn [heap set_heap]. rewrite list_lookup_middle by done. f_equal.
  unfold L, R, N, E, X, OneHotEncoder_transform, get_feature_names_out,
    onehot_block, len. simpl. f_equal. f_equal.
  rewrite !app_nil_r.
  rewrite !zip_with_app by (by rewrite !length_fmap).
  by rewrite !zip_with_fmap_l, !zip_with_fmap_r, !zip_with_diag.
Qed.

Lemma fit_column_strings vs :
  Forall (λ v, is_str v = true) vs → ∃ cats, fit_column vs = Ok cats.
Proof.
  intros Hvs. unfold fit_column.
  destruct (existsb is_number _) eqn:Hnum.
  - apply existsb_exists in Hnum as (x & Hx & Hnum).
    apply list_elem_of_In, list_elem_of_filter in Hx as [_ Hx].
    rewrite elem_of_remove_dups in Hx.
    rewrite Forall_forall in Hvs. specialize (Hvs x Hx). by destruct x.
  - rewrite andb_false_r. eauto.
Qed.

Lemma strings_no_inf vs :
  Forall (λ v, is_str v = true) vs → existsb is_inf vs = false.
Proof.
  intros Hvs. induction Hvs as [|v vs Hv _ IH]; [done|].
  simpl. rewrite IH. by destruct v.
Qed.

(** [encode_categorical] returns on every table with at least one row
    whose fuel, transmission and brand columns exist and hold strings. *)
Lemma encode_categorical_returns r w d :
  heap w !! r = Some d → len d ≠ 0%nat →
  string_column d "fuel" → string_column d "transmission" →
  string_column d "brand" →
  ∃ r' w', encode_categorical r None w = (Ok r', w').
Proof.
  intros Hd Hlen (fuel & Hfuel & Hsf) (trans & Htrans & Hst)
    (brand & Hbrand & Hsb).
  destruct (fit_column_strings fuel Hsf) as [cf Hcf].
  destruct (fit_column_strings trans Hst) as [ct Hct].
  destruct (fit_column_strings brand Hsb) as [cb Hcb].
  unfold encode_categorical. cbn [default].
  rewrite bind_run. unfold print at 1.
  rewrite bind_run, (getitem_list_run r _ _ d) by done.
  unfold select_columns, default_cat_cols. simpl mapR.
  rewrite Hfuel, Htrans, Hbrand.
  cbn [heap add_stdout]. set (h := heap w) in *.
  set (X := mkDataFrame (index d) _).
  rewrite bind_run. erewrite (deref_focus h) by reflexivity.
  rewrite bind_run, OneHotEncoder_deprecation_run.
  cbn [heap set_heap add_stdout].
  rewrite bind_run.
  unfold liftR at 1, OneHotEncoder_fit_transform, OneHotEncoder_fit.
  rewrite decide_False by done.
  replace (existsb _ (columns X)) with false.
  2: { unfold X. simpl.
       by rewrite !strings_no_inf. }
  unfold X at 1. simpl mapR. rewrite Hcf, Hct, Hcb.
  rewrite bind_run, pd_DataFrame_run.
  2: { unfold OneHotEncoder_transform, get_feature_names_out. simpl.
       rewrite !length_app, !length_fmap. done. }
  cbn [heap set_heap].
  set (E := mkDataFrame (RangeIndex _) (zip _ _)).
  pose proof (lookup_lt_Some _ _ _ Hd) as Hr.
  rewrite bind_run, (df_drop_run r _ _ d).
  2: { cbn [heap set_heap].
       by rewrite !lookup_app_l by (rewrite ?length_app; simpl; lia). }
  2: { repeat (apply Forall_cons; split; [by eapply column_elem_of|]).
       constructor. }
  cbn [heap set_heap].
  set (N := drop_columns d _).
  rewrite bind_run, (reset_index_run _ _ N)
    by (cbn [heap set_heap]; by apply list_lookup_middle).
  cbn [heap set_heap].
  set (L := mkDataFrame (RangeIndex (len N)) (columns N)).
  rewrite bind_run, (reset_index_run _ _ E).
  2: { cbn [heap set_heap].
       rewrite !lookup_app_l by (rewrite ?length_app; simpl; lia).
       by apply list_lookup_middle. }
  cbn [heap set_heap].
  set (R := mkDataFrame (RangeIndex (len E)) (columns E)).
  rewrite bind_run, (pd_concat_run _ _ _ L R).
  2: { cbn [heap set_heap].
       rewrite !lookup_app_l by (rewrite ?length_app; simpl; lia).
       by apply list_lookup_middle. }
  2: { cbn [heap set_heap]. by apply list_lookup_middle. }
  assert (HLR : index L = index R).
  { unfold L, R, N, E, X, OneHotEncoder_transform, len. simpl.
    by rewrite length_RangeIndex. }
  unfold concat_axis1. rewrite decide_True by done.
  unfold mret, M_ret. eauto.
Qed.

End Encoding.

(** ** The properties of the specification: one-hot encoding *)

Section EncodingClaims.
Context `{!Platform}.

Lemma filter_isna_split (l : list value) :
  (length (filter (λ v, isna v = false) l) +
   length (filter (λ v, isna v = true) l))%nat = length l.
Proof.
  induction l as [|v l IH]; [done|].
  rewrite !filter_cons. destruct (isna v) eqn:Hv.
  - rewrite decide_False, decide_True by done. simpl. lia.
  - rewrite decide_True, decide_False by done. simpl. lia.
Qed.

(** One category per distinct value. *)
Lemma fit_column_length vs cats :
  fit_column vs = Ok cats → length cats = n_distinct vs.
Proof.
  unfold fit_column, n_distinct. case_match; [done|]. intros [= <-].
  rewrite length_app, (Permutation_length (merge_sort_Permutation _ _)).
  apply filter_isna_split.
Qed.

Lemma fit_column_NoDup vs cats : fit_column vs = Ok cats → NoDup cats.
Proof.
  unfold fit_column. case_match; [done|]. intros [= <-].
  apply NoDup_app. split_and!.
  - rewrite merge_sort_Permutation. apply NoDup_filter, NoDup_remove_dups.
  - intros x. rewrite merge_sort_Permutation, !list_elem_of_filter.
    intros [Hx _] [Hx' _]. congruence.
  - apply NoDup_filter, NoDup_remove_dups.
Qed.

Lemma fit_column_elem_of vs cats v :
  fit_column vs = Ok cats → v ∈ cats ↔ v ∈ vs.
Proof.
  unfold fit_column. case_match; [done|]. intros [= <-].
  rewrite elem_of_app, merge_sort_Permutation, !list_elem_of_filter,
    elem_of_remove_dups.
  destruct (isna v).
  - split; [intros [[? ?]|[? ?]]; done | intros ?; by right].
  - split; [intros [[? ?]|[? ?]]; done | intros ?; by left].
Qed.

Lemma drop_columns_length (l : list (string * series)) cols :
  NoDup l.*1 → NoDup cols → Forall (λ c, c ∈ l.*1) cols →
  (length (filter (λ cs : string * series, cs.1 ∉ cols) l) + length cols)%nat
  = length l.
Proof.
  intros Hl Hcols Hin.
  assert (Hfst : length (filter (λ cs : string * series, cs.1 ∉ cols) l) =
                 length (filter (λ c, c ∉ cols) l.*1)).
  { clear. induction l as [|[c s] l IH]; [done|].
    rewrite fmap_cons, !filter_cons. simpl.
    destruct (decide (c ∉ cols)); simpl; by rewrite IH. }
  rewrite Hfst.
  rewrite <- (length_fmap fst l).
  rewrite <- (Permutation_length (filter_app_complement (λ c, c ∈ cols) l.*1)).
  rewrite length_app.
  assert (Hperm : filter (λ c, c ∈ cols) l.*1 ≡ₚ cols).
  { apply NoDup_Permutation; [by apply NoDup_filter | done |].
    intros c. rewrite list_elem_of_filter. rewrite Forall_forall in Hin.
    split; [by intros [? _] | intros Hc; split; [done | by apply Hin]]. }
  rewrite (Permutation_length Hperm). lia.
Qed.

(** C6. With the default columns fuel, transmission and brand,
    [encode_categorical] returns a table with as many columns as the
    input has, less these three, plus one per distinct value of each of
    the three. *)
Theorem encode_categorical_column_count r w r' w' d :
  heap w !! r = Some d → unique_labels d →
  encode_categorical r None w = (Ok r', w') →
  ∃ d' fuel trans brand,
    heap w' !! r' = Some d' ∧
    column d "fuel" = Some fuel ∧
    column d "transmission" = Some trans ∧
    column d "brand" = Some brand ∧
    (3 ≤ length (columns d))%nat ∧
    length (columns d') =
      (length (columns d) - 3 +
       (n_distinct fuel + n_distinct trans + n_distinct brand))%nat.
Proof.
  intros Hd Hnd Hrun.
  apply encode_categorical_default_Ok in Hrun
    as (d0 & fuel & trans & brand & cf & ct & cb & Hd0 & Hfuel & Htrans &
        Hbrand & Hlen & Hcf & Hct & Hcb & Hout).
  assert (d0 = d) as -> by congruence.
  eexists _, fuel, trans, brand. split; [exact Hout|].
  assert (Hdrop : (length (columns (drop_columns d default_cat_cols)) + 3)%nat
                  = length (columns d)).
  { apply (drop_columns_length (columns d) default_cat_cols).
    - exact Hnd.
    - apply (bool_decide_unpack _). vm_compute. exact I.
    - repeat (apply Forall_cons; split; [by eapply column_elem_of|]).
      constructor. }
  split_and!; try done; [lia|].
  cbn [columns]. unfold onehot_block.
  rewrite !length_app, !length_fmap.
  rewrite (fit_column_length _ _ Hcf), (fit_column_length _ _ Hct),
    (fit_column_length _ _ Hcb).
  lia.
Qed.

Lemma onehot_block_row c cats vs i v :
  fit_column vs = Ok cats → vs !! i = Some v →
  ∃ k, (k < length (onehot_block c cats vs))%nat ∧
    ∀ j name col, onehot_block c cats vs !! j = Some (name, col) →
      col !! i = Some (if decide (j = k) then VNum 1%Qc else VNum 0%Qc).
Proof.
  intros Hfit Hv.
  pose proof (fit_column_NoDup _ _ Hfit) as Hnd.
  assert (Hin : v ∈ cats).
  { apply (fit_column_elem_of _ _ _ Hfit). by eapply list_elem_of_lookup_2. }
  apply list_elem_of_lookup_1 in Hin as [k Hk].
  exists k. split.
  { unfold onehot_block. rewrite length_fmap. by eapply lookup_lt_Some. }
  intros j name col Hj. unfold onehot_block in Hj. unfold series in *.
  rewrite list_lookup_fmap in Hj.
  destruct (cats !! j) as [cat|] eqn:Hcat; [|done].
  injection Hj as <- <-.
  rewrite list_lookup_fmap, Hv. simpl. f_equal. unfold indicator.
  destruct (decide (j = k)) as [->|Hne].
  - assert (cat = v) as -> by congruence. by rewrite decide_True.
  - rewrite decide_False; [done|]. intros ->.
    apply Hne. by eapply NoDup_lookup.
Qed.

(** C10. [encode_categorical] fits the vocabulary on the table it
    transforms: for a table without missing values in fuel, transmission
    and brand, every row of the result has, among the indicator columns
    of each of the three, exactly one equal to 1 and the others equal to
    0; and the result has as many rows as the input. *)
Theorem encode_categorical_one_hot r w r' w' d :
  heap w !! r = Some d → rectangular d →
  (∀ c vs, c ∈ default_cat_cols → column d c = Some vs → VNull ∉ vs) →
  encode_categorical r None w = (Ok r', w') →
  ∃ d' fuel trans brand cf ct cb,
    heap w' !! r' = Some d' ∧
    column d "fuel" = Some fuel ∧
    column d "transmission" = Some trans ∧
    column d "brand" = Some brand ∧
    len d' = len d ∧
    columns d' = columns (drop_columns d default_cat_cols) ++
                 onehot_block "fuel" cf fuel ++
                 onehot_block "transmission" ct trans ++
                 onehot_block "brand" cb brand ∧
    ∀ c cats vs,
      (c, cats, vs) ∈ [("fuel", cf, fuel); ("transmission", ct, trans);
                       ("brand", cb, brand)] →
      length vs = len d' ∧
      ∀ i v, vs !! i = Some v →
        ∃ k, (k < length (onehot_block c cats vs))%nat ∧
          ∀ j name col, onehot_block c cats vs !! j = Some (name, col) →
            col !! i = Some (if decide (j = k) then VNum 1%Qc
                             else VNum 0%Qc).
Proof.
  intros Hd Hrect _ Hrun.
  apply encode_categorical_default_Ok in Hrun
    as (d0 & fuel & trans & brand & cf & ct & cb & Hd0 & Hfuel & Htrans &
        Hbrand & Hlen & Hcf & Hct & Hcb & Hout).
  assert (d0 = d) as -> by congruence.
  eexists _, fuel, trans, brand, cf, ct, cb. split; [exact Hout|].
  assert (Hrows : len (mkDataFrame (RangeIndex (len d))
                    (columns (drop_columns d default_cat_cols) ++
                     onehot_block "fuel" cf fuel ++
                     onehot_block "transmission" ct trans ++
                     onehot_block "brand" cb brand)) = len d).
  { unfold len at 1. simpl. apply length_RangeIndex. }
  split_and!; try done.
  intros c cats vs Hc. rewrite Hrows. set_unfold in Hc.
  destruct_or!; try done; injection Hc as -> -> ->;
    (split; [by eapply column_length | intros i v Hv]);
    by eapply onehot_block_row.
Qed.

End EncodingClaims.

Lemma encode_categorical_column_count_witness :
  ∃ d', heap (@encode_categorical sample_platform 0%nat None
                sample_encode_world).2 !! 6%nat = Some d' ∧
        length (columns d') = 9%nat.
Proof.
  destruct (@encode_categorical_column_count sample_platform 0%nat
              sample_encode_world 6%nat
              (@encode_categorical sample_platform 0%nat None
                 sample_encode_world).2
              sample_engineered)
    as (d' & fuel & trans & brand & Hd' & Hf & Ht & Hb & _ & Hcount).
  - reflexivity.
  - apply (bool_decide_unpack _). vm_compute. exact I.
  - vm_compute. reflexivity.
  - exists d'. split; [exact Hd'|]. rewrite Hcount.
    injection Hf as <-. injection Ht as <-. injection Hb as <-.
    vm_compute. reflexivity.
Defined.

Lemma encode_categorical_one_hot_witness :
  ∃ d' fuel cf,
    heap (@encode_categorical sample_platform 0%nat None
            sample_encode_world).2 !! 6%nat = Some d' ∧
    column sample_engineered "fuel" = Some fuel ∧
    len d' = 3%nat ∧
    ∀ i v, fuel !! i = Some v →
      ∃ k, (k < length (@onehot_block sample_platform "fuel" cf fuel))%nat ∧
        ∀ j name col,
          @onehot_block sample_platform "fuel" cf fuel !! j = Some (name, col) →
          col !! i = Some (if decide (j = k) then VNum 1%Qc else VNum 0%Qc).
Proof.
  destruct (@encode_categorical_one_hot sample_platform 0%nat
              sample_encode_world 6%nat
              (@encode_categorical sample_platform 0%nat None
                 sample_encode_world).2
              sample_engineered)
    as (d' & fuel & trans & brand & cf & ct & cb & Hd' & Hf & Ht & Hb &
        Hlen & Hcols & Hrows).
  - reflexivity.
  - repeat constructor.
  - intros c vs Hc Hvs Hnull. unfold default_cat_cols in Hc.
    set_unfold in Hc.
    destruct Hc as [Hc|[Hc|[Hc|[]]]]; subst c; injection Hvs as <-;
      revert Hnull; apply (bool_decide_unpack _); vm_compute; exact I.
  - vm_compute. reflexivity.
  - exists d', fuel, cf. split_and!; try done.
    apply (Hrows "fuel" cf fuel). apply list_elem_of_here.
Defined.

(** ** The properties of the specification: frames, loading, the run *)

Section RunClaims.
Context `{!Platform}.

Lemma untouched_init w : untouched (heap w) (fs w) w.
Proof. by split. Qed.

Lemma keeps_run {A} (m : M A) (φ : A → Prop) w :
  keeps (heap w) (fs w) m φ →
  heap w `prefix_of` heap (m w).2 ∧ fs (m w).2 = fs w ∧
  ∀ a, (m w).1 = Ok a → φ a.
Proof.
  intros Hm. specialize (Hm w (untouched_init w)). unfold wp in Hm.
  destruct (m w) as [[a|e] w1]; simpl.
  - destruct Hm as [[? ?] ?]. split_and!; try done. by intros ? [= <-].
  - destruct Hm as [? ?]. split_and!; done.
Qed.

Lemma fresh_for_None (h : list DataFrame) r : fresh_for h r → h !! r = None.
Proof. intros Hr. by apply lookup_ge_None. Qed.

(** C9. [feature_engineering] and [encode_categorical] leave the table
    passed in as it was, rows, columns and values, like every other frame
    that existed before the call, whether they return or raise; the
    table they return is a new one. *)
Theorem stages_leave_input_unchanged r cat_cols w d :
  heap w !! r = Some d →
  heap (feature_engineering r w).2 !! r = Some d ∧
  heap (encode_categorical r cat_cols w).2 !! r = Some d ∧
  heap w `prefix_of` heap (feature_engineering r w).2 ∧
  heap w `prefix_of` heap (encode_categorical r cat_cols w).2 ∧
  (∀ r', (feature_engineering r w).1 = Ok r' →
         r' ≠ r ∧ heap w !! r' = None) ∧
  (∀ r', (encode_categorical r cat_cols w).1 = Ok r' →
         r' ≠ r ∧ heap w !! r' = None).
Proof.
  intros Hd.
  destruct (keeps_run _ _ w (keeps_feature_engineering (heap w) (fs w) r))
    as (Hfe & _ & Hfe').
  destruct (keeps_run _ _ w
              (keeps_encode_categorical (heap w) (fs w) r cat_cols))
    as (Henc & _ & Henc').
  split_and!; try done.
  - by eapply prefix_lookup_Some.
  - by eapply prefix_lookup_Some.
  - intros r' Hr'. apply Hfe', fresh_for_None in Hr'.
    split; [congruence | done].
  - intros r' Hr'. apply Henc', fresh_for_None in Hr'.
    split; [congruence | done].
Qed.

(** C7. With the file source selected and no file at the fixed path,
    [load_data] raises the not-found error (Python's FileNotFoundError)
    and leaves the world as it was: nothing is read, no table is made. *)
Theorem load_data_missing_file uri w :
  fs w !! "data/extracted_cars.csv" = None →
  load_data false uri w =
    (Raise (FileNotFoundError "data/extracted_cars.csv not found."), w).
Proof.
  intros Hfs. unfold load_data. rewrite bind_run. unfold os_path_exists.
  rewrite Hfs. rewrite bool_decide_false by (by intros [? ?]). done.
Qed.

Lemma stage_fs {A} (m : M A) (φ : A → Prop) w res w' :
  keeps (heap w) (fs w) m φ → m w = (res, w') → fs w' = fs w.
Proof.
  intros Hm Hrun. destruct (keeps_run m φ w Hm) as (_ & Hfs & _).
  by rewrite Hrun in Hfs.
Qed.

Lemma csv_path_not_data : "data" ≠ csv_path.
Proof. done. Qed.

Lemma os_makedirs_inv path w res w1 :
  os_makedirs path w = (res, w1) →
  heap w1 = heap w ∧
  (∀ p, p ≠ path → fs w1 !! p = fs w !! p) ∧
  (∀ e, res = Raise e → w1 = w).
Proof.
  unfold os_makedirs.
  destruct (fs w !! path) as [[|?]|]; intros [= <- <-]; split_and!;
    try done.
  intros p Hp. cbn [fs set_fs]. by rewrite lookup_insert_ne.
Qed.

Lemma write_file_inv path content w res w1 :
  write_file path content w = (res, w1) →
  heap w1 = heap w ∧
  match res with
  | Ok _ => fs w1 !! path = Some (File content)
  | Raise _ => w1 = w
  end.
Proof.
  unfold write_file.
  destruct (fs w !! path) as [[|?]|]; intros [= <- <-]; split; try done;
    cbn [fs set_fs]; by rewrite lookup_insert_eq.
Qed.

Lemma export_train_data_Ok r w w' :
  export_train_data r w = (Ok tt, w') →
  ∃ d, heap w !! r = Some d ∧ fs w' !! csv_path = Some (File (to_csv d)).
Proof.
  intros Hrun. unfold export_train_data in Hrun. rewrite bind_run in Hrun.
  destruct (os_makedirs "data" w) as [[[]|e0] w1] eqn:Hmk; [|discriminate].
  apply os_makedirs_inv in Hmk as (Hh1 & _ & _).
  unfold df_to_csv in Hrun. rewrite !bind_run in Hrun.
  destruct (heap w1 !! r) as [d|] eqn:Hd.
  2: { unfold deref in Hrun. rewrite Hd in Hrun. discriminate. }
  rewrite (deref_run r w1 d Hd) in Hrun.
  destruct (write_file csv_path (to_csv d) w1) as [[[]|e1] w2] eqn:Hwr;
    [|discriminate].
  apply write_file_inv in Hwr as (Hh2 & Hfs2).
  unfold df_len in Hrun. rewrite !bind_run in Hrun.
  rewrite (deref_run r w2 d) in Hrun by congruence.
  unfold mret, M_ret, print in Hrun. injection Hrun as <-.
  exists d. split; [congruence | exact Hfs2].
Qed.

Lemma export_train_data_Raise r w e w' :
  export_train_data r w = (Raise e, w') →
  fs w' !! csv_path = fs w !! csv_path.
Proof.
  intros Hrun. unfold export_train_data in Hrun. rewrite bind_run in Hrun.
  destruct (os_makedirs "data" w) as [[[]|e0] w1] eqn:Hmk.
  2: { apply os_makedirs_inv in Hmk as (_ & _ & Hw).
       injection Hrun as <- <-. by rewrite (Hw e0). }
  apply os_makedirs_inv in Hmk as (Hh1 & Hfs1 & _).
  specialize (Hfs1 csv_path (not_eq_sym csv_path_not_data)).
  unfold df_to_csv in Hrun. rewrite !bind_run in Hrun.
  destruct (heap w1 !! r) as [d|] eqn:Hd.
  2: { unfold deref in Hrun. rewrite Hd in Hrun. by injection Hrun as <- <-. }
  rewrite (deref_run r w1 d Hd) in Hrun.
  destruct (write_file csv_path (to_csv d) w1) as [[[]|e1] w2] eqn:Hwr.
  2: { apply write_file_inv in Hwr as (_ & ->). by injection Hrun as <- <-. }
  apply write_file_inv in Hwr as (Hh2 & Hfs2).
  unfold df_len in Hrun. rewrite !bind_run in Hrun.
  rewrite (deref_run r w2 d) in Hrun by congruence.
  unfold mret, M_ret, print in Hrun. discriminate.
Qed.

Lemma feature_engineering_string_columns r w r' w' d :
  heap w !! r = Some d → rectangular d →
  feature_engineering r w = (Ok r', w') →
  ∃ d', heap w' !! r' = Some d' ∧ ∀ c, c ∈ fe_cat_cols → string_column d' c.
Proof.
  intros Hd Hrect Hrun.
  destruct (feature_engineering_out _ _ _ _ _ Hd Hrect Hrun)
    as (year & odo & price & age0 & age1 & km & plog & _ & _ & _ &
        _ & _ & _ & _ & _ & _ & _ & Hout & _).
  eexists. split; [exact Hout|]. intros c Hc. unfold string_column.
  rewrite column_filter_rows, column_engineered_cat by done.
  eexists. split; [done|]. apply mfilter_Forall.
  destruct (column d c).
  - by apply Forall_fmap, Forall_fmap, Forall_true.
  - by apply Forall_replicate.
Qed.

(** In the pipeline the encoder gets the table of the feature engineer:
    it returns unless no row is left. *)
Lemma encode_after_feature_engineering r w r' w' d d' :
  heap w !! r = Some d → rectangular d →
  feature_engineering r w = (Ok r', w') →
  heap w' !! r' = Some d' → len d' ≠ 0%nat →
  ∃ r'' w'', encode_categorical r' None w' = (Ok r'', w'').
Proof.
  intros Hd Hrect Hrun Hd' Hlen.
  destruct (feature_engineering_string_columns _ _ _ _ _ Hd Hrect Hrun)
    as (d0 & Hd0 & Hstr).
  assert (d0 = d') as -> by congruence.
  apply (encode_categorical_returns r' w' d'); try done;
    apply Hstr, (bool_decide_unpack _); vm_compute; exact I.
Qed.

(** C8. The orchestrator runs Load, Clean, Feature-Engineer, Encode and
    Export in this order, each on the table and the world the stage
    before left.  When a stage raises, the run ends with that exception,
    no later stage runs, and the output file is as it was before the
    run; the file is written only after all four earlier stages have
    returned. *)
Theorem main_all_or_nothing w res w' :
  main w = (res, w') →
  let w0 :=
    add_stdout "============================================================"
               (add_stdout "🚗 PREPROCESSING AutoTrader dataset" w) in
  match res with
  | Raise e =>
      fs w' !! csv_path = fs w !! csv_path ∧
      (load_data true default_mongo_uri w0 = (Raise e, w') ∨
       (∃ df w1,
          load_data true default_mongo_uri w0 = (Ok df, w1) ∧
          clean_data df w1 = (Raise e, w')) ∨
       (∃ df w1 clean_df w2,
          load_data true default_mongo_uri w0 = (Ok df, w1) ∧
          clean_data df w1 = (Ok clean_df, w2) ∧
          feature_engineering clean_df w2 = (Raise e, w')) ∨
       (∃ df w1 clean_df w2 fe_df w3,
          load_data true default_mongo_uri w0 = (Ok df, w1) ∧
          clean_data df w1 = (Ok clean_df, w2) ∧
          feature_engineering clean_df w2 = (Ok fe_df, w3) ∧
          encode_categorical fe_df None w3 = (Raise e, w')) ∨
       (∃ df w1 clean_df w2 fe_df w3 final_df w4,
          load_data true default_mongo_uri w0 = (Ok df, w1) ∧
          clean_data df w1 = (Ok clean_df, w2) ∧
          feature_engineering clean_df w2 = (Ok fe_df, w3) ∧
          encode_categorical fe_df None w3 = (Ok final_df, w4) ∧
          export_train_data final_df w4 = (Raise e, w')))
  | Ok _ =>
      ∃ df w1 clean_df w2 fe_df w3 final_df w4 d,
        load_data true default_mongo_uri w0 = (Ok df, w1) ∧
        clean_data df w1 = (Ok clean_df, w2) ∧
        feature_engineering clean_df w2 = (Ok fe_df, w3) ∧
        encode_categorical fe_df None w3 = (Ok final_df, w4) ∧
        heap w4 !! final_df = Some d ∧
        fs w4 = fs w ∧
        fs w' !! csv_path = Some (File (to_csv d))
  end.
Proof.
  intros Hrun w0. unfold main in Hrun.
  rewrite bind_run in Hrun. unfold print at 1 in Hrun.
  rewrite bind_run in Hrun. unfold print at 1 in Hrun.
  fold w0 in Hrun. rewrite bind_run in Hrun.
  assert (Hfs0 : fs w0 = fs w) by done.
  destruct (load_data true default_mongo_uri w0) as [[df|e1] w1] eqn:Hload.
  2: { injection Hrun as <- <-. split; [|by left].
       by rewrite (stage_fs _ _ _ _ _ (keeps_load_data _ _ _ _) Hload). }
  pose proof (stage_fs _ _ _ _ _ (keeps_load_data _ _ _ _) Hload) as Hfs1.
  rewrite bind_run in Hrun.
  destruct (clean_data df w1) as [[clean_df|e2] w2] eqn:Hclean.
  2: { injection Hrun as <- <-. split; [|right; left; eauto].
       rewrite (stage_fs _ _ _ _ _ (keeps_clean_data _ _ _) Hclean).
       congruence. }
  pose proof (stage_fs _ _ _ _ _ (keeps_clean_data _ _ _) Hclean) as Hfs2.
  rewrite bind_run in Hrun.
  destruct (feature_engineering clean_df w2) as [[fe_df|e3] w3] eqn:Hfe.
  2: { injection Hrun as <- <-. split; [|right; right; left; eauto 10].
       rewrite (stage_fs _ _ _ _ _
                  (keeps_feature_engineering _ _ _) Hfe).
       congruence. }
  pose proof (stage_fs _ _ _ _ _
                (keeps_feature_engineering _ _ _) Hfe) as Hfs3.
  rewrite bind_run in Hrun.
  destruct (encode_categorical fe_df None w3) as [[final_df|e4] w4] eqn:Henc.
  2: { injection Hrun as <- <-. split; [|right; right; right; left; eauto 10].
       rewrite (stage_fs _ _ _ _ _
                  (keeps_encode_categorical _ _ _ _) Henc).
       congruence. }
  pose proof (stage_fs _ _ _ _ _
                (keeps_encode_categorical _ _ _ _) Henc) as Hfs4.
  rewrite bind_run in Hrun.
  destruct (export_train_data final_df w4) as [[[]|e5] w5] eqn:Hexp.
  - unfold print in Hrun. injection Hrun as <- <-.
    apply export_train_data_Ok in Hexp as (d & Hd & Hout).
    exists df, w1, clean_df, w2, fe_df, w3, final_df, w4, d.
    split_and!; try done. congruence.
  - injection Hrun as <- <-. split.
    + rewrite (export_train_data_Raise _ _ _ _ Hexp). congruence.
    + right; right; right; right.
      by exists df, w1, clean_df, w2, fe_df, w3, final_df, w4.
Qed.

End RunClaims.

Lemma stages_leave_input_unchanged_witness :
  heap (@feature_engineering sample_platform 0%nat sample_world).2 !! 0%nat
    = Some sample_frame ∧
  heap (@encode_categorical sample_platform 0%nat None sample_encode_world).2
    !! 0%nat = Some sample_engineered.
Proof.
  destruct (@stages_leave_input_unchanged sample_platform 0%nat None
              sample_world sample_frame eq_refl) as (Hfe & _).
  destruct (@stages_leave_input_unchanged sample_platform 0%nat None
              sample_encode_world sample_engineered eq_refl)
    as (_ & Henc & _).
  split; [exact Hfe | exact Henc].
Defined.

Lemma load_data_missing_file_witness :
  @load_data sample_platform false default_mongo_uri sample_world =
    (Raise (FileNotFoundError "data/extracted_cars.csv not found."),
     sample_world).
Proof. apply (@load_data_missing_file sample_platform). reflexivity. Defined.

Lemma main_all_or_nothing_witness :
  ∃ final_df w4 d,
    heap w4 !! final_df = Some d ∧
    fs (@main sample_platform sample_store_world).2 !! csv_path =
      Some (File (@to_csv sample_platform d)).
Proof.
  pose proof (@main_all_or_nothing sample_platform sample_store_world (Ok tt)
                (@main sample_platform sample_store_world).2) as Hmain.
  destruct Hmain as (df & w1 & clean_df & w2 & fe_df & w3 & final_df & w4 &
                     d & _ & _ & _ & _ & Hd & _ & Hout).
  - vm_compute. reflexivity.
  - exists final_df, w4, d. split; [exact Hd | exact Hout].
Defined.

(** A run against an unreachable store ends in the loader and writes
    nothing. *)
Example main_store_unreachable :
  @main sample_platform sample_world =
    (Raise ServerSelectionTimeoutError,
     add_stdout "============================================================"
       (add_stdout "🚗 PREPROCESSING AutoTrader dataset" sample_world)).
Proof. reflexivity. Qed.

(** The scenario of the specification: price 10000, year 2020, 50000 km,
    petrol, run in 2024. *)
Example end_to_end_row :
  ∃ d', heap (@feature_engineering sample_platform 0%nat sample_world).2
          !! 3%nat = Some d' ∧
    bool_decide
      ((λ c, (.!! 0%nat) <$> column d' c) <$>
         ["age"; "km_per_year"; "fuel"; "transmission"; "brand"; "model";
          "city"] =
       [Some (Some (num 4)); Some (Some (num 10000));
        Some (Some (VStr "petrol")); Some (Some (VStr "Unknown"));
        Some (Some (VStr "Unknown")); Some (Some (VStr "Unknown"));
        Some (Some (VStr "Unknown"))]) = true.
Proof. eexists. split; vm_compute; reflexivity. Qed.

(** ** Effects of the stages on the world outside the heap *)

Section Respects.
Context `{!Platform}.
Context (R : relation world) `{!PreOrder R}.

Lemma respects_ret {A} (a : A) : respects R (mret a).
Proof. intros w. simpl. reflexivity. Qed.

Lemma respects_raise {A} e : respects R (raise (A:=A) e).
Proof. intros w. simpl. reflexivity. Qed.

Lemma respects_liftR {A} (r : result A) : respects R (liftR r).
Proof. intros w. simpl. reflexivity. Qed.

Lemma respects_bind {A B} (m : M A) (k : A → M B) :
  respects R m → (∀ a, respects R (k a)) → respects R (m ≫= k).
Proof.
  intros Hm Hk w. rewrite bind_run. specialize (Hm w).
  destruct (m w) as [[a|e] w1]; simpl in *; [|done].
  etrans; [exact Hm | apply Hk].
Qed.

Lemma respects_for_each {A} (l : list A) (body : A → M unit) :
  (∀ x, respects R (body x)) → respects R (for_each l body).
Proof.
  intros Hbody. induction l as [|x l IH]; simpl.
  - apply respects_ret.
  - apply respects_bind; auto.
Qed.

End Respects.

Global Instance same_outside_heap_preorder : PreOrder same_outside_heap.
Proof.
  split.
  - by intros w.
  - intros w1 w2 w3 (?&?&?&?&?) (?&?&?&?&?). unfold same_outside_heap.
    split_and!; congruence.
Qed.

Global Instance only_warns_preorder : PreOrder only_warns.
Proof.
  split.
  - by intros w.
  - intros w1 w2 w3 (?&?&?&?&?) (?&?&?&?&?). unfold only_warns.
    split_and!; try congruence. by etrans.
Qed.

Lemma same_outside_heap_only_warns w w' :
  same_outside_heap w w' → only_warns w w'.
Proof.
  intros (?&?&?&?&Hw). unfold only_warns. split_and!; try done.
  by rewrite Hw.
Qed.

Section StageEffects.
Context `{!Platform}.

Lemma respects_mono {A} (R R' : relation world) (m : M A) :
  (∀ w w', R w w' → R' w w') → respects R m → respects R' m.
Proof. intros HR Hm w. apply HR, Hm. Qed.

Lemma heap_only_deref r : respects same_outside_heap (deref r).
Proof. intros w. unfold deref. by destruct (heap w !! r). Qed.

Lemma heap_only_alloc d : respects same_outside_heap (alloc d).
Proof. by intros w. Qed.

Lemma heap_only_store r d : respects same_outside_heap (store r d).
Proof. by intros w. Qed.

Lemma only_warns_warn msg : respects only_warns (warn msg).
Proof.
  intros w. unfold only_warns. simpl. split_and!; try done.
  by apply prefix_app_r.
Qed.

Lemma only_warns_now : respects only_warns datetime_now_year.
Proof. by intros w. Qed.

Local Ltac respects_step R :=
  first
    [ apply (respects_ret R)
    | apply (respects_raise R)
    | apply (respects_liftR R)
    | apply heap_only_deref
    | apply heap_only_alloc
    | apply heap_only_store
    | apply only_warns_warn
    | apply only_warns_now
    | solve [ apply (respects_mono same_outside_heap only_warns);
              [ apply same_outside_heap_only_warns
              | first [ apply heap_only_deref | apply heap_only_alloc
                      | apply heap_only_store ] ] ]
    | apply (respects_for_each R); intros ?
    | apply (respects_bind R); [ | intros ? ]
    | match goal with
      | |- respects _ (match ?x with _ => _ end) => destruct x
      end ].

Lemma heap_only_df_copy r : respects same_outside_heap (df_copy r).
Proof. unfold df_copy. repeat respects_step same_outside_heap. Qed.

Lemma heap_only_getitem r c : respects same_outside_heap (getitem r c).
Proof. unfold getitem. repeat respects_step same_outside_heap. Qed.

Lemma heap_only_setitem r c s : respects same_outside_heap (setitem r c s).
Proof. unfold setitem. repeat respects_step same_outside_heap. Qed.

Lemma heap_only_setitem_scalar r c v :
  respects same_outside_heap (setitem_scalar r c v).
Proof. unfold setitem_scalar. repeat respects_step same_outside_heap. Qed.

Lemma heap_only_loc_setitem r mask c v :
  respects same_outside_heap (loc_setitem r mask c v).
Proof. unfold loc_setitem. repeat respects_step same_outside_heap. Qed.

Lemma heap_only_has_column r c : respects same_outside_heap (has_column r c).
Proof. unfold has_column. repeat respects_step same_outside_heap. Qed.

Lemma heap_only_getitem_mask r mask :
  respects same_outside_heap (getitem_mask r mask).
Proof. unfold getitem_mask. repeat respects_step same_outside_heap. Qed.

Lemma heap_only_df_len r : respects same_outside_heap (df_len r).
Proof. unfold df_len. repeat respects_step same_outside_heap. Qed.

Lemma only_warns_np_log1p s : respects only_warns (np_log1p s).
Proof. unfold np_log1p. repeat respects_step only_warns. Qed.

Local Ltac lift_heap_only lem :=
  apply (respects_mono same_outside_heap only_warns);
  [ apply same_outside_heap_only_warns | apply lem ].

Lemma only_warns_feature_engineering r :
  respects only_warns (feature_engineering r).
Proof.
  unfold feature_engineering.
  repeat first
    [ lift_heap_only heap_only_df_copy
    | lift_heap_only heap_only_getitem
    | lift_heap_only heap_only_setitem
    | lift_heap_only heap_only_setitem_scalar
    | lift_heap_only heap_only_loc_setitem
    | lift_heap_only heap_only_has_column
    | lift_heap_only heap_only_getitem_mask
    | apply only_warns_np_log1p
    | respects_step only_warns ].
Qed.

End StageEffects.

(** ** Further properties: feature engineering *)

Section FeatureEngineeringOutcome.
Context `{!Platform}.

Lemma has_str_false s :
  has_str s = false → Forall (λ v, is_str v = false) s.
Proof.
  unfold has_str. induction s as [|v s IH]; simpl; [constructor|].
  intros [Hv Hs]%orb_false_elim. constructor; auto.
Qed.

Lemma mapR_has_str {B} (f : value → result B) l :
  (∀ s, f (VStr s) = Raise TypeError) →
  (∀ v, is_str v = false → ∃ y, f v = Ok y) →
  has_str l = true → mapR f l = Raise TypeError.
Proof.
  intros Hstr Hok. unfold has_str.
  induction l as [|v l IH]; simpl; [done|].
  destruct (is_str v) eqn:Hv; simpl.
  - intros _. destruct v; try done. by rewrite Hstr.
  - intros Hl. destruct (Hok v Hv) as [y ->]. by rewrite IH.
Qed.

Lemma zipR_truediv_has_str l : ∀ k,
  Forall (λ v, is_number v = true) k → length l = length k →
  has_str l = true → zipR truediv l k = Raise TypeError.
Proof.
  unfold has_str.
  induction l as [|x l IH]; intros [|y k] Hk Hlen; simpl in *; try done.
  apply Forall_cons in Hk as [Hy Hk].
  destruct (is_str x) eqn:Hx; simpl.
  - intros _. by destruct x, y.
  - intros Hl. destruct (truediv_total x y Hx) as [z ->]; [by destruct y|].
    rewrite IH; [done..|lia|done].
Qed.

Lemma rsub_scalar_number k v y :
  is_number v = true → rsub_scalar k v = Ok y → is_number y = true.
Proof. destruct v; simpl; intros; simplify_eq; done. Qed.

Lemma add_scalar_number k v y :
  is_number v = true → add_scalar k v = Ok y → is_number y = true.
Proof. destruct v; simpl; intros; simplify_eq; done. Qed.

Lemma clamp_age_number a :
  is_number a = true → is_number (clamp_age a) = true.
Proof. intros Ha. unfold clamp_age. by case_match. Qed.

Lemma mapR_number (f : value → result value) l r :
  (∀ v y, is_number v = true → f v = Ok y → is_number y = true) →
  Forall (λ v, is_number v = true) l → mapR f l = Ok r →
  Forall (λ v, is_number v = true) r.
Proof.
  intros Hf Hl Hr. apply mapR_Forall2 in Hr.
  induction Hr as [|v y l r Hv _ IH]; [constructor|].
  apply Forall_cons in Hl as [Hn Hl]. constructor; eauto.
Qed.

Lemma rsub_scalar_total k v :
  is_str v = false → ∃ y, rsub_scalar k v = Ok y.
Proof. destruct v; simpl; intros; try done; eauto. Qed.

Lemma lt_scalar_total k v :
  is_str v = false → ∃ y, lt_scalar k v = Ok y.
Proof. destruct v; simpl; intros; try done; eauto. Qed.

Lemma gt_scalar_total k v :
  is_str v = false → ∃ y, gt_scalar k v = Ok y.
Proof. destruct v; simpl; intros; try done; eauto. Qed.

Lemma add_scalar_total k v :
  is_str v = false → ∃ y, add_scalar k v = Ok y.
Proof. destruct v; simpl; intros; try done; eauto. Qed.

Lemma add_scalar_not_str k v y : add_scalar k v = Ok y → is_str y = false.
Proof. destruct v; simpl; intros [= <-]; done. Qed.

Lemma log1p_value_total v :
  is_str v = false → ∃ y, log1p_value v = Ok y.
Proof.
  destruct v; simpl; intros; try done; eauto. repeat case_match; eauto.
Qed.

Lemma clamp_age_not_str a : is_str a = false → is_str (clamp_age a) = false.
Proof. intros Ha. unfold clamp_age. by case_match. Qed.

Lemma fe_errors r w d res :
  heap w !! r = Some d → rectangular d →
  (feature_engineering r w).1 = res →
  match column d "year" with
  | None => res = Raise (KeyError "year")
  | Some ys =>
      if has_str ys then res = Raise TypeError
      else
        match column d "odometer_km" with
        | None => res = Raise (KeyError "odometer_km")
        | Some os =>
            (numbers_only ys → has_str os = true → res = Raise TypeError) ∧
            (has_str os = false →
             match column d "price" with
             | None => res = Raise (KeyError "price")
             | Some ps => has_str ps = true → res = Raise TypeError
             end)
        end
  end.
Proof.
  intros Hd Hrect Hres. unfold feature_engineering in Hres.
  rewrite bind_run, (df_copy_run r w d Hd) in Hres.
  set (h := heap w) in *.
  rewrite bind_run in Hres. unfold datetime_now_year at 1 in Hres.
  rewrite bind_run in Hres.
  erewrite (getitem_focus h d) in Hres by reflexivity.
  destruct (column d "year") as [year|] eqn:Hyear; [|done].
  rewrite bind_run in Hres. unfold liftR at 1 in Hres.
  cbn [clock_year set_heap] in Hres.
  destruct (has_str year) eqn:Hsy.
  { rewrite mapR_has_str in Hres;
      [done| done | apply rsub_scalar_total | done]. }
  apply has_str_false in Hsy.
  destruct (mapR_total (rsub_scalar (clock_year w)) _ year
              (rsub_scalar_total _) Hsy) as [age0 Hage0].
  rewrite Hage0 in Hres.
  assert (Ha0 : Forall (λ v, is_str v = false) age0).
  { eapply mapR_preserves; [|exact Hage0].
    intros ? ?. apply rsub_scalar_not_str. }
  destruct (mapR_total (lt_scalar 0) _ age0 (lt_scalar_total _) Ha0)
    as [neg Hneg].
  rewrite bind_run in Hres. erewrite setitem_focus in Hres by reflexivity.
  rewrite bind_run in Hres. erewrite getitem_focus in Hres by reflexivity.
  rewrite column_set_column_eq, bind_run in Hres.
  unfold liftR at 1 in Hres. rewrite Hneg in Hres.
  rewrite bind_run in Hres.
  erewrite loc_setitem_focus in Hres
    by (reflexivity || apply column_set_column_eq).
  rewrite (mask_assign_clamp age0 neg Hneg), set_column_twice in Hres.
  rewrite bind_run in Hres. erewrite getitem_focus in Hres by reflexivity.
  rewrite column_set_column_ne in Hres by done.
  destruct (column d "odometer_km") as [odo|] eqn:Hodo; [|done].
  rewrite bind_run in Hres. erewrite getitem_focus in Hres by reflexivity.
  rewrite column_set_column_eq, bind_run in Hres.
  unfold liftR at 1 in Hres.
  assert (Hc : Forall (λ v, is_str v = false) (clamp_age <$> age0)).
  { apply Forall_fmap. eapply Forall_impl; [exact Ha0|].
    intros a. apply clamp_age_not_str. }
  destruct (mapR_total (add_scalar 1) _ _ (add_scalar_total _) Hc)
    as [age1 Hage1].
  rewrite Hage1 in Hres.
  assert (Ha1 : Forall (λ v, is_str v = false) age1).
  { eapply mapR_preserves; [|exact Hage1].
    intros ? ?. apply add_scalar_not_str. }
  assert (Hlen : length odo = length age1).
  { pose proof (Forall2_length _ _ _ (mapR_Forall2 _ _ _ Hage0)) as Hl0.
    pose proof (Forall2_length _ _ _ (mapR_Forall2 _ _ _ Hage1)) as Hl1.
    rewrite length_fmap in Hl1.
    rewrite (column_length _ _ _ Hrect Hodo).
    rewrite <- (column_length _ _ _ Hrect Hyear). congruence. }
  rewrite bind_run in Hres. unfold liftR at 1 in Hres. split.
  { intros Hnum Hso. rewrite zipR_truediv_has_str in Hres; [done| |done..].
    eapply (mapR_number (add_scalar 1)); [apply add_scalar_number| |done].
    apply Forall_fmap. eapply Forall_impl; [|intros a; apply clamp_age_number].
    eapply (mapR_number (rsub_scalar (clock_year w)));
      [apply rsub_scalar_number | exact Hnum | done]. }
  intros Hso. apply has_str_false in Hso.
  destruct (zipR_truediv_total odo age1 Hso Ha1) as [km Hkm].
  rewrite Hkm in Hres.
  rewrite bind_run in Hres. erewrite setitem_focus in Hres by reflexivity.
  rewrite bind_run in Hres. erewrite getitem_focus in Hres by reflexivity.
  rewrite !column_set_column_ne in Hres by done.
  destruct (column d "price") as [price|] eqn:Hprice; [|done].
  rewrite bind_run, np_log1p_run in Hres. intros Hsp.
  rewrite mapR_has_str in Hres;
    [done| done | apply log1p_value_total | done].
Qed.

(** The exceptions of [feature_engineering], by the columns year,
    odometer_km and price in this order: an absent column is a KeyError
    naming it, once the columns before it hold no string; a string in
    year or in price is a TypeError, and so is a string in odometer_km
    when every year is a number. *)
Theorem feature_engineering_outcome r w d :
  heap w !! r = Some d → rectangular d →
  (column d "year" = None →
   (feature_engineering r w).1 = Raise (KeyError "year")) ∧
  (∀ ys, column d "year" = Some ys → has_str ys = true →
   (feature_engineering r w).1 = Raise TypeError) ∧
  (∀ ys, column d "year" = Some ys → has_str ys = false →
   (column d "odometer_km" = None →
    (feature_engineering r w).1 = Raise (KeyError "odometer_km")) ∧
   (∀ os, column d "odometer_km" = Some os → has_str os = true →
    numbers_only ys →
    (feature_engineering r w).1 = Raise TypeError) ∧
   (∀ os, column d "odometer_km" = Some os → has_str os = false →
    (column d "price" = None →
     (feature_engineering r w).1 = Raise (KeyError "price")) ∧
    (∀ ps, column d "price" = Some ps → has_str ps = true →
     (feature_engineering r w).1 = Raise TypeError))).
Proof.
  intros Hd Hrect. pose proof (fe_errors r w d _ Hd Hrect eq_refl) as H0.
  split_and!.
  - intros Hy. by rewrite Hy in H0.
  - intros ys Hy Hs. by rewrite Hy, Hs in H0.
  - intros ys Hy Hs. rewrite Hy, Hs in H0. split_and!.
    + intros Ho. by rewrite Ho in H0.
    + intros os Ho Hso Hnum. rewrite Ho in H0. by apply H0.
    + intros os Ho Hso. rewrite Ho in H0. destruct H0 as [_ H0].
      specialize (H0 Hso). split.
      * intros Hp. by rewrite Hp in H0.
      * intros ps Hp Hsp. rewrite Hp in H0. by apply H0.
Qed.

End FeatureEngineeringOutcome.

Section FeatureEngineeringShape.
Context `{!Platform}.

Lemma names_assoc_set c s cols :
  (assoc_set c s cols).*1 = append_new cols.*1 c.
Proof.
  unfold append_new. induction cols as [|[c' s'] cols IH]; [done|].
  cbn [assoc_set fmap list_fmap fst].
  destruct (decide (c = c')) as [->|Hne]; cbn [fmap list_fmap fst].
  - rewrite decide_True; [done | apply list_elem_of_here].
  - change (list_fmap _ _ fst ?l) with (l.*1). rewrite IH.
    destruct (decide (c ∈ cols.*1)) as [Hin|Hnin].
    + rewrite decide_True; [done | by apply list_elem_of_further].
    + rewrite decide_False; [done|].
      rewrite not_elem_of_cons. by split.
Qed.

Lemma column_names_set_column d c s :
  column_names (set_column d c s) = append_new (column_names d) c.
Proof. apply names_assoc_set. Qed.

Lemma column_names_fill_categorical d c :
  column_names (fill_categorical d c) = append_new (column_names d) c.
Proof.
  unfold fill_categorical.
  destruct (column d c); apply column_names_set_column.
Qed.

Lemma column_names_foldl_fill cols : ∀ d,
  column_names (foldl fill_categorical d cols) =
  foldl append_new (column_names d) cols.
Proof.
  induction cols as [|c cols IH]; intros d; simpl; [done|].
  by rewrite IH, column_names_fill_categorical.
Qed.

Lemma column_names_engineered d age km plog :
  column_names (engineered d age km plog) =
  foldl append_new (column_names d) fe_written_cols.
Proof.
  unfold engineered, fe_written_cols.
  rewrite column_names_foldl_fill, foldl_app. simpl.
  by rewrite !column_names_set_column.
Qed.

Lemma column_names_filter_rows m d :
  column_names (filter_rows m d) = column_names d.
Proof.
  unfold column_names, filter_rows. simpl.
  rewrite <- list_fmap_compose. apply list_fmap_ext. by intros i [c s] _.
Qed.

Lemma filter_ext_in {A} (P Q : A → Prop) `{!∀ x, Decision (P x)}
    `{!∀ x, Decision (Q x)} (l : list A) :
  (∀ x, x ∈ l → P x ↔ Q x) → filter P l = filter Q l.
Proof.
  induction l as [|a l IH]; intros HPQ; [done|].
  rewrite !filter_cons.
  rewrite IH by (intros x Hx; apply HPQ; by apply list_elem_of_further).
  destruct (decide (P a)) as [HP|HP].
  - rewrite decide_True; [done|]. apply HPQ; [apply list_elem_of_here|done].
  - rewrite decide_False; [done|]. intros HQ. apply HP.
    apply HPQ; [apply list_elem_of_here|done].
Qed.

Lemma foldl_append_new new : ∀ names,
  NoDup new →
  foldl append_new names new = names ++ filter (λ c, c ∉ names) new.
Proof.
  induction new as [|c new IH]; intros names Hnd; simpl.
  - by rewrite app_nil_r.
  - apply NoDup_cons in Hnd as [Hc Hnd]. rewrite IH by done.
    rewrite filter_cons. unfold append_new.
    destruct (decide (c ∈ names)) as [Hin|Hnin].
    + by rewrite decide_False by tauto.
    + rewrite decide_True by done. rewrite <- app_assoc. simpl.
      do 2 f_equal. apply filter_ext_in. intros x Hx.
      rewrite not_elem_of_app, list_elem_of_singleton.
      split; [tauto|]. intros ?. split; [done|]. by intros ->.
Qed.

Lemma fe_written_cols_NoDup : NoDup fe_written_cols.
Proof. apply (bool_decide_unpack _). vm_compute. exact I. Qed.

Lemma zipR_length {A B C} (f : A → B → result C) l : ∀ k r,
  length l = length k → zipR f l k = Ok r → length r = length l.
Proof.
  induction l as [|x l IH]; intros [|y k] r Hlen Hr; simpl in *; try done.
  - by injection Hr as <-.
  - destruct (f x y); [|done].
    destruct (zipR f l k) as [zs|] eqn:Hz; [|done].
    injection Hr as <-. simpl. f_equal. eapply IH; [|done]. lia.
Qed.

Lemma rectangular_set_column d c s :
  rectangular d → length s = len d → rectangular (set_column d c s).
Proof.
  destruct d as [idx cols]. unfold rectangular, set_column, len. simpl.
  intros Hd Hs. induction cols as [|[c' s'] cols IH]; simpl.
  - by repeat constructor.
  - apply Forall_cons in Hd as [Hc' Hd].
    destruct (decide (c = c')); constructor; auto.
Qed.

Lemma rectangular_fill_categorical d c :
  rectangular d → rectangular (fill_categorical d c).
Proof.
  intros Hd. unfold fill_categorical.
  destruct (column d c) as [s|] eqn:Hc; apply rectangular_set_column;
    try done.
  - rewrite !length_fmap. by eapply column_length.
  - apply length_replicate.
Qed.

Lemma rectangular_foldl_fill cols : ∀ d,
  rectangular d → rectangular (foldl fill_categorical d cols).
Proof.
  induction cols as [|c cols IH]; intros d Hd; simpl; [done|].
  by apply IH, rectangular_fill_categorical.
Qed.

Lemma rectangular_filter_rows m d :
  rectangular d → rectangular (filter_rows m d).
Proof.
  unfold rectangular, filter_rows, len. simpl. intros Hd.
  apply Forall_fmap. eapply Forall_impl; [exact Hd|].
  intros [c s] Hs. simpl in *. by apply mfilter_length_eq.
Qed.

Lemma column_names_out m d age km plog :
  column_names (filter_rows m (engineered d age km plog)) =
    column_names d ++ filter (λ c, c ∉ column_names d) fe_written_cols.
Proof.
  rewrite column_names_filter_rows, column_names_engineered.
  apply foldl_append_new, fe_written_cols_NoDup.
Qed.

Lemma rectangular_out m d age km plog :
  rectangular d → length age = len d → length km = len d →
  length plog = len d →
  rectangular (filter_rows m (engineered d age km plog)).
Proof.
  intros Hd Ha Hk Hp.
  apply rectangular_filter_rows, rectangular_foldl_fill.
  by repeat apply rectangular_set_column.
Qed.

(** The result lists the columns of the input in their places, followed
    by those of age, km_per_year, price_log, fuel, transmission, brand,
    model and city that the input lacks, in this order. *)
Theorem feature_engineering_column_names r w r' w' d d' :
  heap w !! r = Some d → rectangular d →
  feature_engineering r w = (Ok r', w') →
  heap w' !! r' = Some d' →
  column_names d' =
    column_names d ++ filter (λ c, c ∉ column_names d) fe_written_cols.
Proof.
  intros Hd Hrect Hrun Hd'.
  destruct (feature_engineering_out _ _ _ _ _ Hd Hrect Hrun)
    as (year & odo & price & age0 & age1 & km & plog & _ & _ & _ &
        _ & _ & _ & _ & _ & _ & _ & Hout & _).
  assert (d' = filter_rows (keep_mask price odo)
                 (engineered d (clamp_age <$> age0) km plog)) as ->
    by congruence.
  apply column_names_out.
Qed.

(** A column that [feature_engineering] does not write reaches the
    result with the cells of the surviving rows, unchanged. *)
Theorem feature_engineering_passthrough r w r' w' d d' :
  heap w !! r = Some d → rectangular d →
  feature_engineering r w = (Ok r', w') →
  heap w' !! r' = Some d' →
  ∃ price odo,
    column d "price" = Some price ∧
    column d "odometer_km" = Some odo ∧
    ∀ c, c ∉ fe_written_cols →
      column d' c = mfilter (keep_mask price odo) <$> column d c.
Proof.
  intros Hd Hrect Hrun Hd'.
  destruct (feature_engineering_out _ _ _ _ _ Hd Hrect Hrun)
    as (year & odo & price & age0 & age1 & km & plog & _ & Hodo & Hprice &
        _ & _ & _ & _ & _ & _ & _ & Hout & _).
  assert (d' = filter_rows (keep_mask price odo)
                 (engineered d (clamp_age <$> age0) km plog)) as ->
    by congruence.
  exists price, odo. split_and!; try done. intros c Hc.
  unfold fe_written_cols in Hc. apply not_elem_of_app in Hc as [Hc1 Hc2].
  rewrite column_filter_rows. f_equal. unfold engineered.
  rewrite column_foldl_fill_ne by done.
  rewrite !not_elem_of_cons in Hc1. destruct Hc1 as (?&?&?&_).
  by rewrite !column_set_column_ne.
Qed.

(** The result is well formed when the input is: one cell per row in
    every column, and no label twice. *)
Theorem feature_engineering_well_formed r w r' w' d d' :
  heap w !! r = Some d → rectangular d →
  feature_engineering r w = (Ok r', w') →
  heap w' !! r' = Some d' →
  rectangular d' ∧ (unique_labels d → unique_labels d').
Proof.
  intros Hd Hrect Hrun Hd'.
  destruct (feature_engineering_out _ _ _ _ _ Hd Hrect Hrun)
    as (year & odo & price & age0 & age1 & km & plog & _ & _ & _ &
        Hly & Hlo & Hlp & Hage0 & Hage1 & Hkm & Hplog & Hout & _).
  assert (d' = filter_rows (keep_mask price odo)
                 (engineered d (clamp_age <$> age0) km plog)) as ->
    by congruence.
  split.
  - apply mapR_Forall2, Forall2_length in Hage0, Hage1, Hplog.
    rewrite length_fmap in Hage1.
    assert (Hlk : length km = length odo).
    { apply (zipR_length truediv odo age1 km); [lia | done]. }
    apply rectangular_out; [done|..]; rewrite ?length_fmap; lia.
  - intros Hnd. unfold unique_labels. rewrite column_names_out.
    apply NoDup_app. split_and!; [done| |].
    + intros c Hc Hc'. by apply list_elem_of_filter in Hc' as [? _].
    + apply NoDup_filter, fe_written_cols_NoDup.
Qed.

End FeatureEngineeringShape.

Section FeatureEngineeringAgain.
Context `{!Platform}.

Lemma mapR_mfilter {A B} (f : A → result B) m : ∀ l k,
  mapR f l = Ok k → mapR f (mfilter m l) = Ok (mfilter m k).
Proof.
  induction m as [|b m IH]; intros l k Hk; [done|].
  destruct l as [|x l]; simpl in *.
  { by injection Hk as <-. }
  destruct (f x) as [y|] eqn:Hx; [|done].
  destruct (mapR f l) as [ys|] eqn:Hl; [|done].
  injection Hk as <-. destruct b; simpl.
  - by rewrite Hx, (IH l ys).
  - by apply IH.
Qed.

Lemma zipR_mfilter {A B C} (f : A → B → result C) m : ∀ l k r,
  length l = length k → zipR f l k = Ok r →
  zipR f (mfilter m l) (mfilter m k) = Ok (mfilter m r).
Proof.
  induction m as [|b m IH]; intros l k r Hlen Hr; [done|].
  destruct l as [|x l], k as [|y k]; simpl in *; try done.
  { by injection Hr as <-. }
  destruct (f x y) as [z|] eqn:Hxy; [|done].
  destruct (zipR f l k) as [zs|] eqn:Hz; [|done].
  injection Hr as <-. destruct b; simpl.
  - rewrite Hxy, (IH l k zs); [done|lia|done].
  - apply IH; [lia|done].
Qed.

Lemma assoc_set_id c s cols : assoc c cols = Some s → assoc_set c s cols = cols.
Proof.
  induction cols as [|[c' s'] cols IH]; simpl; [done|].
  destruct (decide (c = c')) as [->|Hne].
  - by intros [= ->].
  - intros Hc. by rewrite IH.
Qed.

Lemma set_column_id d c s : column d c = Some s → set_column d c s = d.
Proof.
  intros Hc. destruct d as [idx cols]. unfold set_column. simpl.
  f_equal. by apply assoc_set_id.
Qed.

Lemma astype_fillna_str s :
  Forall (λ v, is_str v = true) s →
  astype_str <$> (fillna (VStr "Unknown") <$> s) = s.
Proof.
  intros Hs. induction Hs as [|v s Hv _ IH]; [done|].
  rewrite !fmap_cons, IH. f_equal. by destruct v.
Qed.

Lemma fill_categorical_id d c :
  string_column d c → fill_categorical d c = d.
Proof.
  intros (s & Hc & Hs). unfold fill_categorical. rewrite Hc.
  rewrite astype_fillna_str by done. by apply set_column_id.
Qed.

Lemma foldl_fill_id cols : ∀ d,
  (∀ c, c ∈ cols → string_column d c) →
  foldl fill_categorical d cols = d.
Proof.
  induction cols as [|c cols IH]; intros d Hd; simpl; [done|].
  rewrite fill_categorical_id by (apply Hd, list_elem_of_here).
  apply IH. intros c' Hc'. by apply Hd, list_elem_of_further.
Qed.

Lemma mfilter_all_true {A} (m : list bool) : ∀ l : list A,
  Forall (λ b, b = true) m → length m = length l → mfilter m l = l.
Proof.
  induction m as [|b m IH]; intros [|x l] Hm Hlen; simpl in *; try done.
  apply Forall_cons in Hm as [-> Hm]. f_equal. apply IH; [done|lia].
Qed.

Lemma filter_rows_all_true m d :
  rectangular d → Forall (λ b, b = true) m → length m = len d →
  filter_rows m d = d.
Proof.
  intros Hd Hm Hlen. destruct d as [idx cols].
  unfold filter_rows, rectangular, len in *. simpl in *. f_equal.
  - by apply mfilter_all_true.
  - induction cols as [|[c s] cols IH]; [done|].
    apply Forall_cons in Hd as [Hs Hd]. simpl in *.
    f_equal; [|by apply IH].
    f_equal. apply mfilter_all_true; [done|lia].
Qed.

Lemma mfilter_keep_mask_odometer price : ∀ odo,
  Forall (λ o, odometer_ok o = true) (mfilter (keep_mask price odo) odo).
Proof.
  induction price as [|p price IH]; intros [|o odo]; simpl;
    try by constructor.
  destruct (price_ok p); simpl; [|done].
  destruct (odometer_ok o) eqn:Ho; [constructor|]; done.
Qed.

(** [feature_engineering] is idempotent: run again on its result in the
    same year, it returns a table equal to that result. *)
Theorem feature_engineering_idempotent r w r' w' d d' :
  heap w !! r = Some d → rectangular d →
  feature_engineering r w = (Ok r', w') →
  heap w' !! r' = Some d' →
  ∃ r'' w'',
    feature_engineering r' w' = (Ok r'', w'') ∧ heap w'' !! r'' = Some d'.
Proof.
  intros Hd Hrect Hrun Hd'.
  pose proof (only_warns_feature_engineering r w) as (_ & _ & Hclock & _).
  rewrite Hrun in Hclock. simpl in Hclock.
  destruct (feature_engineering_out _ _ _ _ _ Hd Hrect Hrun)
    as (year & odo & price & age0 & age1 & km & plog & Hyear & Hodo &
        Hprice & Hly & Hlo & Hlp & Hage0 & Hage1 & Hkm & Hplog & Hout & _).
  set (K := keep_mask price odo) in *.
  set (age := clamp_age <$> age0) in *.
  assert (d' = filter_rows K (engineered d age km plog)) as -> by congruence.
  set (d' := filter_rows K (engineered d age km plog)) in *.
  pose proof (mapR_Forall2 _ _ _ Hage0) as Hl0%Forall2_length.
  pose proof (mapR_Forall2 _ _ _ Hage1) as Hl1%Forall2_length.
  pose proof (mapR_Forall2 _ _ _ Hplog) as Hl2%Forall2_length.
  unfold age in Hl1. rewrite length_fmap in Hl1.
  assert (Hlk : length km = length odo).
  { apply (zipR_length truediv odo age1 km); [lia | done]. }
  assert (Hrect' : rectangular d').
  { apply rectangular_out; [done|..]; unfold age; rewrite ?length_fmap; lia. }
  assert (Hno : Forall (λ v, is_str v = false) (mfilter K odo)).
  { eapply Forall_impl; [apply mfilter_keep_mask_odometer|].
    intros o Ho. by destruct o. }
  assert (Ha0 : Forall (λ v, is_str v = false) age0).
  { eapply mapR_preserves; [|exact Hage0].
    intros ? ?. apply rsub_scalar_not_str. }
  destruct (mapR_total (lt_scalar 0) _ age0 (lt_scalar_total _) Ha0)
    as [neg Hneg].
  assert (Hnp : Forall (λ v, is_str v = false) price).
  { apply mapR_Forall2 in Hplog. clear -Hplog.
    induction Hplog as [|p l ps ls Hp _ IH]; constructor; [|done].
    by destruct p. }
  destruct (mapR_total (gt_scalar 0) _ price (gt_scalar_total _) Hnp)
    as [keep1 Hkeep1].
  pose proof (mapR_mfilter _ K _ _ Hkeep1) as Hkeep1'.
  assert (Hall1 : Forall (λ b, b = true) (mfilter K keep1)).
  { apply mapR_mask in Hkeep1'. rewrite Hkeep1'. apply Forall_fmap.
    apply mfilter_keep_mask_price. }
  assert (Hlen1 : length (mfilter K keep1) = len d').
  { unfold d', len. simpl. rewrite index_engineered.
    apply mfilter_length_eq.
    apply mapR_Forall2, Forall2_length in Hkeep1. unfold len in *. lia. }
  assert (Hodo' : mfilter (mfilter K keep1) (mfilter K odo) = mfilter K odo).
  { apply mfilter_all_true; [done|]. rewrite Hlen1. unfold d', len. simpl.
    rewrite index_engineered. apply mfilter_length_eq. unfold len in *. lia. }
  destruct (mapR_total (lt_scalar 1000000) _ (mfilter K odo)
              (lt_scalar_total _) Hno)
    as [keep2 Hkeep2].
  assert (Hall2 : Forall (λ b, b = true) keep2).
  { apply mapR_mask in Hkeep2. rewrite Hkeep2. apply Forall_fmap.
    apply mfilter_keep_mask_odometer. }
  assert (Hlen2 : length keep2 = len d').
  { apply mapR_Forall2, Forall2_length in Hkeep2. rewrite <- Hkeep2.
    unfold d', len. simpl. rewrite index_engineered.
    apply mfilter_length_eq. unfold len in *. lia. }
  destruct (feature_engineering_run r' w' d' (mfilter K year) (mfilter K odo)
              (mfilter K price) (mfilter K age0) (mfilter K age1)
              (mfilter K km) (mfilter K plog) (mfilter K keep1) keep2)
    with (neg := mfilter K neg) as (w'' & Hrun' & Hheap'').
  - done.
  - unfold d'. rewrite column_filter_rows, column_engineered_input, Hyear
      by (set_unfold; tauto). done.
  - rewrite Hclock. by apply mapR_mfilter.
  - unfold d'. rewrite column_filter_rows, column_engineered_input, Hodo
      by (set_unfold; tauto). done.
  - rewrite <- mfilter_fmap. by apply mapR_mfilter.
  - apply zipR_mfilter; [lia | done].
  - unfold d'. rewrite column_filter_rows, column_engineered_input, Hprice
      by (set_unfold; tauto). done.
  - by apply mapR_mfilter.
  - done.
  - by rewrite Hodo'.
  - by apply mapR_mfilter.
  - exists (S (S (length (heap w')))), w''. split; [done|].
    rewrite Hheap''. rewrite lookup_app_r by lia.
    replace (S (S (length (heap w'))) - length (heap w'))%nat with 2%nat
      by lia.
    simpl. f_equal.
    assert (He : engineered d' (clamp_age <$> mfilter K age0) (mfilter K km)
                   (mfilter K plog) = d').
    { unfold engineered at 1.
      rewrite (set_column_id d' "age").
      2: { unfold d'. rewrite column_filter_rows, column_engineered_age.
           simpl. f_equal. unfold age. by rewrite mfilter_fmap. }
      rewrite (set_column_id d' "km_per_year").
      2: { unfold d'. by rewrite column_filter_rows, column_engineered_km. }
      rewrite (set_column_id d' "price_log").
      2: { unfold d'. by rewrite column_filter_rows, column_engineered_plog. }
      apply foldl_fill_id. intros c Hc. unfold string_column, d'.
      rewrite column_filter_rows, column_engineered_cat by done.
      eexists. split; [done|]. apply mfilter_Forall.
      destruct (column d c).
      - by apply Forall_fmap, Forall_fmap, Forall_true.
      - by apply Forall_replicate. }
    rewrite He.
    rewrite (filter_rows_all_true (mfilter K keep1) d') by done.
    by apply filter_rows_all_true.
Qed.

(** [feature_engineering] prints nothing and touches neither the file
    system nor the store nor the clock, whether it returns or raises;
    warnings are at most added. *)
Theorem feature_engineering_effects r w :
  fs (feature_engineering r w).2 = fs w ∧
  mongo (feature_engineering r w).2 = mongo w ∧
  clock_year (feature_engineering r w).2 = clock_year w ∧
  stdout (feature_engineering r w).2 = stdout w ∧
  warnings w `prefix_of` warnings (feature_engineering r w).2.
Proof. apply only_warns_feature_engineering. Qed.

Lemma log1p_warn_silent price w :
  warnings (log1p_warn price w) = warnings w ↔
  existsb log1p_pole price = false ∧ existsb log1p_invalid price = false.
Proof.
  unfold log1p_warn.
  destruct (existsb log1p_pole price), (existsb log1p_invalid price);
    simpl; split; try done; try (by intros [? ?]);
    intros Hw; apply (f_equal length) in Hw; rewrite ?length_app in Hw;
    simpl in Hw; lia.
Qed.

Lemma existsb_false {A} (f : A → bool) l :
  existsb f l = false ↔ Forall (λ x, f x = false) l.
Proof.
  induction l as [|x l IH]; simpl.
  - split; [constructor|done].
  - rewrite orb_false_iff, IH, Forall_cons. done.
Qed.

(** A returning call adds a warning exactly when some price is a number
    of at most [-1] or minus infinity. *)
Theorem feature_engineering_warns_iff r w r' w' d price :
  heap w !! r = Some d → column d "price" = Some price →
  feature_engineering r w = (Ok r', w') →
  warnings w' = warnings w ↔
  Forall (λ p, p ≠ VNegInf ∧ ∀ q, p = VNum q → (-1 < q)%Qc) price.
Proof.
  intros Hd Hprice Hrun.
  apply feature_engineering_Ok in Hrun
    as (d0 & year & age0 & odo & age1 & km & price0 & plog & keep1 & keep2 &
        Hd0 & _ & _ & _ & _ & _ & Hprice0 & _ & _ & _ & _ & _ & Hwarn).
  assert (d0 = d) as -> by congruence.
  assert (price0 = price) as -> by congruence.
  rewrite Hwarn, log1p_warn_silent, !existsb_false, <- Forall_and.
  apply Forall_iff. intros p. unfold log1p_pole.
  rewrite bool_decide_eq_false. split.
  - intros [Hpole Hinv]. split; [by intros ->|].
    intros q ->. simpl in Hinv. unfold Qc_ltb in Hinv.
    apply bool_decide_eq_false in Hinv.
    apply Qcle_ngt in Hinv. apply Qcle_lt_or_eq in Hinv as [?| <-]; [done|].
    by destruct Hpole.
  - intros [Hninf Hq]. split.
    + intros ->. specialize (Hq _ eq_refl). by apply Qclt_not_eq in Hq.
    + destruct p as [q| | |?|]; simpl; try done.
      unfold Qc_ltb. apply bool_decide_eq_false, Qcle_ngt, Qclt_le_weak.
      by apply Hq.
Qed.

End FeatureEngineeringAgain.

(** ** Further properties: one-hot encoding *)

Section EncodingOutcome.
Context `{!Platform}.

Lemma existsb_eq_iff {A} (f g : A → bool) l k :
  ((∃ x, x ∈ l ∧ f x = true) ↔ (∃ x, x ∈ k ∧ g x = true)) →
  existsb f l = existsb g k.
Proof.
  intros Hiff. apply eq_true_iff_eq. rewrite !existsb_exists.
  setoid_rewrite <- list_elem_of_In. done.
Qed.

Lemma existsb_present (f : value → bool) vs :
  (∀ v, f v = true → isna v = false) →
  existsb f (filter (λ v, isna v = false) (remove_dups vs)) = existsb f vs.
Proof.
  intros Hf. apply existsb_eq_iff. split.
  - intros (x & Hx & Hfx). apply list_elem_of_filter in Hx as [_ Hx].
    rewrite elem_of_remove_dups in Hx. eauto.
  - intros (x & Hx & Hfx). exists x. split; [|done].
    apply list_elem_of_filter. split; [by apply Hf|].
    by rewrite elem_of_remove_dups.
Qed.

Lemma fit_column_cases vs :
  fit_column vs = Raise TypeError ∧ mixed vs = true ∨
  (∃ cats, fit_column vs = Ok cats) ∧ mixed vs = false.
Proof.
  unfold fit_column, mixed.
  rewrite (existsb_present is_str), (existsb_present is_number)
    by (by intros []).
  destruct (existsb is_str vs && existsb is_number vs); eauto.
Qed.

Lemma encode_categorical_default_run r w d fuel trans brand cf ct cb :
  heap w !! r = Some d → len d ≠ 0%nat →
  column d "fuel" = Some fuel →
  column d "transmission" = Some trans →
  column d "brand" = Some brand →
  existsb (existsb is_inf) [fuel; trans; brand] = false →
  fit_column fuel = Ok cf → fit_column trans = Ok ct →
  fit_column brand = Ok cb →
  (encode_categorical r None w).1 = Ok (length (heap w) + 5)%nat.
Proof.
  intros Hd Hlen Hfuel Htrans Hbrand Hinf Hcf Hct Hcb.
  unfold encode_categorical. cbn [default].
  rewrite bind_run. unfold print at 1.
  rewrite bind_run, (getitem_list_run r _ _ d) by done.
  unfold select_columns, default_cat_cols. simpl mapR.
  rewrite Hfuel, Htrans, Hbrand.
  cbn [heap add_stdout]. set (h := heap w) in *.
  set (X := mkDataFrame (index d) _).
  rewrite bind_run. erewrite (deref_focus h) by reflexivity.
  rewrite bind_run, OneHotEncoder_deprecation_run.
  cbn [heap set_heap add_stdout].
  rewrite bind_run.
  unfold liftR at 1, OneHotEncoder_fit_transform, OneHotEncoder_fit.
  rewrite decide_False by done.
  replace (existsb _ (columns X)) with false.
  unfold X at 1. simpl mapR. rewrite Hcf, Hct, Hcb.
  rewrite bind_run, pd_DataFrame_run.
  2: { unfold OneHotEncoder_transform, get_feature_names_out. simpl.
       rewrite !length_app, !length_fmap. done. }
  cbn [heap set_heap].
  set (E := mkDataFrame (RangeIndex _) (zip _ _)).
  pose proof (lookup_lt_Some _ _ _ Hd) as Hr.
  rewrite bind_run, (df_drop_run r _ _ d).
  2: { cbn [heap set_heap].
       by rewrite !lookup_app_l by (rewrite ?length_app; simpl; lia). }
  2: { repeat (apply Forall_cons; split; [by eapply column_elem_of|]).
       constructor. }
  cbn [heap set_heap].
  set (N := drop_columns d _).
  rewrite bind_run, (reset_index_run _ _ N)
    by (cbn [heap set_heap]; by apply list_lookup_middle).
  cbn [heap set_heap].
  set (L := mkDataFrame (RangeIndex (len N)) (columns N)).
  rewrite bind_run, (reset_index_run _ _ E).
  2: { cbn [heap set_heap].
       rewrite !lookup_app_l by (rewrite ?length_app; simpl; lia).
       by apply list_lookup_middle. }
  cbn [heap set_heap].
  set (R := mkDataFrame (RangeIndex (len E)) (columns E)).
  rewrite bind_run, (pd_concat_run _ _ _ L R).
  2: { cbn [heap set_heap].
       rewrite !lookup_app_l by (rewrite ?length_app; simpl; lia).
       by apply list_lookup_middle. }
  2: { cbn [heap set_heap]. by apply list_lookup_middle. }
  assert (HLR : index L = index R).
  { unfold L, R, N, E, X, OneHotEncoder_transform, len. simpl.
    by rewrite length_RangeIndex. }
  unfold concat_axis1. rewrite decide_True by done.
  unfold mret, M_ret. cbn [fst heap set_heap]. f_equal.
  rewrite !length_app. simpl. lia.
Qed.

Lemma encode_outcome_cases r w d :
  heap w !! r = Some d →
  match column d "fuel", column d "transmission", column d "brand" with
  | Some fuel, Some trans, Some brand =>
      (encode_categorical r None w).1 =
        if decide (len d = 0%nat) then Raise ValueError
        else if existsb (existsb is_inf) [fuel; trans; brand]
        then Raise ValueError
        else if existsb mixed [fuel; trans; brand] then Raise TypeError
        else Ok (length (heap w) + 5)%nat
  | _, _, _ =>
      ∃ c, c ∈ default_cat_cols ∧ column d c = None ∧
           (encode_categorical r None w).1 = Raise (KeyError c)
  end.
Proof.
  intros Hd.
  assert (Hstart : ∀ res,
    (match select_columns d default_cat_cols with
     | Ok X => True
     | Raise e => res = Raise e
     end) →
    (∀ X, select_columns d default_cat_cols = Ok X → False) →
    (encode_categorical r None w).1 = res).
  { intros res Hres Hno. unfold encode_categorical. cbn [default].
    rewrite bind_run. unfold print at 1.
    rewrite bind_run, (getitem_list_run r _ _ d) by done.
    destruct (select_columns d default_cat_cols) as [X|e]; [|by subst].
    by destruct (Hno X). }
  destruct (column d "fuel") as [fuel|] eqn:Hfuel.
  2: { exists "fuel". split_and!; [set_solver | done |].
       apply Hstart; unfold select_columns, default_cat_cols; simpl;
         rewrite Hfuel; done. }
  destruct (column d "transmission") as [trans|] eqn:Htrans.
  2: { exists "transmission". split_and!; [set_solver | done |].
       apply Hstart; unfold select_columns, default_cat_cols; simpl;
         rewrite Hfuel, Htrans; done. }
  destruct (column d "brand") as [brand|] eqn:Hbrand.
  2: { exists "brand". split_and!; [set_solver | done |].
       apply Hstart; unfold select_columns, default_cat_cols; simpl;
         rewrite Hfuel, Htrans, Hbrand; done. }
  assert (Hfit : ∀ res,
    OneHotEncoder_fit
      (mkDataFrame (index d)
         [("fuel", fuel); ("transmission", trans); ("brand", brand)])
      = Raise res →
    (encode_categorical r None w).1 = Raise res).
  { intros res Hres. unfold encode_categorical. cbn [default].
    rewrite bind_run. unfold print at 1.
    rewrite bind_run, (getitem_list_run r _ _ d) by done.
    unfold select_columns, default_cat_cols. simpl mapR.
    rewrite Hfuel, Htrans, Hbrand. cbn [heap add_stdout].
    rewrite bind_run. erewrite (deref_focus (heap w)) by reflexivity.
    rewrite bind_run, OneHotEncoder_deprecation_run.
    rewrite bind_run. unfold liftR at 1, OneHotEncoder_fit_transform.
    by rewrite Hres. }
  destruct (decide (len d = 0%nat)) as [Hz|Hnz].
  { apply Hfit. unfold OneHotEncoder_fit. by rewrite decide_True. }
  destruct (existsb (existsb is_inf) [fuel; trans; brand]) eqn:Hinf.
  { apply Hfit. unfold OneHotEncoder_fit. rewrite decide_False by done.
    replace (existsb _ (columns _)) with true; done. }
  destruct (fit_column_cases fuel) as [[Hcf Hmf]|[[cf Hcf] Hmf]].
  { simpl. rewrite Hmf. simpl. apply Hfit. unfold OneHotEncoder_fit.
    rewrite decide_False by done.
    replace (existsb _ (columns _)) with false by done.
    simpl. by rewrite Hcf. }
  destruct (fit_column_cases trans) as [[Hct Hmt]|[[ct Hct] Hmt]].
  { simpl. rewrite Hmf, Hmt. simpl. apply Hfit. unfold OneHotEncoder_fit.
    rewrite decide_False by done.
    replace (existsb _ (columns _)) with false by done.
    simpl. by rewrite Hcf, Hct. }
  destruct (fit_column_cases brand) as [[Hcb Hmb]|[[cb Hcb] Hmb]].
  { simpl. rewrite Hmf, Hmt, Hmb. simpl. apply Hfit. unfold OneHotEncoder_fit.
    rewrite decide_False by done.
    replace (existsb _ (columns _)) with false by done.
    simpl. by rewrite Hcf, Hct, Hcb. }
  simpl. rewrite Hmf, Hmt, Hmb. simpl.
  by apply (encode_categorical_default_run r w d fuel trans brand cf ct cb).
Qed.

(** The answer of [encode_categorical] with the default columns on a
    table that has fuel, transmission and brand and no infinite value in
    them: a ValueError on a table without rows, a TypeError when one of
    the three holds strings and numbers, otherwise a new table. *)
Theorem encode_categorical_outcome r w d fuel trans brand :
  heap w !! r = Some d →
  column d "fuel" = Some fuel →
  column d "transmission" = Some trans →
  column d "brand" = Some brand →
  existsb (existsb is_inf) [fuel; trans; brand] = false →
  (encode_categorical r None w).1 =
    if decide (len d = 0%nat) then Raise ValueError
    else if existsb mixed [fuel; trans; brand] then Raise TypeError
    else Ok (length (heap w) + 5)%nat.
Proof.
  intros Hd Hfuel Htrans Hbrand Hinf.
  pose proof (encode_outcome_cases r w d Hd) as Hcases.
  rewrite Hfuel, Htrans, Hbrand, Hinf in Hcases. exact Hcases.
Qed.

(** On a table that lacks fuel, transmission or brand,
    [encode_categorical] raises a KeyError for a missing column after it
    has printed its line; it makes no table. *)
Theorem encode_categorical_missing_column r w d c :
  heap w !! r = Some d →
  c ∈ default_cat_cols → column d c = None →
  ∃ k line,
    k ∈ default_cat_cols ∧ column d k = None ∧
    encode_categorical r None w = (Raise (KeyError k), add_stdout line w).
Proof.
  intros Hd Hc Hnone.
  assert (Hsel : ∃ k, k ∈ default_cat_cols ∧ column d k = None ∧
                      select_columns d default_cat_cols = Raise (KeyError k)).
  { unfold select_columns, default_cat_cols. simpl.
    destruct (column d "fuel") as [fuel|] eqn:Hfuel.
    2: { exists "fuel". split_and!; [|done..]; apply (bool_decide_unpack _); vm_compute; exact I. }
    destruct (column d "transmission") as [trans|] eqn:Htrans.
    2: { exists "transmission". split_and!; [|done..]; apply (bool_decide_unpack _); vm_compute; exact I. }
    destruct (column d "brand") as [brand|] eqn:Hbrand.
    2: { exists "brand". split_and!; [|done..]; apply (bool_decide_unpack _); vm_compute; exact I. }
    unfold default_cat_cols in Hc. set_unfold in Hc.
    destruct_or!; try done; subst c; congruence. }
  destruct Hsel as (k & Hk & Hkn & Hsel).
  exists k. eexists. split_and!; try done.
  unfold encode_categorical. cbn [default].
  rewrite bind_run. unfold print at 1.
  rewrite bind_run, (getitem_list_run r _ _ d) by done.
  rewrite Hsel. reflexivity.
Qed.

End EncodingOutcome.

Section EncodingLayout.
Context `{!Platform}.

Lemma assoc_app c l k :
  assoc c (l ++ k) = match assoc c l with
                     | Some s => Some s
                     | None => assoc c k
                     end.
Proof.
  induction l as [|[c' s'] l IH]; simpl; [done|].
  by destruct (decide (c = c')).
Qed.

Lemma assoc_filter_keep c (cols : list string) l :
  c ∉ cols →
  assoc c (filter (λ cs : string * series, cs.1 ∉ cols) l) = assoc c l.
Proof.
  intros Hc. induction l as [|[c' s'] l IH]; [done|].
  rewrite filter_cons. simpl. destruct (decide (c = c')) as [<-|Hne].
  - rewrite decide_True by done. simpl. by rewrite decide_True.
  - destruct (decide (c' ∉ cols)); [|done]. simpl.
    by rewrite decide_False.
Qed.

Lemma assoc_filter_drop c (cols : list string) l :
  c ∈ cols →
  assoc c (filter (λ cs : string * series, cs.1 ∉ cols) l) = None.
Proof.
  intros Hc. apply assoc_None. intros Hin.
  apply list_elem_of_fmap in Hin as ([c' s'] & -> & Hin).
  apply list_elem_of_filter in Hin as [Hn _]. done.
Qed.

Lemma block_name_ne c0 c s :
  c0 ∈ default_cat_cols → c ∈ default_cat_cols → c0 +:+ "_" +:+ s ≠ c.
Proof.
  unfold default_cat_cols. intros H0 Hc. set_unfold.
  destruct_or!; try done; subst c0 c; intros Heq; cbv in Heq; congruence.
Qed.

Lemma assoc_onehot_block c0 c cats vs :
  c0 ∈ default_cat_cols → c ∈ default_cat_cols →
  assoc c (onehot_block c0 cats vs) = None.
Proof.
  intros H0 Hc. apply assoc_None. intros Hin.
  apply list_elem_of_fmap in Hin as ([c' s'] & -> & Hin).
  unfold onehot_block in Hin.
  apply list_elem_of_fmap in Hin as (cat & [= -> _] & _).
  by apply (block_name_ne c0 _ (py_str cat) H0 Hc).
Qed.

Lemma rectangular_onehot_block n c cats vs :
  length vs = n →
  Forall (λ cs : string * series, length cs.2 = n) (onehot_block c cats vs).
Proof.
  intros Hvs. unfold onehot_block. apply Forall_fmap, Forall_true.
  intros cat. simpl. by rewrite length_fmap.
Qed.

(** The columns that are not encoded pass through [encode_categorical]
    with their cells and their order of rows; the rows are renumbered
    from 0. *)
Theorem encode_categorical_passthrough r w r' w' d d' :
  heap w !! r = Some d →
  encode_categorical r None w = (Ok r', w') →
  heap w' !! r' = Some d' →
  index d' = RangeIndex (len d) ∧
  ∀ c, c ∈ column_names d → c ∉ default_cat_cols →
       column d' c = column d c.
Proof.
  intros Hd Hrun Hd'.
  apply encode_categorical_default_Ok in Hrun
    as (d0 & fuel & trans & brand & cf & ct & cb & Hd0 & Hfuel & Htrans &
        Hbrand & Hlen & Hcf & Hct & Hcb & Hout).
  assert (d0 = d) as -> by congruence.
  rewrite Hout in Hd'. injection Hd' as <-. split; [done|].
  intros c Hin Hc. unfold column. cbn [columns drop_columns].
  rewrite assoc_app, assoc_filter_keep by done.
  destruct (assoc c (columns d)) eqn:Hs; [done|].
  by apply assoc_None in Hs.
Qed.

(** The result of [encode_categorical] has no column fuel, transmission
    or brand any more. *)
Theorem encode_categorical_sources_dropped r w r' w' d' c :
  encode_categorical r None w = (Ok r', w') →
  heap w' !! r' = Some d' →
  c ∈ default_cat_cols → column d' c = None.
Proof.
  intros Hrun Hd' Hc.
  apply encode_categorical_default_Ok in Hrun
    as (d0 & fuel & trans & brand & cf & ct & cb & Hd0 & Hfuel & Htrans &
        Hbrand & Hlen & Hcf & Hct & Hcb & Hout).
  rewrite Hout in Hd'. injection Hd' as <-.
  unfold column. cbn [columns drop_columns].
  rewrite !assoc_app, assoc_filter_drop by done.
  rewrite !assoc_onehot_block; try done;
    apply (bool_decide_unpack _); vm_compute; exact I.
Qed.

(** On a table whose columns have one cell per row, the result of
    [encode_categorical] has one cell per row in every column. *)
Theorem encode_categorical_rectangular r w r' w' d d' :
  heap w !! r = Some d → rectangular d →
  encode_categorical r None w = (Ok r', w') →
  heap w' !! r' = Some d' →
  rectangular d'.
Proof.
  intros Hd Hrect Hrun Hd'.
  apply encode_categorical_default_Ok in Hrun
    as (d0 & fuel & trans & brand & cf & ct & cb & Hd0 & Hfuel & Htrans &
        Hbrand & Hlen & Hcf & Hct & Hcb & Hout).
  assert (d0 = d) as -> by congruence.
  rewrite Hout in Hd'. injection Hd' as <-.
  unfold rectangular, len at 1. cbn [columns index drop_columns].
  rewrite length_RangeIndex, !Forall_app. split_and!.
  - apply Forall_forall. intros cs [_ Hcs]%list_elem_of_filter.
    unfold rectangular in Hrect. rewrite Forall_forall in Hrect. auto.
  - apply rectangular_onehot_block. by eapply column_length.
  - apply rectangular_onehot_block. by eapply column_length.
  - apply rectangular_onehot_block. by eapply column_length.
Qed.

(** For every string [s] found in fuel, transmission or brand, the
    result of [encode_categorical] has a column named after the source
    column and [s] that holds 1 in the rows where the source column is
    [s] and 0 in the others. *)
Theorem encode_categorical_hot_column r w r' w' d d' c vs i s :
  heap w !! r = Some d →
  encode_categorical r None w = (Ok r', w') →
  heap w' !! r' = Some d' →
  c ∈ default_cat_cols → column d c = Some vs → vs !! i = Some (VStr s) →
  ∃ col, (c +:+ "_" +:+ s, col) ∈ columns d' ∧
         length col = length vs ∧
         ∀ j u, vs !! j = Some u →
                col !! j = Some (if decide (u = VStr s) then VNum 1%Qc
                                 else VNum 0%Qc).
Proof.
  intros Hd Hrun Hd' Hc Hvs Hv.
  apply encode_categorical_default_Ok in Hrun
    as (d0 & fuel & trans & brand & cf & ct & cb & Hd0 & Hfuel & Htrans &
        Hbrand & Hlen & Hcf & Hct & Hcb & Hout).
  assert (d0 = d) as -> by congruence.
  rewrite Hout in Hd'. injection Hd' as <-. cbn [columns].
  exists (indicator (VStr s) <$> vs). split_and!.
  - assert (Hblock : ∀ cats, fit_column vs = Ok cats →
      (c +:+ "_" +:+ s, indicator (VStr s) <$> vs) ∈ onehot_block c cats vs).
    { intros cats Hfit. unfold onehot_block.
      apply (list_elem_of_fmap_2
               (λ cat, (c +:+ "_" +:+ py_str cat, indicator cat <$> vs))
               _ (VStr s)).
      apply (fit_column_elem_of _ _ _ Hfit).
      by eapply list_elem_of_lookup_2. }
    rewrite !elem_of_app. unfold default_cat_cols in Hc. set_unfold in Hc.
    destruct_or!; try done; subst c.
    + assert (vs = fuel) as -> by congruence. right; left. by apply Hblock.
    + assert (vs = trans) as -> by congruence.
      right; right; left. by apply Hblock.
    + assert (vs = brand) as -> by congruence.
      right; right; right. by apply Hblock.
  - by rewrite length_fmap.
  - intros j u Hu. unfold series in *.
    by rewrite list_lookup_fmap, Hu.
Qed.

End EncodingLayout.

Global Instance only_prints_preorder : PreOrder only_prints.
Proof.
  split.
  - by intros w.
  - intros w1 w2 w3 (?&?&?&?&?) (?&?&?&?&?). unfold only_prints.
    split_and!; try congruence. by etrans.
Qed.

Lemma same_outside_heap_only_prints w w' :
  same_outside_heap w w' → only_prints w w'.
Proof.
  intros (?&?&?&Hs&?). unfold only_prints. split_and!; try done.
  by rewrite Hs.
Qed.

Global Instance warns_only_preorder allowed : PreOrder (warns_only allowed).
Proof.
  split.
  - intros w. unfold warns_only. split_and!; try done.
    exists []. by rewrite app_nil_r.
  - intros w1 w2 w3 (?&?&?&?&e1&He1&?) (?&?&?&?&e2&He2&?).
    unfold warns_only. split_and!; try congruence.
    exists (e1 ++ e2). split; [|by apply Forall_app].
    by rewrite He2, He1, app_assoc.
Qed.

Lemma same_outside_heap_warns_only allowed w w' :
  same_outside_heap w w' → warns_only allowed w w'.
Proof.
  intros (?&?&?&?&Hw). unfold warns_only. split_and!; try done.
  exists []. by rewrite app_nil_r.
Qed.

Section EncodingEffects.
Context `{!Platform}.

Local Ltac heap_only_step :=
  first
    [ apply (respects_ret same_outside_heap)
    | apply (respects_raise same_outside_heap)
    | apply (respects_liftR same_outside_heap)
    | apply heap_only_deref
    | apply heap_only_alloc
    | apply (respects_bind same_outside_heap); [ | intros ? ]
    | match goal with
      | |- respects _ (match ?x with _ => _ end) => destruct x
      | |- respects _ (if ?x then _ else _) => destruct x
      end ].

Lemma heap_only_getitem_list r cols :
  respects same_outside_heap (getitem_list r cols).
Proof. unfold getitem_list. repeat heap_only_step. Qed.

Lemma heap_only_pd_DataFrame a names :
  respects same_outside_heap (pd_DataFrame a names).
Proof. unfold pd_DataFrame. repeat heap_only_step. Qed.

Lemma heap_only_df_drop r cols : respects same_outside_heap (df_drop r cols).
Proof. unfold df_drop. repeat heap_only_step. Qed.

Lemma heap_only_reset_index r : respects same_outside_heap (reset_index r).
Proof. unfold reset_index. repeat heap_only_step. Qed.

Lemma heap_only_pd_concat ra rb :
  respects same_outside_heap (pd_concat ra rb).
Proof. unfold pd_concat. repeat heap_only_step. Qed.

Lemma warns_only_deprecation :
  respects (warns_only (λ m, sparse_warning = Some m))
    OneHotEncoder_deprecation.
Proof.
  intros w. rewrite OneHotEncoder_deprecation_run. unfold warns_only. simpl.
  split_and!; try done. exists deprecation_msgs. split; [done|].
  unfold deprecation_msgs. destruct sparse_warning; repeat constructor.
Qed.

Local Ltac lift_heap_only lem :=
  apply (respects_mono same_outside_heap
           (warns_only (λ m, sparse_warning = Some m)));
  [ apply same_outside_heap_warns_only | apply lem ].

Lemma encode_categorical_print r cat_cols w :
  ∃ line, warns_only (λ m, sparse_warning = Some m) (add_stdout line w)
            (encode_categorical r cat_cols w).2.
Proof.
  unfold encode_categorical. eexists. rewrite bind_run. unfold print at 1.
  match goal with
  | |- warns_only ?P _ (?m ?w0).2 =>
      cut (respects (warns_only P) m); [intros Hm; apply Hm|]
  end.
  repeat first
    [ apply warns_only_deprecation
    | lift_heap_only heap_only_getitem_list
    | lift_heap_only heap_only_pd_DataFrame
    | lift_heap_only heap_only_df_drop
    | lift_heap_only heap_only_reset_index
    | lift_heap_only heap_only_pd_concat
    | lift_heap_only heap_only_deref
    | apply (respects_ret (warns_only (λ m, sparse_warning = Some m)))
    | apply (respects_liftR (warns_only (λ m, sparse_warning = Some m)))
    | apply (respects_bind (warns_only (λ m, sparse_warning = Some m)));
      [ | intros ? ]
    | match goal with
      | |- respects _ (match ?x with _ => _ end) => destruct x
      end ].
Qed.

(** [encode_categorical] prints one line, whether it returns or raises;
    the only other effect outside the heap is the warning of the encoder
    about its parameter [sparse], where the installed scikit-learn has
    one: no file and no store is touched. *)
Theorem encode_categorical_effects r cat_cols w :
  fs (encode_categorical r cat_cols w).2 = fs w ∧
  mongo (encode_categorical r cat_cols w).2 = mongo w ∧
  clock_year (encode_categorical r cat_cols w).2 = clock_year w ∧
  (∃ line, stdout (encode_categorical r cat_cols w).2 = stdout w ++ [line]) ∧
  ∃ extra,
    warnings (encode_categorical r cat_cols w).2 = warnings w ++ extra ∧
    Forall (λ m, sparse_warning = Some m) extra.
Proof.
  destruct (encode_categorical_print r cat_cols w)
    as (line & Hfs & Hmongo & Hclock & Hout & Hwarn).
  split_and!; try done. by exists line.
Qed.

Lemma strings_not_mixed vs :
  Forall (λ v, is_str v = true) vs → mixed vs = false.
Proof.
  intros Hvs. unfold mixed.
  replace (existsb is_number vs) with false; [by rewrite andb_false_r|].
  symmetry. induction Hvs as [|v vs Hv _ IH]; [done|].
  simpl. rewrite IH. by destruct v.
Qed.

(** In the pipeline, on the table [feature_engineering] returned, the
    encoder raises a ValueError when no row is left and returns a new
    table otherwise. *)
Theorem encode_after_feature_engineering_outcome r w r' w' d d' :
  heap w !! r = Some d → rectangular d →
  feature_engineering r w = (Ok r', w') →
  heap w' !! r' = Some d' →
  (encode_categorical r' None w').1 =
    if decide (len d' = 0%nat) then Raise ValueError
    else Ok (length (heap w') + 5)%nat.
Proof.
  intros Hd Hrect Hrun Hd'.
  destruct (feature_engineering_string_columns _ _ _ _ _ Hd Hrect Hrun)
    as (d0 & Hd0 & Hstr).
  assert (d0 = d') as -> by congruence.
  assert (Hcol : ∀ c, c ∈ fe_cat_cols → string_column d' c) by done.
  destruct (Hcol "fuel") as (fuel & Hfuel & Hsf);
    [apply (bool_decide_unpack _); vm_compute; exact I|].
  destruct (Hcol "transmission") as (trans & Htrans & Hst);
    [apply (bool_decide_unpack _); vm_compute; exact I|].
  destruct (Hcol "brand") as (brand & Hbrand & Hsb);
    [apply (bool_decide_unpack _); vm_compute; exact I|].
  pose proof (encode_outcome_cases r' w' d' Hd') as Hcases.
  rewrite Hfuel, Htrans, Hbrand in Hcases. rewrite Hcases.
  destruct (decide (len d' = 0%nat)); [done|]. simpl.
  by rewrite !strings_no_inf, !strings_not_mixed.
Qed.

End EncodingEffects.

(** ** Further properties: loading *)

Section Loading.
Context `{!Platform}.





Lemma load_data_store_run uri w docs :
  mongo w !! uri = Some docs →
  ∃ line,
    let docs' := filter (λ kv : string * value, kv.1 ≠ "_id") <$> docs in
    let keys :=
      reverse (remove_dups
                 (reverse (mjoin ((λ doc : document, doc.*1) <$> docs')))) in
    let d := mkDataFrame (RangeIndex (length docs'))
                         ((λ k, (k, doc_get k <$> docs')) <$> keys) in
    load_data true uri w =
      (Ok (length (heap w)), add_stdout line (set_heap (heap w ++ [d]) w)).
Proof.
  intros Hm. eexists. cbv zeta. unfold load_data.
  rewrite bind_run. unfold mongo_find. rewrite Hm.
  rewrite bind_run. unfold pd_DataFrame_of_docs, alloc.
  rewrite bind_run. unfold df_len. rewrite bind_run.
  erewrite (deref_focus (heap w)) by reflexivity.
  unfold mret, M_ret. rewrite bind_run. unfold print. reflexivity.
Qed.

Lemma load_data_file_run uri w :
  ∃ line : nat → string,
  load_data false uri w =
    match fs w !! "data/extracted_cars.csv" with
    | None =>
        (Raise (FileNotFoundError "data/extracted_cars.csv not found."), w)
    | Some Dir => (Raise IsADirectoryError, w)
    | Some (File content) =>
        match read_csv content with
        | Ok d => (Ok (length (heap w)),
                   add_stdout (line (len d)) (set_heap (heap w ++ [d]) w))
        | Raise e => (Raise e, w)
        end
    end.
Proof.
  exists (λ n, "✅ Loaded " +:+ pretty n +:+ " rows from extracted_cars.csv").
  unfold load_data. rewrite bind_run. unfold os_path_exists.
  destruct (fs w !! "data/extracted_cars.csv") as [[|content]|] eqn:Hfs.
  - rewrite bool_decide_true by eauto. cbn [negb].
    rewrite bind_run. unfold mret at 1, M_ret at 1.
    rewrite bind_run. unfold pd_read_csv. by rewrite Hfs.
  - rewrite bool_decide_true by eauto. cbn [negb].
    rewrite bind_run. unfold mret at 1, M_ret at 1.
    rewrite bind_run. unfold pd_read_csv. rewrite Hfs.
    destruct (read_csv content) as [d|e]; [|done].
    unfold alloc. rewrite bind_run. unfold df_len. rewrite bind_run.
    erewrite (deref_focus (heap w)) by reflexivity.
    unfold mret, M_ret. rewrite bind_run. unfold print. reflexivity.
  - rewrite bool_decide_false by (by intros [? ?]). done.
Qed.


(** When [load_data] raises, from either source, it leaves the world as
    it was: nothing is printed and no table is made. *)
Theorem load_data_failure_clean from_mongo uri w e w' :
  load_data from_mongo uri w = (Raise e, w') → w' = w.
Proof.
  destruct from_mongo.
  - destruct (mongo w !! uri) as [docs|] eqn:Hm.
    + destruct (load_data_store_run uri w docs Hm) as [line Hrun].
      cbv zeta in Hrun. rewrite Hrun. discriminate.
    + unfold load_data. rewrite bind_run. unfold mongo_find. rewrite Hm.
      by intros [= _ <-].
  - destruct (load_data_file_run uri w) as [line ->].
    destruct (fs w !! "data/extracted_cars.csv") as [[|content]|];
      [by intros [= _ <-]| |by intros [= _ <-]].
    destruct (read_csv content); [discriminate | by intros [= _ <-]].
Qed.

(** When [load_data] returns, from either source, it has made exactly
    one new table, which it returns, and printed exactly one line; the
    tables that existed, the files, the store and the warnings are as
    they were. *)
Theorem load_data_success_world from_mongo uri w r w' :
  load_data from_mongo uri w = (Ok r, w') →
  r = length (heap w) ∧
  ∃ d line, w' = add_stdout line (set_heap (heap w ++ [d]) w).
Proof.
  destruct from_mongo.
  - destruct (mongo w !! uri) as [docs|] eqn:Hm.
    + destruct (load_data_store_run uri w docs Hm) as [line Hrun].
      cbv zeta in Hrun. rewrite Hrun. intros [= <- <-]. eauto.
    + unfold load_data. rewrite bind_run. unfold mongo_find. rewrite Hm.
      discriminate.
  - destruct (load_data_file_run uri w) as [line ->].
    destruct (fs w !! "data/extracted_cars.csv") as [[|content]|];
      [discriminate| |discriminate].
    destruct (read_csv content); [|discriminate].
    intros [= <- <-]. eauto.
Qed.

End Loading.

(** ** Further properties: export *)

Section Exporting.
Context `{!Platform}.

Lemma set_fs_id w : set_fs (fs w) w = w.
Proof. by destruct w. Qed.

Lemma os_makedirs_run path w :
  os_makedirs path w =
    match fs w !! path with
    | Some (File _) => (Raise FileExistsError, w)
    | _ => (Ok tt, set_fs (<[path := Dir]> (fs w)) w)
    end.
Proof.
  unfold os_makedirs. destruct (fs w !! path) as [[|content]|] eqn:Hp; try done.
  by rewrite insert_id, set_fs_id.
Qed.

Lemma export_train_data_run r w d :
  heap w !! r = Some d →
  ∃ line,
    export_train_data r w =
      match fs w !! "data" with
      | Some (File _) => (Raise FileExistsError, w)
      | _ =>
          match fs w !! csv_path with
          | Some Dir =>
              (Raise IsADirectoryError, set_fs (<["data" := Dir]> (fs w)) w)
          | _ =>
              (Ok tt,
               add_stdout line
                 (set_fs (<[csv_path := File (to_csv d)]>
                            (<["data" := Dir]> (fs w))) w))
          end
      end.
Proof.
  intros Hd.
  exists ("💾 Exported train-ready data → " +:+ csv_path +:+
          " (" +:+ pretty (len d) +:+ " rows)").
  unfold export_train_data. rewrite bind_run, os_makedirs_run.
  assert (Hrest : ∀ w1, heap w1 = heap w →
    (df_to_csv r csv_path ≫= λ _,
       df_len r ≫= λ n,
         print ("💾 Exported train-ready data → " +:+ csv_path +:+
                " (" +:+ pretty n +:+ " rows)")) w1 =
    match fs w1 !! csv_path with
    | Some Dir => (Raise IsADirectoryError, w1)
    | _ => (Ok tt,
            add_stdout ("💾 Exported train-ready data → " +:+ csv_path +:+
                        " (" +:+ pretty (len d) +:+ " rows)")
              (set_fs (<[csv_path := File (to_csv d)]> (fs w1)) w1))
    end).
  { intros w1 Hh. rewrite bind_run. unfold df_to_csv.
    rewrite bind_run, (deref_run r w1 d) by congruence.
    unfold write_file.
    destruct (fs w1 !! csv_path) as [[|content]|]; [done|..];
      unfold df_len; rewrite !bind_run, (deref_run r _ d) by (simpl; congruence);
      done. }
  destruct (fs w !! "data") as [[|content]|] eqn:Hdata; [|done|].
  - rewrite Hrest by done. cbn [fs set_fs].
    rewrite lookup_insert_ne by apply csv_path_not_data.
    by destruct (fs w !! csv_path) as [[|?]|].
  - rewrite Hrest by done. cbn [fs set_fs].
    rewrite lookup_insert_ne by apply csv_path_not_data.
    by destruct (fs w !! csv_path) as [[|?]|].
Qed.

(** [export_train_data] returns unless "data" is a regular file, which
    is a FileExistsError, or the path of the output is a directory, which
    is an IsADirectoryError. *)
Theorem export_train_data_outcome r w d :
  heap w !! r = Some d →
  (export_train_data r w).1 =
    match fs w !! "data" with
    | Some (File _) => Raise FileExistsError
    | _ => match fs w !! csv_path with
           | Some Dir => Raise IsADirectoryError
           | _ => Ok tt
           end
    end.
Proof.
  intros Hd. destruct (export_train_data_run r w d Hd) as [line ->].
  destruct (fs w !! "data") as [[|?]|]; try done;
    by destruct (fs w !! csv_path) as [[|?]|].
Qed.

(** After [export_train_data] has returned, "data" is a directory, the
    output file holds the rendering of the table, every other path is as
    it was, one line has been printed and nothing else has changed. *)
Theorem export_train_data_world r w w' :
  export_train_data r w = (Ok tt, w') →
  ∃ d line,
    heap w !! r = Some d ∧
    w' = add_stdout line
           (set_fs (<[csv_path := File (to_csv d)]>
                      (<["data" := Dir]> (fs w))) w).
Proof.
  intros Hrun. destruct (export_train_data_Ok _ _ _ Hrun) as (d & Hd & _).
  destruct (export_train_data_run r w d Hd) as [line Heq].
  rewrite Heq in Hrun. exists d, line. split; [done|].
  destruct (fs w !! "data") as [[|?]|]; try done;
    destruct (fs w !! csv_path) as [[|?]|]; congruence.
Qed.

(** Exporting the same table a second time succeeds and changes
    nothing but the console. *)
Theorem export_train_data_again r w w1 :
  export_train_data r w = (Ok tt, w1) →
  ∃ line, export_train_data r w1 = (Ok tt, add_stdout line w1).
Proof.
  intros Hrun. destruct (export_train_data_Ok _ _ _ Hrun) as (d & Hd & _).
  destruct (export_train_data_run r w d Hd) as [line Heq].
  rewrite Heq in Hrun.
  assert (Hw1 : heap w1 = heap w ∧
                fs w1 = <[csv_path := File (to_csv d)]>
                          (<["data" := Dir]> (fs w))).
  { destruct (fs w !! "data") as [[|?]|]; try done;
      destruct (fs w !! csv_path) as [[|?]|]; try done;
      by injection Hrun as <-. }
  destruct Hw1 as [Hh Hf].
  assert (Hdata : fs w1 !! "data" = Some Dir).
  { rewrite Hf, lookup_insert_ne by (apply not_eq_sym, csv_path_not_data).
    apply lookup_insert_eq. }
  assert (Hcsv : fs w1 !! csv_path = Some (File (to_csv d))).
  { rewrite Hf. apply lookup_insert_eq. }
  destruct (export_train_data_run r w1 d) as [line1 Heq1]; [congruence|].
  exists line1. rewrite Heq1, Hdata, Hcsv.
  rewrite (insert_id _ "data") by done.
  by rewrite insert_id, set_fs_id.
Qed.

(** On a file system where the output file exists only if its directory
    does, [export_train_data] raises without leaving a trace: the world
    is as it was. *)
Theorem export_train_data_failure_clean r w d e w' :
  heap w !! r = Some d →
  (is_Some (fs w !! csv_path) → fs w !! "data" = Some Dir) →
  export_train_data r w = (Raise e, w') →
  w' = w.
Proof.
  intros Hd Hcons Hrun.
  destruct (export_train_data_run r w d Hd) as [line Heq].
  rewrite Heq in Hrun.
  destruct (fs w !! "data") as [[|?]|] eqn:Hdata.
  - destruct (fs w !! csv_path) as [[|?]|]; try done.
    injection Hrun as _ <-. by rewrite insert_id, set_fs_id.
  - by injection Hrun as _ <-.
  - destruct (fs w !! csv_path) as [[|?]|] eqn:Hcsv; try done.
    by discriminate Hcons.
Qed.

End Exporting.

(** ** Further properties: the whole run *)

Global Instance pipeline_footprint_preorder : PreOrder pipeline_footprint.
Proof.
  split.
  - by intros w.
  - intros w1 w2 w3 (?&?&?&?&H12) (?&?&?&?&H23). unfold pipeline_footprint.
    split_and!; try congruence; try (by etrans).
    intros p ? ?. by rewrite H23, H12.
Qed.

Lemma only_warns_footprint w w' : only_warns w w' → pipeline_footprint w w'.
Proof.
  intros (Hfs&?&?&Hs&?). unfold pipeline_footprint. split_and!; try done.
  - by rewrite Hs.
  - intros p _ _. by rewrite Hfs.
Qed.

Lemma only_prints_footprint w w' : only_prints w w' → pipeline_footprint w w'.
Proof.
  intros (Hfs&?&?&?&Hw). unfold pipeline_footprint. split_and!; try done.
  - by rewrite Hw.
  - intros p _ _. by rewrite Hfs.
Qed.

Section WholeRun.
Context `{!Platform}.

Lemma only_prints_print line : respects only_prints (print line).
Proof.
  intros w. unfold only_prints. simpl. split_and!; try done.
  by apply prefix_app_r.
Qed.

Lemma only_prints_load_data from_mongo uri :
  respects only_prints (load_data from_mongo uri).
Proof.
  intros w.
  assert (Hnew : ∀ d line,
    only_prints w (add_stdout line (set_heap (heap w ++ [d]) w))).
  { intros d line. unfold only_prints. simpl. split_and!; try done.
    by apply prefix_app_r. }
  destruct from_mongo.
  - destruct (mongo w !! uri) as [docs|] eqn:Hm.
    + destruct (load_data_store_run uri w docs Hm) as [line Hrun].
      cbv zeta in Hrun. rewrite Hrun. apply Hnew.
    + unfold load_data. rewrite bind_run. unfold mongo_find. rewrite Hm.
      reflexivity.
  - destruct (load_data_file_run uri w) as [line ->].
    destruct (fs w !! "data/extracted_cars.csv") as [[|content]|];
      [reflexivity| |reflexivity].
    destruct (read_csv content); [apply Hnew | reflexivity].
Qed.

Lemma load_data_store_down uri w :
  mongo w !! uri = None →
  load_data true uri w = (Raise ServerSelectionTimeoutError, w).
Proof.
  intros Hm. unfold load_data. rewrite bind_run. unfold mongo_find.
  by rewrite Hm.
Qed.

Lemma only_prints_clean_data r : respects only_prints (clean_data r).
Proof.
  unfold clean_data.
  repeat first
    [ apply only_prints_print
    | apply (respects_ret only_prints)
    | apply (respects_liftR only_prints)
    | solve [ apply (respects_mono same_outside_heap only_prints);
              [ apply same_outside_heap_only_prints
              | first [ apply heap_only_deref | apply heap_only_alloc ] ] ]
    | apply (respects_bind only_prints); [ | intros ? ]
    | match goal with
      | |- respects _ (match ?x with _ => _ end) => destruct x
      end ].
Qed.

Lemma footprint_encode_categorical r cat_cols :
  respects pipeline_footprint (encode_categorical r cat_cols).
Proof.
  intros w. destruct (encode_categorical_print r cat_cols w)
    as (line & Hfs & Hmongo & Hclock & Hout & extra & Hwarn & _).
  unfold pipeline_footprint. split_and!; try done.
  - rewrite Hout. simpl. by apply prefix_app_r.
  - rewrite Hwarn. simpl. by apply prefix_app_r.
  - intros p _ _. by rewrite Hfs.
Qed.

Lemma footprint_export_train_data r :
  respects pipeline_footprint (export_train_data r).
Proof.
  intros w. destruct (heap w !! r) as [d|] eqn:Hd.
  - destruct (export_train_data_run r w d Hd) as [line ->].
    destruct (fs w !! "data") as [[|?]|]; try reflexivity;
      destruct (fs w !! csv_path) as [[|?]|];
      unfold pipeline_footprint; simpl; split_and!; try done;
      try (by apply prefix_app_r);
      intros p ? ?; by rewrite ?lookup_insert_ne by done.
  - unfold export_train_data. rewrite bind_run, os_makedirs_run.
    assert (Hderef : ∀ w1, heap w1 = heap w →
      (df_to_csv r csv_path ≫= λ _,
         df_len r ≫= λ n,
           print ("💾 Exported train-ready data → " +:+ csv_path +:+
                  " (" +:+ pretty n +:+ " rows)")) w1 =
      (Raise ReferenceError, w1)).
    { intros w1 Hh. rewrite bind_run. unfold df_to_csv.
      rewrite bind_run. unfold deref. by rewrite Hh, Hd. }
    destruct (fs w !! "data") as [[|?]|]; try reflexivity;
      rewrite Hderef by done;
      unfold pipeline_footprint; simpl; split_and!; try done;
      intros p ? ?; by rewrite lookup_insert_ne by done.
Qed.

Lemma footprint_main : respects pipeline_footprint main.
Proof.
  unfold main.
  repeat first
    [ apply footprint_export_train_data
    | solve [ apply (respects_mono only_warns pipeline_footprint);
              [ apply only_warns_footprint
              | apply only_warns_feature_engineering ] ]
    | solve [ apply (respects_mono only_prints pipeline_footprint);
              [ apply only_prints_footprint
              | first [ apply only_prints_print
                      | apply only_prints_load_data
                      | apply only_prints_clean_data ] ] ]
    | apply footprint_encode_categorical
    | apply (respects_bind pipeline_footprint); [ | intros ? ] ].
Qed.

(** Whatever its outcome, a run of [main] leaves the store and the clock
    as they were, only adds to the console and to the warnings, and
    changes no path of the file system but "data" and the output file. *)
Theorem main_footprint w :
  mongo (main w).2 = mongo w ∧
  clock_year (main w).2 = clock_year w ∧
  stdout w `prefix_of` stdout (main w).2 ∧
  warnings w `prefix_of` warnings (main w).2 ∧
  ∀ p, p ≠ "data" → p ≠ csv_path → fs (main w).2 !! p = fs w !! p.
Proof. apply footprint_main. Qed.

(** [main] reads the store only: when the store does not answer, the run
    ends with the error of the store after its two header lines, also
    when the CSV file of the loader is there; it makes no table and
    writes no file. *)
Theorem main_needs_store w :
  mongo w !! default_mongo_uri = None →
  (main w).1 = Raise ServerSelectionTimeoutError ∧
  heap (main w).2 = heap w ∧ fs (main w).2 = fs w ∧
  length (stdout (main w).2) = (length (stdout w) + 2)%nat.
Proof.
  intros Hm.
  assert (Hrun : main w =
    (Raise ServerSelectionTimeoutError,
     add_stdout "============================================================"
       (add_stdout "🚗 PREPROCESSING AutoTrader dataset" w))).
  { unfold main. rewrite bind_run. unfold print at 1.
    rewrite bind_run. unfold print at 1.
    rewrite bind_run, load_data_store_down; done. }
  rewrite Hrun. simpl. split_and!; try done.
  rewrite !length_app. simpl. lia.
Qed.

End WholeRun.

(** ** The further properties on the sample inputs *)

Lemma feature_engineering_outcome_witness :
  (@feature_engineering sample_platform 0%nat sample_encode_world).1 =
    Raise (KeyError "year").
Proof.
  destruct (@feature_engineering_outcome sample_platform 0%nat
              sample_encode_world sample_engineered) as [Hyear _].
  - reflexivity.
  - repeat constructor.
  - apply Hyear. reflexivity.
Defined.

Lemma feature_engineering_column_names_witness :
  ∃ d', heap (@feature_engineering sample_platform 0%nat sample_world).2
          !! 3%nat = Some d' ∧
    column_names d' =
      column_names sample_frame ++
      filter (λ c, c ∉ column_names sample_frame) fe_written_cols.
Proof.
  assert (Hd' : ∃ d',
    heap (@feature_engineering sample_platform 0%nat sample_world).2
      !! 3%nat = Some d') by (eexists; vm_compute; reflexivity).
  destruct Hd' as [d' Hd']. exists d'. split; [exact Hd'|].
  apply (@feature_engineering_column_names sample_platform 0%nat sample_world
           3%nat (@feature_engineering sample_platform 0%nat sample_world).2
           sample_frame d');
    [reflexivity | repeat constructor | vm_compute; reflexivity | exact Hd'].
Defined.

Lemma feature_engineering_passthrough_witness :
  ∃ d', heap (@feature_engineering sample_platform 0%nat sample_world).2
          !! 3%nat = Some d' ∧
    ∃ price odo,
      column sample_frame "price" = Some price ∧
      column sample_frame "odometer_km" = Some odo ∧
      ∀ c, c ∉ fe_written_cols →
           column d' c = mfilter (keep_mask price odo) <$> column sample_frame c.
Proof.
  assert (Hd' : ∃ d',
    heap (@feature_engineering sample_platform 0%nat sample_world).2
      !! 3%nat = Some d') by (eexists; vm_compute; reflexivity).
  destruct Hd' as [d' Hd']. exists d'. split; [exact Hd'|].
  apply (@feature_engineering_passthrough sample_platform 0%nat sample_world
           3%nat (@feature_engineering sample_platform 0%nat sample_world).2
           sample_frame d');
    [reflexivity | repeat constructor | vm_compute; reflexivity | exact Hd'].
Defined.

Lemma feature_engineering_well_formed_witness :
  ∃ d', heap (@feature_engineering sample_platform 0%nat sample_world).2
          !! 3%nat = Some d' ∧
    rectangular d' ∧ (unique_labels sample_frame → unique_labels d').
Proof.
  assert (Hd' : ∃ d',
    heap (@feature_engineering sample_platform 0%nat sample_world).2
      !! 3%nat = Some d') by (eexists; vm_compute; reflexivity).
  destruct Hd' as [d' Hd']. exists d'. split; [exact Hd'|].
  apply (@feature_engineering_well_formed sample_platform 0%nat sample_world
           3%nat (@feature_engineering sample_platform 0%nat sample_world).2
           sample_frame d');
    [reflexivity | repeat constructor | vm_compute; reflexivity | exact Hd'].
Defined.

Lemma feature_engineering_idempotent_witness :
  ∃ d', heap (@feature_engineering sample_platform 0%nat sample_world).2
          !! 3%nat = Some d' ∧
    ∃ r'' w'',
      @feature_engineering sample_platform 3%nat
        (@feature_engineering sample_platform 0%nat sample_world).2
        = (Ok r'', w'') ∧
      heap w'' !! r'' = Some d'.
Proof.
  assert (Hd' : ∃ d',
    heap (@feature_engineering sample_platform 0%nat sample_world).2
      !! 3%nat = Some d') by (eexists; vm_compute; reflexivity).
  destruct Hd' as [d' Hd']. exists d'. split; [exact Hd'|].
  apply (@feature_engineering_idempotent sample_platform 0%nat sample_world
           3%nat (@feature_engineering sample_platform 0%nat sample_world).2
           sample_frame d');
    [reflexivity | repeat constructor | vm_compute; reflexivity | exact Hd'].
Defined.

Lemma feature_engineering_warns_iff_witness :
  warnings (@feature_engineering sample_platform 0%nat sample_world).2 =
    warnings sample_world ↔
  Forall (λ p, p ≠ VNegInf ∧ ∀ q, p = VNum q → (-1 < q)%Qc)
    [num 10000; num 0; num 7000; num (-5); num 500; num 30000].
Proof.
  apply (@feature_engineering_warns_iff sample_platform 0%nat sample_world
           3%nat (@feature_engineering sample_platform 0%nat sample_world).2
           sample_frame);
    [reflexivity | reflexivity | vm_compute; reflexivity].
Defined.

Lemma encode_categorical_outcome_witness :
  (@encode_categorical sample_platform 0%nat None sample_encode_world).1 =
    if decide (len sample_engineered = 0%nat) then Raise ValueError
    else if existsb mixed
              [[VStr "petrol"; VStr "Unknown"; VStr "diesel"];
               [VStr "Unknown"; VStr "Unknown"; VStr "Unknown"];
               [VStr "kia"; VStr "kia"; VStr "bmw"]]
    then Raise TypeError
    else Ok (length (heap sample_encode_world) + 5)%nat.
Proof.
  apply (@encode_categorical_outcome sample_platform 0%nat sample_encode_world
           sample_engineered); reflexivity.
Defined.

Lemma encode_categorical_missing_column_witness :
  ∃ k line,
    k ∈ default_cat_cols ∧ column sample_frame k = None ∧
    @encode_categorical sample_platform 0%nat None sample_world =
      (Raise (KeyError k), add_stdout line sample_world).
Proof.
  apply (@encode_categorical_missing_column sample_platform 0%nat sample_world
           sample_frame "brand");
    [reflexivity | apply (bool_decide_unpack _); vm_compute; exact I
    | reflexivity].
Defined.

Lemma encode_categorical_passthrough_witness :
  ∃ d', heap (@encode_categorical sample_platform 0%nat None
                sample_encode_world).2 !! 6%nat = Some d' ∧
    index d' = RangeIndex (len sample_engineered) ∧
    ∀ c, c ∈ column_names sample_engineered → c ∉ default_cat_cols →
         column d' c = column sample_engineered c.
Proof.
  assert (Hd' : ∃ d',
    heap (@encode_categorical sample_platform 0%nat None
            sample_encode_world).2 !! 6%nat = Some d')
    by (eexists; vm_compute; reflexivity).
  destruct Hd' as [d' Hd']. exists d'. split; [exact Hd'|].
  apply (@encode_categorical_passthrough sample_platform 0%nat
           sample_encode_world 6%nat
           (@encode_categorical sample_platform 0%nat None
              sample_encode_world).2 sample_engineered d');
    [reflexivity | vm_compute; reflexivity | exact Hd'].
Defined.

Lemma encode_categorical_sources_dropped_witness :
  ∃ d', heap (@encode_categorical sample_platform 0%nat None
                sample_encode_world).2 !! 6%nat = Some d' ∧
    column d' "fuel" = None.
Proof.
  assert (Hd' : ∃ d',
    heap (@encode_categorical sample_platform 0%nat None
            sample_encode_world).2 !! 6%nat = Some d')
    by (eexists; vm_compute; reflexivity).
  destruct Hd' as [d' Hd']. exists d'. split; [exact Hd'|].
  apply (@encode_categorical_sources_dropped sample_platform 0%nat
           sample_encode_world 6%nat
           (@encode_categorical sample_platform 0%nat None
              sample_encode_world).2 d' "fuel");
    [vm_compute; reflexivity | exact Hd'
    | apply (bool_decide_unpack _); vm_compute; exact I].
Defined.

Lemma encode_categorical_rectangular_witness :
  ∃ d', heap (@encode_categorical sample_platform 0%nat None
                sample_encode_world).2 !! 6%nat = Some d' ∧
    rectangular d'.
Proof.
  assert (Hd' : ∃ d',
    heap (@encode_categorical sample_platform 0%nat None
            sample_encode_world).2 !! 6%nat = Some d')
    by (eexists; vm_compute; reflexivity).
  destruct Hd' as [d' Hd']. exists d'. split; [exact Hd'|].
  apply (@encode_categorical_rectangular sample_platform 0%nat
           sample_encode_world 6%nat
           (@encode_categorical sample_platform 0%nat None
              sample_encode_world).2 sample_engineered d');
    [reflexivity | repeat constructor | vm_compute; reflexivity | exact Hd'].
Defined.

Lemma encode_categorical_hot_column_witness :
  ∃ d', heap (@encode_categorical sample_platform 0%nat None
                sample_encode_world).2 !! 6%nat = Some d' ∧
    ∃ col,
      ("fuel" +:+ "_" +:+ "petrol", col) ∈ columns d' ∧
      length col =
        length [VStr "petrol"; VStr "Unknown"; VStr "diesel"] ∧
      ∀ j u, [VStr "petrol"; VStr "Unknown"; VStr "diesel"] !! j = Some u →
             col !! j = Some (if decide (u = VStr "petrol") then VNum 1%Qc
                              else VNum 0%Qc).
Proof.
  assert (Hd' : ∃ d',
    heap (@encode_categorical sample_platform 0%nat None
            sample_encode_world).2 !! 6%nat = Some d')
    by (eexists; vm_compute; reflexivity).
  destruct Hd' as [d' Hd']. exists d'. split; [exact Hd'|].
  apply (@encode_categorical_hot_column sample_platform 0%nat
           sample_encode_world 6%nat
           (@encode_categorical sample_platform 0%nat None
              sample_encode_world).2 sample_engineered d' "fuel"
           [VStr "petrol"; VStr "Unknown"; VStr "diesel"] 0%nat
           "petrol");
    [reflexivity | vm_compute; reflexivity | exact Hd'
    | apply (bool_decide_unpack _); vm_compute; exact I
    | reflexivity | reflexivity].
Defined.

Lemma encode_after_feature_engineering_outcome_witness :
  ∃ d', heap (@feature_engineering sample_platform 0%nat sample_world).2
          !! 3%nat = Some d' ∧
    (@encode_categorical sample_platform 3%nat None
       (@feature_engineering sample_platform 0%nat sample_world).2).1 =
      if decide (len d' = 0%nat) then Raise ValueError
      else Ok (length (heap (@feature_engineering sample_platform 0%nat
                               sample_world).2) + 5)%nat.
Proof.
  assert (Hd' : ∃ d',
    heap (@feature_engineering sample_platform 0%nat sample_world).2
      !! 3%nat = Some d') by (eexists; vm_compute; reflexivity).
  destruct Hd' as [d' Hd']. exists d'. split; [exact Hd'|].
  apply (@encode_after_feature_engineering_outcome sample_platform 0%nat
           sample_world 3%nat
           (@feature_engineering sample_platform 0%nat sample_world).2
           sample_frame d');
    [reflexivity | repeat constructor | vm_compute; reflexivity | exact Hd'].
Defined.


Lemma load_data_failure_clean_witness :
  (@load_data sample_platform true default_mongo_uri sample_world).2 =
    sample_world.
Proof.
  apply (@load_data_failure_clean sample_platform true default_mongo_uri
           sample_world ServerSelectionTimeoutError).
  vm_compute. reflexivity.
Defined.

Lemma load_data_success_world_witness :
  0%nat = length (heap sample_store_world) ∧
  ∃ d line,
    (@load_data sample_platform true default_mongo_uri sample_store_world).2 =
      add_stdout line
        (set_heap (heap sample_store_world ++ [d]) sample_store_world).
Proof.
  apply (@load_data_success_world sample_platform true default_mongo_uri
           sample_store_world).
  vm_compute. reflexivity.
Defined.

Lemma export_train_data_outcome_witness :
  (@export_train_data sample_platform 0%nat sample_encode_world).1 =
    match fs sample_encode_world !! "data" with
    | Some (File _) => Raise FileExistsError
    | _ => match fs sample_encode_world !! csv_path with
           | Some Dir => Raise IsADirectoryError
           | _ => Ok tt
           end
    end.
Proof.
  apply (@export_train_data_outcome sample_platform 0%nat sample_encode_world
           sample_engineered).
  reflexivity.
Defined.

Lemma export_train_data_world_witness :
  ∃ d line,
    heap sample_encode_world !! 0%nat = Some d ∧
    (@export_train_data sample_platform 0%nat sample_encode_world).2 =
      add_stdout line
        (set_fs (<[csv_path := File (@to_csv sample_platform d)]>
                   (<["data" := Dir]> (fs sample_encode_world)))
           sample_encode_world).
Proof.
  apply (@export_train_data_world sample_platform 0%nat sample_encode_world).
  vm_compute. reflexivity.
Defined.

Lemma export_train_data_again_witness :
  ∃ line,
    @export_train_data sample_platform 0%nat
      (@export_train_data sample_platform 0%nat sample_encode_world).2 =
    (Ok tt,
     add_stdout line
       (@export_train_data sample_platform 0%nat sample_encode_world).2).
Proof.
  apply (@export_train_data_again sample_platform 0%nat sample_encode_world).
  vm_compute. reflexivity.
Defined.

Lemma export_train_data_failure_clean_witness :
  (@export_train_data sample_platform 0%nat
     (mkWorld [sample_engineered]
        (<["data" := Dir]> {[ csv_path := Dir ]}) ∅ 2024 [] [])).2 =
  mkWorld [sample_engineered]
    (<["data" := Dir]> {[ csv_path := Dir ]}) ∅ 2024 [] [].
Proof.
  apply (@export_train_data_failure_clean sample_platform 0%nat
           (mkWorld [sample_engineered]
              (<["data" := Dir]> {[ csv_path := Dir ]}) ∅ 2024 [] [])
           sample_engineered IsADirectoryError).
  - reflexivity.
  - intros _. vm_compute. reflexivity.
  - vm_compute. reflexivity.
Defined.

Lemma main_needs_store_witness :
  (@main sample_platform sample_world).1 = Raise ServerSelectionTimeoutError ∧
  heap (@main sample_platform sample_world).2 = heap sample_world ∧
  fs (@main sample_platform sample_world).2 = fs sample_world ∧
  length (stdout (@main sample_platform sample_world).2) =
    (length (stdout sample_world) + 2)%nat.
Proof.
  apply (@main_needs_store sample_platform sample_world).
  vm_compute. reflexivity.
Defined.
